(** * Dun V3 SDK: secret derivation, ledger scan and transaction builder

    A shallow embedding of the protocol core of the dashboard's Dun SDK
    ([dun-protocol/sdk/src/utils.ts], [v3/proofs.ts], [v3/secrets.ts],
    [v3/client.ts], the amount check of [lib/dun/v5/client.ts] and of
    [lib/ai/tools/dun-shielded-pool-tools.ts]) and the properties proved
    of it. Part I is the program, Part II the vocabulary in which the
    properties are stated, Part III the properties. Part IV goes on with
    properties of the byte encodings, the session signature, the scan,
    the balance view and the builders, and of the hex strings of
    [utils.ts], of [SignatureSecrets] and of the nonce loop and metadata
    of [lib/dun/v5/client.ts].

    Conventions of the embedding.
    - A JS [bigint] is a [Z]; a [Buffer] / [Uint8Array] is a list of
      bytes; a JS string of hex digits is a [list ascii].
    - The decimal strings that carry commitments and nullifiers
      ([poseidon.F.toString(hash)], [value.toString()]) are canonical
      decimal renderings of non-negative integers, so they are compared as
      the integers they denote.
    - A JS [number] holding an amount in SOL is an exact rational [Q];
      binary floating point rounding is outside the model.
    - An [async] method is a function of the session state returning a
      result and the new state; a [throw] is the [Err] result, and the
      state changes made before the throw persist.
    - What lies outside the SDK is a parameter: the Poseidon hash, the
      prover, address derivation, the random source, the wallet's answers
      and the ledger's answers. Loading of the crypto libraries ([init])
      and console output are left out.
    - The withdraw-with-change circuit, which the SDK uses in compiled
      form only, is modelled from the spec ([Circuits]). *)

From Stdlib Require Import ZArith NArith List Ascii String Bool Lia.
From Stdlib Require Import QArith Qround Permutation Sorted.
From Stdlib.Strings Require Byte.
Import ListNotations.

Local Open Scope Z_scope.

(* ================================================================== *)
(** * Part I. The program                                               *)
(* ================================================================== *)

(** ** [utils.ts]: integers, hex strings and buffers *)

Module Utils.

(** The byte holding [n]; values of 256 and above do not occur at any
    call site below. *)
Definition byteOfN (n : N) : Byte.byte :=
  match Byte.of_N n with
  | Some b => b
  | None => Byte.x00
  end.

(** One digit of [BigInt.prototype.toString(16)]: lower case. *)
Definition hexDigit (d : N) : ascii :=
  if (d <? 10)%N then ascii_of_N (48 + d) else ascii_of_N (87 + d).

(** The value of a hex digit as [Buffer.from(s, 'hex')] and
    [BigInt('0x...')] read it: both cases of the letters. *)
Definition hexVal (c : ascii) : option N :=
  let n := N_of_ascii c in
  if ((48 <=? n) && (n <=? 57))%N then Some (n - 48)%N
  else if ((97 <=? n) && (n <=? 102))%N then Some (n - 87)%N
  else if ((65 <=? n) && (n <=? 70))%N then Some (n - 55)%N
  else None.

(** Hex digits of [n], least significant first; [fuel] bounds the number
    of digits produced. *)
Fixpoint hexDigitsLE (fuel : nat) (n : N) : list N :=
  match fuel with
  | O => []
  | S fuel' =>
      if (n =? 0)%N then []
      else (n mod 16)%N :: hexDigitsLE fuel' (n / 16)%N
  end.

(** Hex digits of [n], most significant first, without leading zeros
    (the empty list for 0). *)
Definition hexDigits (n : N) : list N :=
  rev (hexDigitsLE (N.to_nat (N.size n)) n).

Definition natToString16 (n : N) : list ascii :=
  if (n =? 0)%N then ["0"%char] else map hexDigit (hexDigits n).

(** [value.toString(16)] of a bigint. *)
Definition toString16 (v : Z) : list ascii :=
  match v with
  | Z0 => ["0"%char]
  | Zpos p => natToString16 (Npos p)
  | Zneg p => "-"%char :: natToString16 (Npos p)
  end.

(** [s.padStart(target, '0')]. *)
Definition padStart (target : nat) (s : list ascii) : list ascii :=
  repeat "0"%char (target - List.length s) ++ s.

(** [Buffer.from(s, 'hex')]: two digits make a byte; decoding stops at
    the first pair that is not two hex digits, and a single trailing
    digit is dropped. *)
Fixpoint bufferFromHex (s : list ascii) : list Byte.byte :=
  match s with
  | a :: b :: rest =>
      match hexVal a, hexVal b with
      | Some x, Some y => byteOfN (16 * x + y) :: bufferFromHex rest
      | _, _ => []
      end
  | _ => []
  end.

(** [buffer.toString('hex')]. *)
Definition bufferToHex (bs : list Byte.byte) : list ascii :=
  flat_map (fun b => [hexDigit (Byte.to_N b / 16); hexDigit (Byte.to_N b mod 16)]) bs.

(** [BigInt('0x' + s)]: [None] is the [SyntaxError] JS throws on an
    empty digit string or a character that is not a hex digit. *)
Definition parseHexAcc (acc : option N) (c : ascii) : option N :=
  match acc, hexVal c with
  | Some a, Some d => Some (16 * a + d)%N
  | _, _ => None
  end.

Definition bigIntOfHex (s : list ascii) : option Z :=
  match s with
  | [] => None
  | _ => option_map Z.of_N (fold_left parseHexAcc s (Some 0%N))
  end.

(** [bufferToBigInt(buffer)]. *)
Definition bufferToBigInt (buffer : list Byte.byte) : option Z :=
  bigIntOfHex (bufferToHex buffer).

(** [bigIntToBuffer(value, length = 32)]. *)
Definition bigIntToBuffer (value : Z) (len : nat) : list Byte.byte :=
  bufferFromHex (padStart (len * 2) (toString16 value)).

(** The unsigned big-endian value of a byte sequence. *)
Definition beValueN (bs : list Byte.byte) : N :=
  fold_left (fun acc b => 256 * acc + Byte.to_N b)%N bs 0%N.

Definition beValue (bs : list Byte.byte) : Z := Z.of_N (beValueN bs).

End Utils.

(** ** JS values, errors and the session monad *)

Module Js.

(** [error.code]: absent, a number or a string. *)
Inductive ErrCode : Type :=
| CodeNone
| CodeNum (n : Z)
| CodeStr (s : string).

(** A thrown value, by the three fields the code inspects; an absent
    [message] or [name] is the empty string (the code reads them through
    [?.toLowerCase() || '']). *)
Record JsError : Type := mkJsError {
  message : string;
  name : string;
  code : ErrCode
}.

(** [new Error(msg)]. *)
Definition newError (msg : string) : JsError := mkJsError msg "Error" CodeNone.

Inductive Result (A : Type) : Type :=
| Ok (a : A)
| Err (e : JsError).
Arguments Ok {A} a.
Arguments Err {A} e.

(** [c.toLowerCase()] on the ASCII letters. *)
Definition lowerChar (c : ascii) : ascii :=
  let n := N_of_ascii c in
  if ((65 <=? n) && (n <=? 90))%N then ascii_of_N (n + 32) else c.

Fixpoint toLowerCase (s : string) : string :=
  match s with
  | EmptyString => EmptyString
  | String c rest => String (lowerChar c) (toLowerCase rest)
  end.

(** [hay.includes(needle)]. *)
Fixpoint includes (hay needle : string) : bool :=
  if String.prefix needle hay then true
  else match hay with
       | EmptyString => false
       | String _ rest => includes rest needle
       end.

Definition codeIsNum (c : ErrCode) (n : Z) : bool :=
  match c with CodeNum m => m =? n | _ => false end.

Definition codeIsStr (c : ErrCode) (s : string) : bool :=
  match c with CodeStr t => String.eqb t s | _ => false end.

End Js.

(** A ledger operation built by [program.methods...transaction()] (or, for
    the token account, by [createAssociatedTokenAccountInstruction]). *)
Inductive Tx : Type :=
| TxDeposit (commitmentBytes : list Byte.byte) (amountLamports : Z)
            (userTokenAccount poolVault commitmentPDA : string)
| TxWithdraw (nullifierBytes : list Byte.byte) (withdrawAmount : Z)
             (poolVault recipientTokenAccount nullifierPDA : string)
| TxWithdrawWithChange (oldNullifierBytes newCommitmentBytes : list Byte.byte)
             (withdrawAmount : Z)
             (poolVault recipientTokenAccount oldNullifierPDA newCommitmentPDA : string)
| TxCreateAta (payer ata owner mint : string).

(** What the outside world sees of a session: wallet prompts, secret
    derivations, ledger RPCs, transactions handed to the wallet for sending
    and prover calls, most recent first. The log is instrumentation only;
    no definition below branches on it. *)
Inductive Event : Type :=
| EvSignMessage
| EvDerive (nonce : nat) (amount : Z)
| EvRpc (method : string)
| EvSend (tx : Tx)
| EvProve (circuit : string).

(** The mutable fields of [V3SecretManager], the number of wallet prompts
    and random draws made so far (the external wallet and random source
    answer by position), and the event log. *)
Record Session : Type := mkSession {
  cachedSignature : option (list Byte.byte);
  signatureRejected : bool;
  prompts : nat;
  randomDraws : nat;
  trace : list Event
}.

Definition freshSession : Session := mkSession None false 0 0 [].

Definition logEvent (e : Event) (s : Session) : Session :=
  mkSession (cachedSignature s) (signatureRejected s) (prompts s)
            (randomDraws s) (e :: trace s).

(** An async method: session in, result and session out. *)
Definition M (A : Type) : Type := Session -> Js.Result A * Session.

Definition ret {A : Type} (a : A) : M A := fun s => (Js.Ok a, s).

Definition throw {A : Type} (e : Js.JsError) : M A := fun s => (Js.Err e, s).

Definition bind {A B : Type} (c : M A) (k : A -> M B) : M B :=
  fun s =>
    match c s with
    | (Js.Ok a, s') => k a s'
    | (Js.Err e, s') => (Js.Err e, s')
    end.

(** [try { c } catch { handler }]. *)
Definition tryCatch {A : Type} (c : M A) (handler : Js.JsError -> M A) : M A :=
  fun s =>
    match c s with
    | (Js.Ok a, s') => (Js.Ok a, s')
    | (Js.Err e, s') => handler e s'
    end.

Definition emit (e : Event) : M unit := fun s => (Js.Ok tt, logEvent e s).

Declare Scope session_scope.
Delimit Scope session_scope with session.
Notation "x <- c ;; k" := (bind c (fun x => k))
  (at level 61, c at next level, right associativity) : session_scope.
Notation "c ;;; k" := (bind c (fun _ => k))
  (at level 61, right associativity) : session_scope.

(** ** [v3/secrets.ts]: [V3SecretManager] *)

Module Secrets.

(** [WalletAdapter], by what the manager uses: [publicKey] (null when
    disconnected) and [signMessage] (absent on wallets that cannot sign
    messages). The answer to a prompt is the wallet's and the user's; it
    is given per message and per position of the prompt in the session. *)
Record WalletAdapter : Type := mkWallet {
  publicKey : option string;
  signMessage : option (list Byte.byte -> nat -> Js.Result (list Byte.byte))
}.

Definition rejectionMessage : string :=
  "User rejected the signature request. Please refresh the page to try again.".

(** The [catch] block's test for a user rejection. *)
Definition isRejection (error : Js.JsError) : bool :=
  let errorMessage := Js.toLowerCase (Js.message error) in
  let errorName := Js.toLowerCase (Js.name error) in
  Js.includes errorMessage "user rejected" ||
  Js.includes errorMessage "user denied" ||
  Js.includes errorMessage "rejected" ||
  Js.includes errorMessage "denied" ||
  Js.includes errorMessage "cancelled" ||
  Js.includes errorMessage "canceled" ||
  Js.includes errorName "walletconnectionerror" ||
  Js.includes errorName "walletsigntransactionerror" ||
  Js.codeIsNum (Js.code error) 4001 ||
  Js.codeIsNum (Js.code error) (-32603) ||
  Js.codeIsStr (Js.code error) "ACTION_REJECTED".

(** [new TextEncoder().encode('Sign to access Dun Privacy Pool')]. *)
Definition signingMessage : list Byte.byte :=
  String.list_byte_of_string "Sign to access Dun Privacy Pool".

Definition setSignature (sig : list Byte.byte) (s : Session) : Session :=
  mkSession (Some sig) false (prompts s) (randomDraws s) (trace s).

Definition setRejected (s : Session) : Session :=
  mkSession (cachedSignature s) true (prompts s) (randomDraws s) (trace s).

Definition countPrompt (s : Session) : Session :=
  mkSession (cachedSignature s) (signatureRejected s) (S (prompts s))
            (randomDraws s) (EvSignMessage :: trace s).

(** [getWalletSignature(wallet)]. *)
Definition getWalletSignature (wallet : WalletAdapter) : M (list Byte.byte) :=
  fun s =>
    match cachedSignature s with
    | Some sig => (Js.Ok sig, s)
    | None =>
        if signatureRejected s then (Js.Err (Js.newError rejectionMessage), s)
        else
          match publicKey wallet with
          | None => (Js.Err (Js.newError "Wallet not connected"), s)
          | Some _ =>
              match signMessage wallet with
              | None =>
                  (Js.Err (Js.newError "Wallet does not support message signing"), s)
              | Some sign =>
                  match sign signingMessage (prompts s) with
                  | Js.Ok signature =>
                      (Js.Ok signature, setSignature signature (countPrompt s))
                  | Js.Err error =>
                      if isRejection error
                      then (Js.Err (Js.newError rejectionMessage),
                            setRejected (countPrompt s))
                      else (Js.Err error, countPrompt s)
                  end
              end
          end
    end.

(** [clearCache()]. *)
Definition clearCache (s : Session) : Session :=
  mkSession None false (prompts s) (randomDraws s) (trace s).

Definition syntaxError : Js.JsError :=
  Js.mkJsError "Cannot convert 0x to a BigInt" "SyntaxError" Js.CodeNone.

(** [BigInt('0x' + Buffer.from(bytes).toString('hex'))], throwing on the
    empty digit string. *)
Definition bigIntOfBytes (bytes : list Byte.byte) : M Z :=
  match Utils.bufferToBigInt bytes with
  | Some v => ret v
  | None => throw syntaxError
  end.

(** [deriveMasterKey(wallet)]: the first 31 bytes of the signature. *)
Definition deriveMasterKey (wallet : WalletAdapter) : M Z :=
  (signature <- getWalletSignature wallet ;;
   bigIntOfBytes (firstn 31 signature))%session.

Section WithHash.

(** [poseidon(inputs)] rendered by [poseidon.F.toString]: the field
    element as a non-negative integer. *)
Variable poseidon : list Z -> Z.

(** [crypto.randomBytes(31)], by draw. *)
Variable randomBytes : nat -> list Byte.byte.

(** [deriveSecret(wallet, nonce, amount)]. *)
Definition deriveSecret (wallet : WalletAdapter) (nonce : nat) (amount : Z) : M Z :=
  (emit (EvDerive nonce amount) ;;;
   masterKey <- deriveMasterKey wallet ;;
   ret (poseidon [masterKey; Z.of_nat nonce; amount]))%session.

(** [generateRandomSecret()]. *)
Definition generateRandomSecret : M Z :=
  fun s =>
    bigIntOfBytes (firstn 31 (randomBytes (randomDraws s)))
      (mkSession (cachedSignature s) (signatureRejected s) (prompts s)
                 (S (randomDraws s)) (trace s)).

Record OnChain : Type := mkOnChain {
  oc_commitment : Z;
  oc_address : string
}.

Record Owned : Type := mkOwned {
  commitment : Z;
  address : string;
  amount : Z;
  secret : Z;
  nonce : nat
}.

(** The innermost loop of [scanCommitments]:
    [for (let nonce = from; nonce < from + count; nonce++)], with its
    [try]/[catch] and its [break]. It returns what it pushed. *)
Fixpoint scanNonces (wallet : WalletAdapter) (c : OnChain) (amt : Z)
    (count from : nat) : M (list Owned) :=
  match count with
  | O => ret []
  | S count' =>
      fun s =>
        match deriveSecret wallet from amt s with
        | (Js.Ok sec, s') =>
            if poseidon [amt; sec] =? oc_commitment c
            then (Js.Ok [mkOwned (oc_commitment c) (oc_address c) amt sec from], s')
            else scanNonces wallet c amt count' (S from) s'
        | (Js.Err _, s') => scanNonces wallet c amt count' (S from) s'
        end
  end.

(** [for (const amount of possibleAmounts)] for one on-chain element. *)
Fixpoint scanAmounts (wallet : WalletAdapter) (c : OnChain)
    (possibleAmounts : list Z) (maxNonce : nat) : M (list Owned) :=
  match possibleAmounts with
  | [] => ret []
  | amt :: rest =>
      (found <- scanNonces wallet c amt maxNonce 0 ;;
       more <- scanAmounts wallet c rest maxNonce ;;
       ret (found ++ more))%session
  end.

(** [scanCommitments(wallet, commitments, possibleAmounts, maxNonce)]. *)
Fixpoint scanCommitments (wallet : WalletAdapter) (commitments : list OnChain)
    (possibleAmounts : list Z) (maxNonce : nat) : M (list Owned) :=
  match commitments with
  | [] => ret []
  | c :: rest =>
      (found <- scanAmounts wallet c possibleAmounts maxNonce ;;
       more <- scanCommitments wallet rest possibleAmounts maxNonce ;;
       ret (found ++ more))%session
  end.

End WithHash.

(** [COMMON_AMOUNTS], in lamports. *)
Definition COMMON_AMOUNTS : list Z :=
  [10000000; 50000000; 100000000; 500000000; 1000000000;
   5000000000; 10000000000; 50000000000; 100000000000].

End Secrets.

(** ** [v3/proofs.ts]: [V3ProofGenerator] *)

Module Proofs.

Record ProofResult : Type := mkProofResult {
  proof : list Z;
  publicSignals : list Z
}.

Record WithdrawWithChangeProofInputs : Type := mkWwcInputs {
  oldCommitment : Z;
  oldNullifier : Z;
  newCommitment : Z;
  withdrawAmount : Z;
  oldAmount : Z;
  oldSecret : Z;
  newAmount : Z;
  newSecret : Z
}.

(** The [circuitInputs] object handed to the prover: field names with
    their values (the amounts and secrets rendered by [toString()]). *)
Definition CircuitInputs : Type := list (string * Z).

Section WithProver.

Variable poseidon : list Z -> Z.

(** [groth16.fullProve(circuitInputs, wasm, zkey)]: the external
    prover; it answers with a proof or throws. *)
Variable fullProve : CircuitInputs -> string -> string -> Js.Result ProofResult.

(** [computeCommitment(amount, secret)]. *)
Definition computeCommitment (amount secret : Z) : Z := poseidon [amount; secret].

(** [computeNullifier(secret, commitment)]. *)
Definition computeNullifier (secret commitment : Z) : Z := poseidon [secret; commitment].

Definition withdrawWithChangeWasm : string :=
  "circuits/v3/build/withdraw_with_change/withdraw_with_change_js/withdraw_with_change.wasm".
Definition withdrawWithChangeZkey : string :=
  "circuits/v3/keys/withdraw_with_change_final.zkey".

Definition withdrawWithChangeCircuitInputs (inputs : WithdrawWithChangeProofInputs)
    : CircuitInputs :=
  [("oldCommitment", oldCommitment inputs);
   ("oldNullifier", oldNullifier inputs);
   ("newCommitment", newCommitment inputs);
   ("withdrawAmount", withdrawAmount inputs);
   ("oldAmount", oldAmount inputs);
   ("oldSecret", oldSecret inputs);
   ("newAmount", newAmount inputs);
   ("newSecret", newSecret inputs)]%string.

(** [generateWithdrawWithChangeProof(inputs)]. *)
Definition generateWithdrawWithChangeProof (inputs : WithdrawWithChangeProofInputs)
    : M ProofResult :=
  (emit (EvProve "withdrawWithChange") ;;;
   match fullProve (withdrawWithChangeCircuitInputs inputs)
                   withdrawWithChangeWasm withdrawWithChangeZkey with
   | Js.Ok r => ret r
   | Js.Err e => throw e
   end)%session.

End WithProver.

End Proofs.

(** ** [v3/client.ts]: [DunV3Client] *)

Module Client.

(** The ledger as the client reaches it: the RPCs of [connection] and the
    wallet's [sendTransaction]. An answer is a value or a thrown error.
    [getProgramAccounts] is the enumeration under the [dataSize: 81]
    filter, in the order the RPC returns it; [getAccountInfo] tells
    whether an account exists (is not [null]); [getSignaturesForAddress]
    gives the [blockTime] (possibly null) of the signatures it returns;
    [simulateTransaction] gives [simulation.value.err]. *)
Record Connection : Type := mkConnection {
  getProgramAccounts : Js.Result (list (string * list Byte.byte));
  getAccountInfo : string -> Js.Result bool;
  getSignaturesForAddress : string -> Js.Result (list (option Z));
  getLatestBlockhash : Js.Result string;
  simulateTransaction : Tx -> Js.Result (option string);
  sendTransaction : Tx -> Js.Result string;
  confirmTransaction : string -> Js.Result unit
}.

Record V3DepositParams : Type := mkDepositParams {
  dp_amount : Q;
  dp_token : string
}.

Record V3WithdrawParams : Type := mkWithdrawParams {
  wp_amount : Q;
  wp_token : string;
  wp_recipient : option string
}.

(** An element of [V3BalanceInfo.commitments]. *)
Record BalanceRecord : Type := mkBalanceRecord {
  commitment : Z;
  amount : Q;
  nonce : nat;
  isSpent : bool;
  address : string
}.

Record V3BalanceInfo : Type := mkBalanceInfo {
  totalBalance : Q;
  commitments : list BalanceRecord
}.

(** An element of [commitmentsWithTime]. *)
Record TimedCommitment : Type := mkTimed {
  tc_record : BalanceRecord;
  blockTime : Z
}.

(** [BigInt(Math.floor(amount * 1e9))], on the exact rational. The code
    multiplies in double precision: the two agree on the nine amounts of
    the vocabulary and wherever the product is exact in a double; elsewhere
    the code can be one lamport off (4.1 SOL gives 4099999999 lamports). *)
Definition toLamports (amountSOL : Q) : Z := Qfloor (amountSOL * (1000000000 # 1)).

(** [Number(lamports) / 1e9]. *)
Definition toSOL (lamports : Z) : Q := lamports # 1000000000.

(** The 32-byte big-endian rendering written out in the client:
    [for (i = 31; i >= 0; i--) { bytes[i] = Number(value & 0xFFn); value >>= 8n }]. *)
Fixpoint lowBytes (count : nat) (value : Z) : list Byte.byte :=
  match count with
  | O => []
  | S count' =>
      Utils.byteOfN (Z.to_N (Z.land value 255)) :: lowBytes count' (Z.shiftr value 8)
  end.

Definition toBytes32 (value : Z) : list Byte.byte := rev (lowBytes 32 value).

(** The comparator passed to [commitmentsWithTime.sort]. *)
Definition compareCommitments (a b : TimedCommitment) : Z :=
  if negb (Bool.eqb (isSpent (tc_record a)) (isSpent (tc_record b)))
  then (if isSpent (tc_record a) then 1 else -1)
  else blockTime b - blockTime a.

(** [Array.prototype.sort(compareFn)]. The language fixes the result for
    a consistent comparator: sorted by it, elements that compare equal in
    their original order. Insertion from the right computes that result. *)
Fixpoint insertSorted {A : Type} (compareFn : A -> A -> Z) (x : A) (l : list A) : list A :=
  match l with
  | [] => [x]
  | y :: rest =>
      if compareFn x y <=? 0 then x :: y :: rest
      else y :: insertSorted compareFn x rest
  end.

Definition arraySort {A : Type} (compareFn : A -> A -> Z) (l : list A) : list A :=
  fold_right (insertSorted compareFn) [] l.

(** The two statements after the scan loop of [getBalance]. *)
Definition sortCommitments (commitmentsWithTime : list TimedCommitment)
    : list BalanceRecord :=
  map tc_record (arraySort compareCommitments commitmentsWithTime).

Definition typeError : Js.JsError :=
  Js.mkJsError "Cannot convert undefined to a BigInt" "TypeError" Js.CodeNone.

(** Reading the commitment out of account data: bytes 8..39, folded by
    [value = (value << 8n) | BigInt(commitment[i])]; a slice shorter than
    32 bytes makes [BigInt(undefined)] throw. *)
Definition parseCommitment (data : list Byte.byte) : Js.Result Z :=
  let slice := firstn 32 (skipn 8 data) in
  if (List.length slice <? 32)%nat then Js.Err typeError
  else Js.Ok (fold_left (fun value b => Z.lor (Z.shiftl value 8) (Z.of_N (Byte.to_N b)))
                        slice 0).

(** An RPC: logged, then its answer. *)
Definition rpc {A : Type} (method : string) (answer : Js.Result A) : M A :=
  (emit (EvRpc method) ;;;
   match answer with
   | Js.Ok a => ret a
   | Js.Err e => throw e
   end)%session.

(** [wallet.sendTransaction(tx, connection)]: logged with the transaction. *)
Definition send (answer : Tx -> Js.Result string) (tx : Tx) : M string :=
  (emit (EvSend tx) ;;;
   match answer tx with
   | Js.Ok signature => ret signature
   | Js.Err e => throw e
   end)%session.

Fixpoint mapM {A B : Type} (f : A -> M B) (l : list A) : M (list B) :=
  match l with
  | [] => ret []
  | x :: rest => (y <- f x ;; ys <- mapM f rest ;; ret (y :: ys))%session
  end.

Definition maxAttempts : nat := 100.

(** The variables of the collision loop of [deposit]. *)
Record SlotState : Type := mkSlotState {
  commitmentExists : bool;
  attempts : nat;
  slotNonce : nat;
  slotSecret : Z;
  slotCommitment : Z
}.

Section WithWorld.

Variable poseidon : list Z -> Z.
Variable randomBytes : nat -> list Byte.byte.

(** [PublicKey.findProgramAddressSync([label, bytes], PROGRAM_ID)[0]]. *)
Variable findProgramAddress : string -> list Byte.byte -> string.

(** [getAssociatedTokenAddressSync(mint, owner)]. *)
Variable associatedTokenAddress : string -> string -> string.

Variable connection : Connection.
Variable wallet : Secrets.WalletAdapter.

Definition requireWallet : M string :=
  match Secrets.publicKey wallet with
  | Some pk => ret pk
  | None => throw (Js.newError "Wallet not connected")
  end.

(** [getTokenMint(token)]. *)
Definition getTokenMint (token : string) : M string :=
  if String.eqb token "SOL"
  then ret "So11111111111111111111111111111111111111112"%string
  else throw (Js.newError ("Unsupported token: " ++ token)).

Definition vaultAuthority : string := findProgramAddress "vault_authority" [].

(** [getPoolVault(tokenMint)]. *)
Definition getPoolVault (tokenMint : string) : string :=
  associatedTokenAddress tokenMint vaultAuthority.

Definition parseAccount (acc : string * list Byte.byte) : M Secrets.OnChain :=
  match parseCommitment (snd acc) with
  | Js.Ok value => ret (Secrets.mkOnChain value (fst acc))
  | Js.Err e => throw e
  end.

(** The body of [for (const owned of ownedCommitments)] in [getBalance],
    up to the [push]. *)
Definition inspectOwned (owned : Secrets.Owned) : M TimedCommitment :=
  (let nullifier :=
     Proofs.computeNullifier poseidon (Secrets.secret owned) (Secrets.commitment owned) in
   let nullifierPDA := findProgramAddress "nullifier" (toBytes32 nullifier) in
   spent <- tryCatch (rpc "getAccountInfo" (getAccountInfo connection nullifierPDA))
                     (fun _ => ret false) ;;
   let amountSOL := toSOL (Secrets.amount owned) in
   time <- tryCatch
             (signatures <- rpc "getSignaturesForAddress"
                              (getSignaturesForAddress connection (Secrets.address owned)) ;;
              ret (match signatures with
                   | Some t :: _ => t
                   | _ => 0
                   end))
             (fun _ => ret 0) ;;
   ret (mkTimed (mkBalanceRecord (Secrets.commitment owned) amountSOL
                                 (Secrets.nonce owned) spent (Secrets.address owned))
                time))%session.

(** [result.totalBalance], accumulated in scan order. *)
Definition sumUnspent (l : list TimedCommitment) : Q :=
  fold_left (fun total c => if isSpent (tc_record c) then total
                            else (total + amount (tc_record c))%Q) l (0 # 1).

(** [getBalance(token)]. *)
Definition getBalance (token : string) : M V3BalanceInfo :=
  (requireWallet ;;;
   accounts <- rpc "getProgramAccounts" (getProgramAccounts connection) ;;
   onChain <- mapM parseAccount accounts ;;
   ownedCommitments <- Secrets.scanCommitments poseidon wallet onChain
                         Secrets.COMMON_AMOUNTS 100 ;;
   commitmentsWithTime <- mapM inspectOwned ownedCommitments ;;
   ret (mkBalanceInfo (sumUnspent commitmentsWithTime)
                      (sortCommitments commitmentsWithTime)))%session.

(** [getNextNonce()]. *)
Definition getNextNonce : M nat :=
  tryCatch
    (balance <- getBalance "SOL" ;;
     match commitments balance with
     | [] => ret 0%nat
     | cs => ret (S (fold_right Nat.max 0%nat (map nonce cs)))
     end)%session
    (fun _ => ret 0%nat).

(** *** Deposit *)

Definition commitmentPDA (commitment : Z) : string :=
  findProgramAddress "commitment" (toBytes32 commitment).

(** One pass through the body of
    [while (commitmentExists && attempts < maxAttempts)]. *)
Definition slotStep (amountLamports : Z) (st : SlotState) : M SlotState :=
  (accountExists <- rpc "getAccountInfo"
                      (getAccountInfo connection (commitmentPDA (slotCommitment st))) ;;
   if accountExists
   then
     let nonce' := S (slotNonce st) in
     secret' <- Secrets.deriveSecret poseidon wallet nonce' amountLamports ;;
     ret (mkSlotState true (S (attempts st)) nonce' secret'
                      (Proofs.computeCommitment poseidon amountLamports secret'))
   else
     ret (mkSlotState false (attempts st) (slotNonce st) (slotSecret st)
                      (slotCommitment st)))%session.

(** The [while] loop, unrolled at most [fuel] times. *)
Fixpoint slotLoop (fuel : nat) (amountLamports : Z) (st : SlotState) : M SlotState :=
  match fuel with
  | O => ret st
  | S fuel' =>
      if commitmentExists st && (attempts st <? maxAttempts)%nat
      then (st' <- slotStep amountLamports st ;;
            slotLoop fuel' amountLamports st')%session
      else ret st
  end.

(** The slot selection of [deposit]: from [getNextNonce] to the check
    after the loop. The loop body runs at most [maxAttempts] times with
    the condition true, so [S maxAttempts] unrollings reach its exit. *)
Definition chooseSlot (amountLamports : Z) : M SlotState :=
  (nonce0 <- getNextNonce ;;
   secret0 <- Secrets.deriveSecret poseidon wallet nonce0 amountLamports ;;
   let commitment0 := Proofs.computeCommitment poseidon amountLamports secret0 in
   st <- slotLoop (S maxAttempts) amountLamports
           (mkSlotState true 0 nonce0 secret0 commitment0) ;;
   if (maxAttempts <=? attempts st)%nat
   then throw (Js.newError "Could not find available nonce after 100 attempts")
   else ret st)%session.

(** Simulate, send and confirm, as each builder method ends (the withdraw
    methods append the simulation logs to the error message). *)
Definition simulateAndSend (tx : Tx) : M string :=
  (rpc "getLatestBlockhash" (getLatestBlockhash connection) ;;;
   simErr <- rpc "simulateTransaction" (simulateTransaction connection tx) ;;
   match simErr with
   | Some err => throw (Js.newError ("Simulation failed: " ++ err))
   | None =>
       signature <- send (sendTransaction connection) tx ;;
       rpc "confirmTransaction" (confirmTransaction connection signature) ;;;
       ret signature
   end)%session.

(** [deposit(params)]. *)
Definition deposit (params : V3DepositParams) : M string :=
  (signer <- requireWallet ;;
   let amountLamports := toLamports (dp_amount params) in
   tokenMint <- getTokenMint (dp_token params) ;;
   st <- chooseSlot amountLamports ;;
   let userTokenAccount := associatedTokenAddress tokenMint signer in
   let poolVault := getPoolVault tokenMint in
   let commitmentBytes := toBytes32 (slotCommitment st) in
   simulateAndSend
     (TxDeposit commitmentBytes amountLamports userTokenAccount poolVault
                (findProgramAddress "commitment" commitmentBytes)))%session.

(** *** Withdraw *)

(** The recipient token account check that opens [simpleWithdraw] and
    [withdrawWithChange]. The failure text is built from the message of
    the error caught; for a thrown value without a message, which the
    embedding does not tell from an empty one, the code prints
    "undefined" in its place. *)
Definition ensureRecipientAccount (signer recipientTokenAccount actualRecipient
    tokenMint : string) : M unit :=
  (accountExists <- rpc "getAccountInfo"
                      (getAccountInfo connection recipientTokenAccount) ;;
   if accountExists then ret tt
   else
     let createTx := TxCreateAta signer recipientTokenAccount actualRecipient tokenMint in
     rpc "getLatestBlockhash" (getLatestBlockhash connection) ;;;
     tryCatch
       (createSig <- send (sendTransaction connection) createTx ;;
        rpc "confirmTransaction" (confirmTransaction connection createSig))
       (fun error =>
          throw (Js.newError ("Failed to create recipient token account: "
                              ++ Js.message error))))%session.

(** [simpleWithdraw(nullifier, withdrawAmount, tokenMint,
    recipientTokenAccount, recipientPubkey)]. *)
Definition simpleWithdraw (nullifier withdrawAmount : Z)
    (tokenMint recipientTokenAccount recipientPubkey : string) : M string :=
  (signer <- requireWallet ;;
   ensureRecipientAccount signer recipientTokenAccount recipientPubkey tokenMint ;;;
   let poolVault := getPoolVault tokenMint in
   let nullifierBytes := toBytes32 nullifier in
   simulateAndSend
     (TxWithdraw nullifierBytes withdrawAmount poolVault recipientTokenAccount
                 (findProgramAddress "nullifier" nullifierBytes)))%session.

(** [withdrawWithChange(oldCommitment, oldSecret, oldNullifier,
    withdrawAmount, changeAmount, tokenMint, recipientTokenAccount,
    recipientPubkey)]. *)
Definition withdrawWithChange (oldCommitment : BalanceRecord)
    (oldSecret oldNullifier withdrawAmount changeAmount : Z)
    (tokenMint recipientTokenAccount recipientPubkey : string) : M string :=
  (signer <- requireWallet ;;
   ensureRecipientAccount signer recipientTokenAccount recipientPubkey tokenMint ;;;
   newSecret <- Secrets.generateRandomSecret randomBytes ;;
   let newCommitment := Proofs.computeCommitment poseidon changeAmount newSecret in
   let poolVault := getPoolVault tokenMint in
   let oldNullifierBytes := toBytes32 oldNullifier in
   let newCommitmentBytes := toBytes32 newCommitment in
   simulateAndSend
     (TxWithdrawWithChange oldNullifierBytes newCommitmentBytes withdrawAmount
        poolVault recipientTokenAccount
        (findProgramAddress "nullifier" oldNullifierBytes)
        (findProgramAddress "commitment" newCommitmentBytes)))%session.

(** The predicate of [balance.commitments.find]. *)
Definition sufficient (withdrawAmountLamports : Z) (c : BalanceRecord) : bool :=
  negb (isSpent c) && (withdrawAmountLamports <=? toLamports (amount c)).

(** [withdraw(params)]. *)
Definition withdraw (params : V3WithdrawParams) : M string :=
  (signer <- requireWallet ;;
   let withdrawAmountLamports := toLamports (wp_amount params) in
   balance <- getBalance (wp_token params) ;;
   match commitments balance with
   | [] => throw (Js.newError "No commitments found. Please deposit first.")
   | _ =>
       match find (sufficient withdrawAmountLamports) (commitments balance) with
       | None =>
           (* the message goes on with the available total *)
           throw (Js.newError "Insufficient balance")
       | Some selected =>
           let commitmentAmountLamports := toLamports (amount selected) in
           let changeAmountLamports := commitmentAmountLamports - withdrawAmountLamports in
           secret <- Secrets.deriveSecret poseidon wallet (nonce selected)
                       commitmentAmountLamports ;;
           let nullifier :=
             Proofs.computeNullifier poseidon secret (commitment selected) in
           tokenMint <- getTokenMint (wp_token params) ;;
           let recipientPubkey :=
             (* an absent or empty [recipient] is falsy; a present one is
                taken to be a well-formed address *)
             match wp_recipient params with
             | Some r => if String.eqb r "" then signer else r
             | None => signer
             end in
           let recipientTokenAccount :=
             associatedTokenAddress tokenMint recipientPubkey in
           if 0 <? changeAmountLamports
           then withdrawWithChange selected secret nullifier withdrawAmountLamports
                  changeAmountLamports tokenMint recipientTokenAccount recipientPubkey
           else simpleWithdraw nullifier withdrawAmountLamports tokenMint
                  recipientTokenAccount recipientPubkey
       end
   end)%session.

End WithWorld.

End Client.

(** ** The amount vocabulary at the other entry points *)

Module Vocabulary.

(** [COMMON_AMOUNTS], in SOL ([lib/dun/v5/types], the AI tools and the
    playground all declare the same list). *)
Definition COMMON_AMOUNTS : list Q :=
  [1 # 100; 5 # 100; 1 # 10; 5 # 10; 1 # 1; 5 # 1; 10 # 1; 50 # 1; 100 # 1]%Q.

(** [COMMON_AMOUNTS.includes(amount)]. *)
Definition includes (l : list Q) (x : Q) : bool := existsb (Qeq_bool x) l.

Definition amountsText : string := "0.01, 0.05, 0.1, 0.5, 1, 5, 10, 50, 100".

End Vocabulary.

(** [lib/dun/v5/client.ts]: [DunV5Client]. *)
Module V5.

Record CreatePaymentRequestParams : Type := mkCreateParams {
  amount : Q;
  expiresIn : Z;
  metadata : option string
}.

Section WithWorld.

Variable wallet : Secrets.WalletAdapter.

(** The rest of [createPaymentRequest] after the amount check: address
    derivation, the lookup of an existing request and the transaction.
    All of the method's ledger traffic is in here. *)
Variable submitPaymentRequest : CreatePaymentRequestParams -> M (string * string).

(** [createPaymentRequest(params)]. *)
Definition createPaymentRequest (params : CreatePaymentRequestParams)
    : M (string * string) :=
  match Secrets.publicKey wallet with
  | None => throw (Js.newError "Wallet not connected")
  | Some _ =>
      if negb (Vocabulary.includes Vocabulary.COMMON_AMOUNTS (amount params))
      then throw (Js.newError
                    ("Amount must be one of: " ++ Vocabulary.amountsText ++ " SOL"))
      else submitPaymentRequest params
  end.

End WithWorld.

End V5.

(** [lib/ai/tools/dun-shielded-pool-tools.ts]: the handlers in front of the
    V3 client. *)
Module Tools.

Inductive ToolResult : Type :=
| Failure (error : string)
| RequiresClientExecution (action : string) (amount : Q) (recipient : option string).

Definition invalidAmount : string :=
  "Invalid amount. Must be one of the COMMON_AMOUNTS: " ++ Vocabulary.amountsText ++ " SOL".

(** [depositToShieldedPool.execute({ amount })]. *)
Definition depositToShieldedPool (amount : Q) : ToolResult :=
  if negb (Vocabulary.includes Vocabulary.COMMON_AMOUNTS amount)
  then Failure invalidAmount
  else RequiresClientExecution "depositToShieldedPool" amount None.

(** [withdrawFromShieldedPool.execute({ amount, recipientAddress })]. *)
Definition withdrawFromShieldedPool (amount : Q) (recipientAddress : option string)
    : ToolResult :=
  if negb (Vocabulary.includes Vocabulary.COMMON_AMOUNTS amount)
  then Failure invalidAmount
  else RequiresClientExecution "withdrawFromShieldedPool" amount recipientAddress.

End Tools.

(** ** A small concrete world for the worked examples *)

Module Demo.

(** A stand-in for Poseidon: any fixed function will do where an example
    has to be run. *)
Definition toyPoseidon (inputs : list Z) : Z :=
  fold_left (fun acc x => (acc * 1000003 + x + 1) mod 2147483647) inputs 7.

Definition signature : list Byte.byte := repeat Byte.x2a 64.

Definition wallet : Secrets.WalletAdapter :=
  Secrets.mkWallet (Some "Payer"%string) (Some (fun _ _ => Js.Ok signature)).

(** A session that already holds the wallet's signature. *)
Definition session : Session := mkSession (Some signature) false 1 0 [].

Definition masterKey : Z := Utils.beValue (firstn 31 signature).

(** The commitment the wallet derives for [amount] at slot [n]. *)
Definition candidate (amount : Z) (n : nat) : Z :=
  toyPoseidon [amount; toyPoseidon [masterKey; Z.of_nat n; amount]].

Definition pda (label : string) (bytes : list Byte.byte) : string :=
  (label ++ ":" ++ string_of_list_ascii (Utils.bufferToHex bytes))%string.

Definition ata (mint owner : string) : string :=
  ("ata:" ++ mint ++ ":" ++ owner)%string.

Definition randomBytes (draw : nat) : list Byte.byte := repeat Byte.x07 31.

(** The 81 bytes of a commitment account: discriminator, commitment,
    token mint, timestamp, spent flag. *)
Definition accountData (commitment : Z) : list Byte.byte :=
  repeat Byte.x00 8 ++ Client.toBytes32 commitment ++ repeat Byte.x00 41.

(** A ledger holding the listed commitment accounts
    (address, commitment, block time), on which every transaction
    simulates and sends. *)
Definition ledger (accounts : list (string * Z * Z)) : Client.Connection :=
  Client.mkConnection
    (Js.Ok (map (fun a => (fst (fst a), accountData (snd (fst a)))) accounts))
    (fun addr =>
       Js.Ok (existsb (fun a => String.eqb addr (pda "commitment"
                                   (Client.toBytes32 (snd (fst a))))) accounts))
    (fun addr =>
       Js.Ok (map (fun a => Some (snd a))
                  (filter (fun a => String.eqb addr (fst (fst a))) accounts)))
    (Js.Ok "blockhash"%string)
    (fun _ => Js.Ok None)
    (fun _ => Js.Ok "signature"%string)
    (fun _ => Js.Ok tt).

End Demo.

(** ** [utils.ts]: hex strings with the "0x" prefix *)

Module Hex.

(** [hex.replace('0x', '')]: the first occurrence of "0x" taken out. *)
Fixpoint replace0x (hex : list ascii) : list ascii :=
  match hex with
  | [] => []
  | c :: rest =>
      match rest with
      | d :: rest' =>
          if (Ascii.eqb c "0" && Ascii.eqb d "x")%bool then rest'
          else c :: replace0x rest
      | [] => [c]
      end
  end.

(** [hexToBuffer(hex)]. *)
Definition hexToBuffer (hex : list ascii) : list Byte.byte :=
  Utils.bufferFromHex (replace0x hex).

(** [bufferToHex(buffer)]. *)
Definition bufferToHex (buffer : list Byte.byte) : list ascii :=
  "0"%char :: "x"%char :: Utils.bufferToHex buffer.

End Hex.

(** ** [SignatureSecrets], the signature-based secrets of the SDK *)

Module SignatureSecrets.

Section WithHash.

(** [poseidon(inputs)] rendered by [poseidon.F.toString]. This class
    passes its inputs as decimal strings ([x.toString()]), which Poseidon
    reads as the integers they denote. *)
Variable poseidon : list Z -> Z.

(** [derivePrivateKey(signature)]. *)
Definition derivePrivateKey (signature : list Byte.byte) : Js.Result Z :=
  match Utils.bufferToBigInt (firstn 31 signature) with
  | Some privateKey => Js.Ok privateKey
  | None => Js.Err Secrets.syntaxError
  end.

(** [deriveBlindingFactor(signature, depositIndex, amount)], for a
    deposit index that is a natural number. *)
Definition deriveBlindingFactor (signature : list Byte.byte) (depositIndex : nat)
    (amount : Z) : Js.Result Z :=
  match Utils.bufferToBigInt (firstn 31 signature) with
  | Some signatureBigInt =>
      Js.Ok (poseidon [signatureBigInt; Z.of_nat depositIndex; amount])
  | None => Js.Err Secrets.syntaxError
  end.

(** [computeCommitment(amount, blindingFactor)]. *)
Definition computeCommitment (amount blindingFactor : Z) : Z :=
  poseidon [amount; blindingFactor].

(** [computeNullifier(privateKey, amount, blindingFactor)]. *)
Definition computeNullifier (privateKey amount blindingFactor : Z) : Z :=
  poseidon [privateKey; amount; blindingFactor].

End WithHash.

End SignatureSecrets.

(** ** [lib/dun/v5/client.ts]: payment requests and privacy transfers *)

Module Payments.

Definition MAX_NONCE_ATTEMPTS : nat := 1000.

(** The variables of the nonce loop of [privacyTransfer]; [secret] and
    [commitment] are unassigned until the first pass. *)
Record NonceState : Type := mkNonceState {
  commitmentExists : bool;
  nonce : nat;
  secret : option Z;
  commitment : option Z
}.

Section WithWorld.

Variable poseidon : list Z -> Z.
Variable findProgramAddress : string -> list Byte.byte -> string.
Variable connection : Client.Connection.
Variable wallet : Secrets.WalletAdapter.

(** One pass through the body of
    [while (commitmentExists && nonce < MAX_NONCE_ATTEMPTS)]. *)
Definition nonceStep (amountLamports : Z) (st : NonceState) : M NonceState :=
  (secret' <- Secrets.deriveSecret poseidon wallet (nonce st) amountLamports ;;
   let commitment' := Proofs.computeCommitment poseidon amountLamports secret' in
   let commitmentAccount :=
     findProgramAddress "commitment" (Client.toBytes32 commitment') in
   existingAccount <- Client.rpc "getAccountInfo"
                        (Client.getAccountInfo connection commitmentAccount) ;;
   if existingAccount
   then ret (mkNonceState true (S (nonce st)) (Some secret') (Some commitment'))
   else ret (mkNonceState false (nonce st) (Some secret') (Some commitment')))%session.

(** The [while] loop, unrolled at most [fuel] times. *)
Fixpoint nonceLoop (fuel : nat) (amountLamports : Z) (st : NonceState) : M NonceState :=
  match fuel with
  | O => ret st
  | S fuel' =>
      if commitmentExists st && (nonce st <? MAX_NONCE_ATTEMPTS)%nat
      then (st' <- nonceStep amountLamports st ;;
            nonceLoop fuel' amountLamports st')%session
      else ret st
  end.

(** The nonce selection of [privacyTransfer]: the loop and the check after
    it. The body runs at most [MAX_NONCE_ATTEMPTS] times with the
    condition true, so one unrolling more reaches the exit. *)
Definition chooseNonce (amountLamports : Z) : M NonceState :=
  (st <- nonceLoop (S MAX_NONCE_ATTEMPTS) amountLamports
           (mkNonceState true 0 None None) ;;
   if commitmentExists st
   then throw (Js.newError
                 "Could not find unused commitment nonce. Please try again later.")
   else ret st)%session.

End WithWorld.

(** The [metadataHash] argument of [createPaymentRequest], for metadata
    given by its UTF-8 bytes: [null] without metadata (absent or empty),
    else the first 32 bytes, zero-padded to 32. *)
Definition metadataHash (metadata : option (list Byte.byte)) : option (list Byte.byte) :=
  match metadata with
  | None | Some [] => None
  | Some bytes =>
      let buf := firstn 32 bytes in
      Some (buf ++ repeat Byte.x00 (32 - List.length buf))
  end.

End Payments.

(** ** The withdraw-with-change circuit *)

Module Circuits.

(** The value of the input signal [name]. *)
Fixpoint signal (name : string) (inputs : Proofs.CircuitInputs) : option Z :=
  match inputs with
  | [] => None
  | (n, v) :: rest => if String.eqb n name then Some v else signal name rest
  end.

(** Modelled from the spec: what the withdraw-with-change circuit asserts
    of its eight signals, "oldAmount = withdrawAmount + newAmount
    (conservation of value) and correct derivation of both old nullifier
    and new commitment"; the derivations are those of [computeNullifier]
    and [computeCommitment]. The circuit's source is not among the files
    of the SDK. *)
Definition withdrawWithChangeConstraints (poseidon : list Z -> Z)
    (oldCommitment oldNullifier newCommitment withdrawAmount oldAmount oldSecret
     newAmount newSecret : Z) : bool :=
  (oldAmount =? withdrawAmount + newAmount) &&
  (oldNullifier =? Proofs.computeNullifier poseidon oldSecret oldCommitment) &&
  (newCommitment =? Proofs.computeCommitment poseidon newAmount newSecret).

(** Modelled from the spec: the withdraw-with-change circuit on the named
    inputs handed to the prover (the SDK only names the circuit's compiled
    form, [withdraw_with_change.wasm], and its key). Inputs that lack a
    signal satisfy nothing. *)
Definition withdrawWithChange (poseidon : list Z -> Z)
    (inputs : Proofs.CircuitInputs) : bool :=
  match signal "oldCommitment" inputs, signal "oldNullifier" inputs,
        signal "newCommitment" inputs, signal "withdrawAmount" inputs with
  | Some oldCommitment, Some oldNullifier, Some newCommitment, Some withdrawAmount =>
      match signal "oldAmount" inputs, signal "oldSecret" inputs,
            signal "newAmount" inputs, signal "newSecret" inputs with
      | Some oldAmount, Some oldSecret, Some newAmount, Some newSecret =>
          withdrawWithChangeConstraints poseidon oldCommitment oldNullifier
            newCommitment withdrawAmount oldAmount oldSecret newAmount newSecret
      | _, _, _, _ => false
      end
  | _, _, _, _ => false
  end.

End Circuits.

(* ================================================================== *)
(** * Part II. Vocabulary of the properties                             *)
(* ================================================================== *)

(** ** Digits and values *)

Definition digitStep (a d : N) : N := (16 * a + d)%N.

Definition byteStep (a : N) (b : Byte.byte) : N := (256 * a + Byte.to_N b)%N.

(** The value of a digit string read most significant digit first, on top
    of [acc]. *)
Definition digitsValue (ds : list N) (acc : N) : N := fold_left digitStep ds acc.

Definition isDigit (d : N) : Prop := (d < 16)%N.

(** The digit list behind [toString16] of a non-negative bigint. *)
Definition digitsOf (n : N) : list N :=
  if (n =? 0)%N then [0%N] else Utils.hexDigits n.

(** ** Sessions *)

Definition rejected : Js.Result (list Byte.byte) :=
  Js.Err (Js.newError Secrets.rejectionMessage).

(** Successive signature requests in one session, each with the wallet
    object its caller passes. *)
Fixpoint requestAll (wallets : list Secrets.WalletAdapter) (s : Session)
    : list (Js.Result (list Byte.byte)) * Session :=
  match wallets with
  | [] => ([], s)
  | w :: rest =>
      let (r, s') := Secrets.getWalletSignature w s in
      let (rs, s'') := requestAll rest s' in
      (r :: rs, s'')
  end.

(** [Emits P c]: running [c] only prepends events to the log, and each of
    them satisfies [P]. *)
Definition Emits {A : Type} (P : Event -> Prop) (c : M A) : Prop :=
  forall s, exists d, trace (snd (c s)) = d ++ trace s /\ Forall P d.

Definition anyEvent (e : Event) : Prop := True.

Definition notProve (e : Event) : Prop :=
  match e with
  | EvProve _ => False
  | _ => True
  end.

(** [Settled sig c]: in every session that caches [sig], [c] returns the
    same result and leaves [sig] cached. *)
Definition Settled {A : Type} (sig : list Byte.byte) (c : M A) : Prop :=
  forall s s',
    cachedSignature s = Some sig -> cachedSignature s' = Some sig ->
    fst (c s) = fst (c s') /\ cachedSignature (snd (c s)) = Some sig.

(** ** Balance views *)

(** [x] is not sorted after [y] by [compareFn]. *)
Definition notAfter {A : Type} (compareFn : A -> A -> Z) (x y : A) : Prop :=
  compareFn x y <= 0.

(** [a] may stand before [b] in a balance view: unspent before spent, and,
    within a group, the later block time first. *)
Definition precedes (a b : Client.TimedCommitment) : Prop :=
  (Client.isSpent (Client.tc_record a) = false /\
   Client.isSpent (Client.tc_record b) = true) \/
  (Client.isSpent (Client.tc_record a) = Client.isSpent (Client.tc_record b) /\
   Client.blockTime b <= Client.blockTime a).

(** The records of one group created at one block time. *)
Definition sameKey (spent : bool) (time : Z) (c : Client.TimedCommitment) : bool :=
  Bool.eqb (Client.isSpent (Client.tc_record c)) spent && (Client.blockTime c =? time).

Definition viewAddresses (r : Js.Result Client.V3BalanceInfo) : list string :=
  match r with
  | Js.Ok view => map Client.address (Client.commitments view)
  | Js.Err _ => []
  end.

(** ** Deposit slots *)

(** Whether the ledger holds an account for commitment [c]. *)
Definition lookup (findProgramAddress : string -> list Byte.byte -> string)
    (connection : Client.Connection) (c : Z) : Js.Result bool :=
  Client.getAccountInfo connection (Client.commitmentPDA findProgramAddress c).

(** The condition of the collision loop. *)
Definition running (st : Client.SlotState) : bool :=
  Client.commitmentExists st && (Client.attempts st <? Client.maxAttempts)%nat.

(** A state that claims a free slot has seen the ledger say so. *)
Definition checkedFree (findProgramAddress : string -> list Byte.byte -> string)
    (connection : Client.Connection) (st : Client.SlotState) : Prop :=
  Client.commitmentExists st = false ->
  lookup findProgramAddress connection (Client.slotCommitment st) = Js.Ok false.

(** The secret, the commitment and the loop state of slot [n] for a
    deposit of [amt] under the signature [sig]. *)
Definition secretAt (poseidon : list Z -> Z) (amt : Z) (sig : list Byte.byte) (n : nat) : Z :=
  poseidon [Utils.beValue (firstn 31 sig); Z.of_nat n; amt].

Definition candidateAt (poseidon : list Z -> Z) (amt : Z) (sig : list Byte.byte)
    (n : nat) : Z :=
  Proofs.computeCommitment poseidon amt (secretAt poseidon amt sig n).

Definition slotAt (poseidon : list Z -> Z) (amt : Z) (sig : list Byte.byte)
    (found : bool) (attempts n : nat) : Client.SlotState :=
  Client.mkSlotState found attempts n (secretAt poseidon amt sig n)
                     (candidateAt poseidon amt sig n).

Definition slotExhausted : Js.JsError :=
  Js.newError "Could not find available nonce after 100 attempts".

(** ** Withdrawals and amounts *)

(** The transaction [withdrawWithChange] builds for a change secret. *)
Definition changeTx (poseidon : list Z -> Z)
    (findProgramAddress : string -> list Byte.byte -> string)
    (associatedTokenAddress : string -> string -> string)
    (oldNullifier withdrawAmount changeAmount newSecret : Z)
    (tokenMint recipientTokenAccount : string) : Tx :=
  let oldNullifierBytes := Client.toBytes32 oldNullifier in
  let newCommitmentBytes :=
    Client.toBytes32 (Proofs.computeCommitment poseidon changeAmount newSecret) in
  TxWithdrawWithChange oldNullifierBytes newCommitmentBytes withdrawAmount
    (Client.getPoolVault findProgramAddress associatedTokenAddress tokenMint)
    recipientTokenAccount
    (findProgramAddress "nullifier"%string oldNullifierBytes)
    (findProgramAddress "commitment"%string newCommitmentBytes).

Definition amountRejected : Js.JsError :=
  Js.newError "Amount must be one of: 0.01, 0.05, 0.1, 0.5, 1, 5, 10, 50, 100 SOL".

(** ** Inputs of the worked examples *)

(** The error a wallet throws when its user declines to sign. *)
Definition userRejection : Js.JsError :=
  Js.mkJsError "User rejected the request." "WalletSignMessageError" (Js.CodeNum 4001).

(** A wallet whose user declines to sign. *)
Definition rejectingWallet : Secrets.WalletAdapter :=
  Secrets.mkWallet (Some "Payer"%string) (Some (fun _ _ => Js.Err userRejection)).

(** The session after that wallet's first answer. *)
Definition afterRejection : Session :=
  snd (Secrets.getWalletSignature rejectingWallet freshSession).

(** A ledger on which slots 0 and 1 of a 0.01 SOL deposit are taken but
    whose account enumeration fails, so that the scan finds nothing. *)
Definition blindLedger : Client.Connection :=
  let full := Demo.ledger [("A"%string, Demo.candidate 10000000 0, 5);
                           ("B"%string, Demo.candidate 10000000 1, 6)] in
  Client.mkConnection
    (Js.Err (Js.newError "429 Too Many Requests"))
    (Client.getAccountInfo full)
    (Client.getSignaturesForAddress full)
    (Client.getLatestBlockhash full)
    (Client.simulateTransaction full)
    (Client.sendTransaction full)
    (Client.confirmTransaction full).

Definition tiedB : Client.BalanceRecord := Client.mkBalanceRecord 11 (1 # 100) 0 false "B".
Definition tiedA : Client.BalanceRecord := Client.mkBalanceRecord 22 (1 # 100) 1 false "A".

(** Two owned commitments created at the same block time, enumerated with
    address "B" first. *)
Definition tiedLedger : Client.Connection :=
  Demo.ledger [("B"%string, Demo.candidate 10000000 0, 5);
               ("A"%string, Demo.candidate 50000000 3, 5)].

(** [fullProve] is a prover of [circuit] under the given parameter files:
    it answers with a proof only on inputs that satisfy the circuit (on
    other inputs the witness computation fails and it throws). *)
Definition proves (circuit : Proofs.CircuitInputs -> bool) (wasm zkey : string)
    (fullProve : Proofs.CircuitInputs -> string -> string -> Js.Result Proofs.ProofResult)
    : Prop :=
  forall inputs result, fullProve inputs wasm zkey = Js.Ok result -> circuit inputs = true.

(** A prover of the withdraw-with-change circuit. *)
Definition checkingProver (poseidon : list Z -> Z) (inputs : Proofs.CircuitInputs)
    (wasm zkey : string) : Js.Result Proofs.ProofResult :=
  if Circuits.withdrawWithChange poseidon inputs
  then Js.Ok (Proofs.mkProofResult [] [])
  else Js.Err (Js.newError "Assert Failed").

(** Inputs that keep conservation: 30 withdrawn and 70 kept out of 100. *)
Definition balancedInputs : Proofs.WithdrawWithChangeProofInputs :=
  Proofs.mkWwcInputs 1 (Demo.toyPoseidon [5; 1]) (Demo.toyPoseidon [70; 7])
                     30 100 5 70 7.

(** A ledger holding one owned commitment of 0.05 SOL, and a withdrawal of
    0.03 SOL from it. *)
Definition demoLedger : Client.Connection :=
  Demo.ledger [("A"%string, Demo.candidate 50000000 0, 5)].

Definition demoWithdrawal : Client.V3WithdrawParams :=
  Client.mkWithdrawParams (3 # 100) "SOL" None.

(** The record of that commitment in the balance view. *)
Definition demoRecord : Client.BalanceRecord :=
  Client.mkBalanceRecord (Demo.candidate 50000000 0) (50000000 # 1000000000) 0 false "A".

(** ** Byte sequences *)

(** The value of a byte sequence read least significant byte first. *)
Definition leValueN (bs : list Byte.byte) : N :=
  fold_right (fun b acc => (Byte.to_N b + 256 * acc)%N) 0%N bs.

(** The step of the decoding loop of [getBalance]. *)
Definition shiftOr (value : Z) (b : Byte.byte) : Z :=
  Z.lor (Z.shiftl value 8) (Z.of_N (Byte.to_N b)).

(** ** Scans *)

(** What makes a record of a scan result the caller's: it names an element
    of the scanned list, its amount and slot were among the candidates, and
    the wallet's secret for that slot and amount, as derived in some
    session satisfying [inv], opens the commitment. *)
Definition ownedIn (inv : Session -> Prop) (poseidon : list Z -> Z)
    (w : Secrets.WalletAdapter)
    (commitments : list Secrets.OnChain) (possibleAmounts : list Z) (maxNonce : nat)
    (o : Secrets.Owned) : Prop :=
  In (Secrets.mkOnChain (Secrets.commitment o) (Secrets.address o)) commitments /\
  In (Secrets.amount o) possibleAmounts /\
  (Secrets.nonce o < maxNonce)%nat /\
  poseidon [Secrets.amount o; Secrets.secret o] = Secrets.commitment o /\
  exists s, inv s /\
            fst (Secrets.deriveSecret poseidon w (Secrets.nonce o) (Secrets.amount o) s)
            = Js.Ok (Secrets.secret o).

Definition anySession (s : Session) : Prop := True.

(** A record of a scan result that is the session's: it names an element
    of the scanned list, its amount and slot were among the candidates, and
    its secret and commitment are those that the signature held by the
    session, [cached], gives for that slot and amount. *)
Definition ownedUnder (poseidon : list Z -> Z) (cached : option (list Byte.byte))
    (commitments : list Secrets.OnChain) (possibleAmounts : list Z) (maxNonce : nat)
    (o : Secrets.Owned) : Prop :=
  In (Secrets.mkOnChain (Secrets.commitment o) (Secrets.address o)) commitments /\
  In (Secrets.amount o) possibleAmounts /\
  (Secrets.nonce o < maxNonce)%nat /\
  exists sig,
    cached = Some sig /\
    Secrets.secret o = secretAt poseidon (Secrets.amount o) sig (Secrets.nonce o) /\
    Secrets.commitment o = candidateAt poseidon (Secrets.amount o) sig (Secrets.nonce o).

(** A session that caches [sig]. *)
Definition caches (sig : list Byte.byte) (s : Session) : Prop :=
  cachedSignature s = Some sig.

(** A wallet that answers every prompt with an error the manager does not
    take for a refusal. *)
Definition failing (w : Secrets.WalletAdapter) : Prop :=
  exists pk sign,
    Secrets.publicKey w = Some pk /\ Secrets.signMessage w = Some sign /\
    forall msg n, exists e, sign msg n = Js.Err e /\ Secrets.isRejection e = false.

Definition deviceLocked : Js.JsError :=
  Js.mkJsError "Ledger device is locked" "WalletSignMessageError" Js.CodeNone.

Definition lockedWallet : Secrets.WalletAdapter :=
  Secrets.mkWallet (Some "Payer"%string) (Some (fun _ _ => Js.Err deviceLocked)).

(** A record of the scan for the wallet's own deposit of [amt] found at a
    slot not after [n]. *)
Definition recordFor (poseidon : list Z -> Z) (sig : list Byte.byte)
    (c : Secrets.OnChain) (amt : Z) (n : nat) (o : Secrets.Owned) : Prop :=
  Secrets.commitment o = Secrets.oc_commitment c /\
  Secrets.address o = Secrets.oc_address c /\
  Secrets.amount o = amt /\
  (Secrets.nonce o <= n)%nat /\
  Secrets.secret o = secretAt poseidon amt sig (Secrets.nonce o).

(** ** Ledger enumerations *)

(** An enumerated account whose data is long enough to hold a commitment. *)
Definition holdsCommitment (acc : string * list Byte.byte) : Prop :=
  (40 <= List.length (snd acc))%nat.

(** The commitment and address [getBalance] reads out of such an account. *)
Definition onChainOf (acc : string * list Byte.byte) : Secrets.OnChain :=
  Secrets.mkOnChain (Utils.beValue (firstn 32 (skipn 8 (snd acc)))) (fst acc).

Definition emptyBalance : Client.V3BalanceInfo := Client.mkBalanceInfo (0 # 1) [].

(** A record of a balance view that stands for an owned commitment of the
    enumeration [accounts]. *)
Definition listedIn (inv : Session -> Prop) (poseidon : list Z -> Z)
    (wallet : Secrets.WalletAdapter)
    (accounts : list (string * list Byte.byte)) (r : Client.BalanceRecord) : Prop :=
  exists o : Secrets.Owned,
    ownedIn inv poseidon wallet (map onChainOf accounts) Secrets.COMMON_AMOUNTS 100 o /\
    Client.commitment r = Secrets.commitment o /\
    Client.amount r = Client.toSOL (Secrets.amount o) /\
    Client.nonce r = Secrets.nonce o /\
    Client.address r = Secrets.address o.

(** A record of a balance view that stands for an account of the
    enumeration [accounts]: it carries the account's address and
    commitment, one of the nine amounts and a slot below 100, and the
    commitment is the one that the signature held by the session,
    [cached], gives for that amount and slot. *)
Definition listedUnder (poseidon : list Z -> Z) (cached : option (list Byte.byte))
    (accounts : list (string * list Byte.byte)) (r : Client.BalanceRecord) : Prop :=
  (exists acc, In acc accounts /\
               Client.address r = fst acc /\
               Client.commitment r = Secrets.oc_commitment (onChainOf acc)) /\
  (Client.nonce r < 100)%nat /\
  exists amt sig,
    In amt Secrets.COMMON_AMOUNTS /\
    Client.amount r = Client.toSOL amt /\
    cached = Some sig /\
    Client.commitment r = candidateAt poseidon amt sig (Client.nonce r).

(** [c] is one of the commitments the signature [sig] gives for the nine
    amounts and the slots 0 to 99. *)
Definition inScanRange (poseidon : list Z -> Z) (sig : list Byte.byte) (c : Z) : Prop :=
  exists amt n, In amt Secrets.COMMON_AMOUNTS /\ (n < 100)%nat /\
                candidateAt poseidon amt sig n = c.

(** The same, computed. *)
Definition inScanRangeb (poseidon : list Z -> Z) (sig : list Byte.byte) (c : Z) : bool :=
  existsb (fun amt => existsb (fun n => candidateAt poseidon amt sig n =? c) (seq 0 100))
          Secrets.COMMON_AMOUNTS.

(** A ledger holding the wallet's deposit of 0.05 SOL at slot 0 and its
    deposit of 0.02 SOL at slot 1. *)
Definition oddLedger : Client.Connection :=
  Demo.ledger [("A"%string, Demo.candidate 50000000 0, 5);
               ("B"%string, Demo.candidate 20000000 1, 6)].

(** The record [getBalance] makes of an owned commitment. *)
Definition recordOf (o : Secrets.Owned) (t : Client.TimedCommitment) : Prop :=
  Client.commitment (Client.tc_record t) = Secrets.commitment o /\
  Client.amount (Client.tc_record t) = Client.toSOL (Secrets.amount o) /\
  Client.nonce (Client.tc_record t) = Secrets.nonce o /\
  Client.address (Client.tc_record t) = Secrets.address o.

(** ** Traffic of the builders *)

(** The simulation of [tx] found no error. *)
Definition passed (connection : Client.Connection) (tx : Tx) : Prop :=
  Client.simulateTransaction connection tx = Js.Ok None.

(** What [deposit] may put on the log: no prover call, and no transaction
    sent but a deposit whose simulation passed. *)
Definition depositTraffic (connection : Client.Connection) (e : Event) : Prop :=
  match e with
  | EvSend (TxDeposit _ _ _ _ _ as tx) => passed connection tx
  | EvSend _ => False
  | EvProve _ => False
  | _ => True
  end.

(** What [withdraw] may put on the log: the creation of the recipient's
    token account, sent as it is, and a withdrawal whose simulation
    passed. *)
Definition withdrawTraffic (connection : Client.Connection) (e : Event) : Prop :=
  match e with
  | EvSend (TxCreateAta _ _ _ _) => True
  | EvSend (TxDeposit _ _ _ _ _) => False
  | EvSend tx => passed connection tx
  | EvProve _ => False
  | _ => True
  end.

(** Nothing is handed to the wallet for sending. *)
Definition noSend (e : Event) : Prop :=
  match e with
  | EvSend _ => False
  | _ => True
  end.

Definition unsupportedToken (token : string) : Js.JsError :=
  Js.newError ("Unsupported token: " ++ token).

Definition walletNotConnected : Js.JsError := Js.newError "Wallet not connected".

(** A ledger like [ledger] on which every simulation reports an error. *)
Definition strictLedger : Client.Connection :=
  Client.mkConnection
    (Client.getProgramAccounts demoLedger)
    (Client.getAccountInfo demoLedger)
    (Client.getSignaturesForAddress demoLedger)
    (Client.getLatestBlockhash demoLedger)
    (fun _ => Js.Ok (Some "InstructionError"%string))
    (Client.sendTransaction demoLedger)
    (Client.confirmTransaction demoLedger).

(** The creation of the recipient's token account fails with [e]: at
    sending or at confirmation. *)
Definition creationFails (connection : Client.Connection) (createTx : Tx)
    (e : Js.JsError) : Prop :=
  Client.sendTransaction connection createTx = Js.Err e \/
  exists createSig,
    Client.sendTransaction connection createTx = Js.Ok createSig /\
    Client.confirmTransaction connection createSig = Js.Err e.

Definition creationFailed (e : Js.JsError) : Js.JsError :=
  Js.newError ("Failed to create recipient token account: " ++ Js.message e).

(** A run that stopped at the failed creation [createTx]: it reports the
    failure, has drawn no random secret and has sent nothing else. *)
Definition stoppedAtCreation (createTx : Tx) (e : Js.JsError) (s : Session)
    (run : Js.Result string * Session) : Prop :=
  fst run = Js.Err (creationFailed e) /\
  randomDraws (snd run) = randomDraws s /\
  exists d, trace (snd run) = d ++ trace s /\
            Forall (fun ev => forall tx, ev = EvSend tx -> tx = createTx) d.

(** A ledger without token accounts on which no transaction goes
    through. *)
Definition deadLedger : Client.Connection :=
  Client.mkConnection
    (Client.getProgramAccounts demoLedger)
    (fun _ => Js.Ok false)
    (Client.getSignaturesForAddress demoLedger)
    (Client.getLatestBlockhash demoLedger)
    (Client.simulateTransaction demoLedger)
    (fun _ => Js.Err (Js.newError "Transaction expired"))
    (Client.confirmTransaction demoLedger).

(** The transaction spends [nullifier] for [amount]. *)
Definition spends (nullifier amount : Z) (tx : Tx) : Prop :=
  match tx with
  | TxWithdraw nullifierBytes withdrawAmount _ _ _ =>
      nullifierBytes = Client.toBytes32 nullifier /\ withdrawAmount = amount
  | TxWithdrawWithChange oldNullifierBytes _ withdrawAmount _ _ _ _ =>
      oldNullifierBytes = Client.toBytes32 nullifier /\ withdrawAmount = amount
  | _ => False
  end.

(** ** Privacy transfers *)

Definition nonceExhausted : Js.JsError :=
  Js.newError "Could not find unused commitment nonce. Please try again later.".

(** The loop state at slot [n] for a transfer of [amt] under [sig]. *)
Definition nonceAt (poseidon : list Z -> Z) (amt : Z) (sig : list Byte.byte)
    (n : nat) : Payments.NonceState :=
  Payments.mkNonceState false n (Some (secretAt poseidon amt sig n))
                        (Some (candidateAt poseidon amt sig n)).

(* ================================================================== *)
(** * Part III. Properties                                              *)
(* ================================================================== *)

(** ** Hex strings and buffers *)

Section HexFacts.
Import Utils.
Local Open Scope N_scope.

Lemma small_cases (d : N) : d < 16 ->
  d = 0 \/ d = 1 \/ d = 2 \/ d = 3 \/ d = 4 \/ d = 5 \/ d = 6 \/ d = 7 \/
  d = 8 \/ d = 9 \/ d = 10 \/ d = 11 \/ d = 12 \/ d = 13 \/ d = 14 \/ d = 15.
Proof. lia. Qed.

Lemma hexVal_hexDigit (d : N) : isDigit d -> hexVal (hexDigit d) = Some d.
Proof.
  intros H. apply small_cases in H.
  repeat (destruct H as [H | H]; [subst d; reflexivity |]).
  subst d; reflexivity.
Qed.

Lemma to_N_byteOfN (n : N) : n < 256 -> Byte.to_N (byteOfN n) = n.
Proof.
  intros H. unfold byteOfN.
  destruct (Byte.of_N n) as [b |] eqn:E.
  - now apply Byte.to_of_N.
  - apply Byte.of_N_None_iff in E. lia.
Qed.

Lemma byte_lt_256 (b : Byte.byte) : Byte.to_N b < 256.
Proof. pose proof (Byte.to_N_bounded b). lia. Qed.

(** Induction two elements at a time, the way the hex decoder walks. *)
Lemma pair_induction (A : Type) (P : list A -> Prop) :
  P [] -> (forall a, P [a]) -> (forall a b l, P l -> P (a :: b :: l)) ->
  forall l, P l.
Proof.
  intros H0 H1 H2.
  assert (both : forall l, P l /\ forall a, P (a :: l)).
  { induction l as [| x l [IHa IHb]]; split; auto. }
  intros l. apply both.
Qed.

Lemma even_length_cons2 (A : Type) (a b : A) (l : list A) :
  Nat.even (List.length (a :: b :: l)) = Nat.even (List.length l).
Proof. reflexivity. Qed.

(** What the decoder makes of a string of digits: one byte per pair, the
    odd digit at the end dropped. *)
Lemma bufferFromHex_digits (ds : list N) :
  Forall isDigit ds ->
  List.length (bufferFromHex (map hexDigit ds)) = Nat.div2 (List.length ds) /\
  forall acc,
    fold_left byteStep (bufferFromHex (map hexDigit ds)) acc =
    digitsValue ds acc / (if Nat.even (List.length ds) then 1 else 16).
Proof.
  induction ds as [| d | a b l IH] using pair_induction; intros HF.
  - split; [reflexivity |]. intros acc. cbn. now rewrite N.div_1_r.
  - split; [reflexivity |]. intros acc. cbn.
    inversion HF as [| ? ? Hd _]; subst. unfold isDigit in Hd.
    unfold digitStep. apply N.div_unique with (r := d); lia.
  - inversion HF as [| ? ? Ha HF']; subst.
    inversion HF' as [| ? ? Hb HF'']; subst.
    destruct (IH HF'') as [IHlen IHval].
    cbn [map bufferFromHex].
    rewrite (hexVal_hexDigit a Ha), (hexVal_hexDigit b Hb).
    split.
    + cbn [List.length Nat.div2]. now rewrite IHlen.
    + intros acc. cbn [fold_left]. rewrite IHval.
      rewrite even_length_cons2. unfold digitsValue. cbn [fold_left].
      unfold byteStep at 1. unfold digitStep at 2 3.
      unfold isDigit in Ha, Hb.
      rewrite to_N_byteOfN by lia.
      replace (256 * acc + (16 * a + b)) with (16 * (16 * acc + a) + b) by lia.
      reflexivity.
Qed.

(** *** The digits of [toString(16)] *)

Lemma hexDigitsLE_isDigit (f : nat) : forall n, Forall isDigit (hexDigitsLE f n).
Proof.
  induction f as [| f IH]; intros n; cbn; [constructor |].
  destruct (n =? 0); constructor; [| apply IH].
  unfold isDigit. apply N.mod_lt. lia.
Qed.

Lemma pow2_succ (f : nat) : 2 ^ N.of_nat (S f) = 2 * 2 ^ N.of_nat f.
Proof. rewrite Nat2N.inj_succ. apply N.pow_succ_r'. Qed.

Lemma pow16_succ (k : nat) : 16 ^ N.of_nat (S k) = 16 * 16 ^ N.of_nat k.
Proof. rewrite Nat2N.inj_succ. apply N.pow_succ_r'. Qed.

Lemma pow16_pos (k : nat) : 0 < 16 ^ N.of_nat k.
Proof. apply N.neq_0_lt_0, N.pow_nonzero. lia. Qed.

Lemma div16_fuel (f : nat) (n : N) : n < 2 ^ N.of_nat (S f) -> n / 16 < 2 ^ N.of_nat f.
Proof.
  rewrite pow2_succ. intros H.
  apply N.Div0.div_lt_upper_bound. lia.
Qed.

Lemma hexDigitsLE_value (f : nat) : forall n,
  n < 2 ^ N.of_nat f ->
  fold_right (fun d a => digitStep a d) 0 (hexDigitsLE f n) = n.
Proof.
  induction f as [| f IH]; intros n Hn.
  - cbn in *. lia.
  - cbn [hexDigitsLE]. destruct (N.eqb_spec n 0) as [-> | Hz]; [reflexivity |].
    cbn [fold_right]. rewrite IH by now apply div16_fuel.
    unfold digitStep. symmetry. apply N.div_mod'.
Qed.

Lemma hexDigitsLE_length_le (f : nat) : forall n k,
  n < 16 ^ N.of_nat k -> (List.length (hexDigitsLE f n) <= k)%nat.
Proof.
  induction f as [| f IH]; intros n k Hn; cbn [hexDigitsLE]; [cbn; lia |].
  destruct (N.eqb_spec n 0) as [-> | Hz]; [cbn; lia |].
  destruct k as [| k]; [cbn in Hn; lia |].
  cbn [List.length]. apply le_n_S, IH.
  rewrite pow16_succ in Hn. apply N.Div0.div_lt_upper_bound. lia.
Qed.

Lemma hexDigitsLE_length_gt (f : nat) : forall n k,
  n < 2 ^ N.of_nat f -> 16 ^ N.of_nat k <= n ->
  (k < List.length (hexDigitsLE f n))%nat.
Proof.
  induction f as [| f IH]; intros n k Hf Hk.
  - pose proof (pow16_pos k). cbn in Hf. lia.
  - cbn [hexDigitsLE].
    destruct (N.eqb_spec n 0) as [-> | Hz]; [pose proof (pow16_pos k); lia |].
    cbn [List.length]. destruct k as [| k]; [lia |].
    apply -> Nat.succ_lt_mono. apply IH; [now apply div16_fuel |].
    rewrite pow16_succ in Hk. apply N.div_le_lower_bound; lia.
Qed.

Lemma toString16_digits (n : N) : toString16 (Z.of_N n) = map hexDigit (digitsOf n).
Proof. destruct n; reflexivity. Qed.

Lemma size_fuel (n : N) : n < 2 ^ N.of_nat (N.to_nat (N.size n)).
Proof. rewrite N2Nat.id. apply N.size_gt. Qed.

Lemma digitsOf_isDigit (n : N) : Forall isDigit (digitsOf n).
Proof.
  unfold digitsOf. destruct (n =? 0).
  - repeat constructor.
  - unfold hexDigits. apply Forall_rev, hexDigitsLE_isDigit.
Qed.

Lemma digitsOf_value (n : N) : digitsValue (digitsOf n) 0 = n.
Proof.
  unfold digitsOf. destruct (N.eqb_spec n 0) as [-> | Hz]; [reflexivity |].
  unfold hexDigits, digitsValue.
  rewrite <- fold_left_rev_right, rev_involutive.
  apply hexDigitsLE_value, size_fuel.
Qed.

Lemma digitsOf_length_le (n : N) (k : nat) :
  n < 16 ^ N.of_nat (S k) -> (List.length (digitsOf n) <= S k)%nat.
Proof.
  intros H. unfold digitsOf. destruct (n =? 0); [cbn; lia |].
  unfold hexDigits. rewrite length_rev. now apply hexDigitsLE_length_le.
Qed.

Lemma digitsOf_length_gt (n : N) (k : nat) :
  16 ^ N.of_nat k <= n -> (k < List.length (digitsOf n))%nat.
Proof.
  intros H. unfold digitsOf.
  destruct (N.eqb_spec n 0) as [-> | Hz]; [pose proof (pow16_pos k); lia |].
  unfold hexDigits. rewrite length_rev.
  apply hexDigitsLE_length_gt; [apply size_fuel | exact H].
Qed.

(** *** Padding *)

Lemma padStart_digits (t : nat) (ds : list N) :
  padStart t (map hexDigit ds) =
  map hexDigit (repeat 0 (t - List.length ds) ++ ds).
Proof.
  unfold padStart. rewrite length_map, map_app. f_equal.
  induction (t - List.length ds)%nat as [| m IH]; [reflexivity |].
  cbn. now rewrite IH.
Qed.

Lemma digitsValue_zeros (m : nat) (ds : list N) :
  digitsValue (repeat 0 m ++ ds) 0 = digitsValue ds 0.
Proof.
  unfold digitsValue. rewrite fold_left_app. f_equal.
  induction m as [| m IH]; [reflexivity | exact IH].
Qed.

Lemma zeros_isDigit (m : nat) (ds : list N) :
  Forall isDigit ds -> Forall isDigit (repeat 0 m ++ ds).
Proof.
  intros H. apply Forall_app. split; [| exact H].
  induction m; cbn; constructor; [reflexivity | assumption].
Qed.

(** [bigIntToBuffer] on a non-negative value, through its digits. *)
Lemma bigIntToBuffer_digits (n : N) (len : nat) :
  bigIntToBuffer (Z.of_N n) len =
  bufferFromHex
    (map hexDigit (repeat 0 (len * 2 - List.length (digitsOf n)) ++ digitsOf n)).
Proof.
  unfold bigIntToBuffer. now rewrite toString16_digits, padStart_digits.
Qed.

(** *** Decoding *)

Lemma parse_bufferToHex (bs : list Byte.byte) : forall a,
  fold_left parseHexAcc (bufferToHex bs) (Some a) = Some (fold_left byteStep bs a).
Proof.
  induction bs as [| b bs IH]; intros a; [reflexivity |].
  cbn [bufferToHex flat_map app fold_left].
  pose proof (byte_lt_256 b) as Hb.
  unfold parseHexAcc at 2 3.
  rewrite hexVal_hexDigit
    by (unfold isDigit; apply N.Div0.div_lt_upper_bound; lia).
  rewrite hexVal_hexDigit by (unfold isDigit; apply N.mod_lt; lia).
  change (flat_map _ bs) with (bufferToHex bs). rewrite IH.
  f_equal. f_equal. unfold byteStep.
  pose proof (N.div_mod' (Byte.to_N b) 16). lia.
Qed.

(** Decoding a non-empty buffer never throws and yields its big-endian
    value. *)
Lemma bufferToBigInt_value (bs : list Byte.byte) :
  bs <> [] -> bufferToBigInt bs = Some (beValue bs).
Proof.
  destruct bs as [| b bs]; [congruence | intros _].
  unfold bufferToBigInt, bigIntOfHex.
  rewrite parse_bufferToHex.
  reflexivity.
Qed.

(** *** Width and value of the encoder's output, by the size of the input *)

Lemma even_double (len : nat) : Nat.even (len * 2) = true.
Proof. rewrite Nat.even_mul. apply orb_true_r. Qed.

Lemma div2_double (len : nat) : Nat.div2 (len * 2) = len.
Proof. rewrite Nat.mul_comm. apply Nat.div2_double. Qed.

Lemma div2_lower (k m : nat) : (k * 2 <= m)%nat -> (k <= Nat.div2 m)%nat.
Proof.
  intros H. rewrite Nat.div2_div. apply Nat.div_le_lower_bound; lia.
Qed.

Lemma encode_in_range (n : N) (len : nat) :
  n < 16 ^ N.of_nat (len * 2) ->
  List.length (bigIntToBuffer (Z.of_N n) len) = len /\
  beValueN (bigIntToBuffer (Z.of_N n) len) = n.
Proof.
  intros Hn. destruct len as [| len].
  - cbn in Hn. assert (n = 0) as -> by lia. split; reflexivity.
  - rewrite bigIntToBuffer_digits.
    set (ds := digitsOf n).
    assert (Hlen : (List.length ds <= S len * 2)%nat).
    { replace (S len * 2)%nat with (S (S (len * 2))) in * by lia.
      now apply digitsOf_length_le. }
    set (padded := repeat 0 (S len * 2 - List.length ds) ++ ds).
    assert (Hp : List.length padded = (S len * 2)%nat).
    { unfold padded. rewrite length_app, repeat_length. lia. }
    destruct (bufferFromHex_digits padded) as [HL HV].
    { apply zeros_isDigit, digitsOf_isDigit. }
    split.
    + rewrite HL, Hp. apply div2_double.
    + unfold beValueN. change (fun acc b => 256 * acc + Byte.to_N b) with byteStep.
      rewrite HV, Hp, even_double, N.div_1_r.
      unfold padded. rewrite digitsValue_zeros. apply digitsOf_value.
Qed.

Lemma encode_one_digit_over (n : N) (len : nat) :
  16 ^ N.of_nat (len * 2) <= n -> n < 16 ^ N.of_nat (S (len * 2)) ->
  List.length (bigIntToBuffer (Z.of_N n) len) = len /\
  beValueN (bigIntToBuffer (Z.of_N n) len) = n / 16.
Proof.
  intros Hlo Hhi. rewrite bigIntToBuffer_digits.
  pose proof (digitsOf_length_gt _ _ Hlo) as H1.
  pose proof (digitsOf_length_le _ _ Hhi) as H2.
  assert (Hd : List.length (digitsOf n) = S (len * 2)) by lia.
  rewrite Hd. replace (len * 2 - S (len * 2))%nat with 0%nat by lia.
  cbn [repeat app].
  destruct (bufferFromHex_digits _ (digitsOf_isDigit n)) as [HL HV].
  split.
  + rewrite HL, Hd. rewrite Nat.mul_comm. apply Nat.div2_succ_double.
  + unfold beValueN. change (fun acc b => 256 * acc + Byte.to_N b) with byteStep.
    rewrite HV, Hd, Nat.even_succ, <- Nat.negb_even, even_double. cbn [negb].
    now rewrite digitsOf_value.
Qed.

Lemma encode_two_digits_over (n : N) (len : nat) :
  16 ^ N.of_nat (S (len * 2)) <= n ->
  (len < List.length (bigIntToBuffer (Z.of_N n) len))%nat.
Proof.
  intros Hlo. rewrite bigIntToBuffer_digits.
  pose proof (digitsOf_length_gt _ _ Hlo) as H1.
  replace (len * 2 - List.length (digitsOf n))%nat with 0%nat by lia.
  cbn [repeat app].
  destruct (bufferFromHex_digits _ (digitsOf_isDigit n)) as [HL _].
  rewrite HL.
  assert (Hm : (S len * 2 <= List.length (digitsOf n))%nat) by lia.
  apply div2_lower in Hm. lia.
Qed.

Lemma pow16_as_pow2 (k : nat) : Z.of_N (16 ^ N.of_nat k) = (2 ^ (4 * Z.of_nat k))%Z.
Proof.
  rewrite N2Z.inj_pow, nat_N_Z. change (Z.of_N 16) with (2 ^ 4)%Z.
  rewrite <- Z.pow_mul_r by lia. reflexivity.
Qed.

End HexFacts.

(** ** The fixed-width codec (claims C8 and C10) *)

Lemma to_N_range (v : Z) : 0 <= v -> v = Z.of_N (Z.to_N v).
Proof. intros H. now rewrite Z2N.id. Qed.

(** C8. For every integer v with 0 <= v < 2^256, decoding the 32-byte
    big-endian encoding of v returns v:
    bufferToBigInt(bigIntToBuffer(v, 32)) = v (the decoder does not throw). *)
Theorem bufferToBigInt_bigIntToBuffer_32 (v : Z) :
  0 <= v < 2 ^ 256 ->
  Utils.bufferToBigInt (Utils.bigIntToBuffer v 32) = Some v.
Proof.
  intros [Hlo Hhi].
  rewrite (to_N_range v Hlo) in *.
  set (n := Z.to_N v) in *.
  assert (Hn : (n < 16 ^ N.of_nat (32 * 2))%N).
  { apply N2Z.inj_lt. rewrite pow16_as_pow2. exact Hhi. }
  destruct (encode_in_range _ _ Hn) as [HL HV].
  rewrite bufferToBigInt_value.
  - unfold Utils.beValue. now rewrite HV.
  - intros E. rewrite E in HL. discriminate HL.
Qed.

Lemma bufferToBigInt_bigIntToBuffer_32_witness :
  0 <= 1000000000 < 2 ^ 256 /\
  Utils.bufferToBigInt (Utils.bigIntToBuffer 1000000000 32) = Some 1000000000.
Proof.
  assert (H : 0 <= 1000000000 < 2 ^ 256) by (split; [discriminate | reflexivity]).
  split; [exact H | exact (bufferToBigInt_bigIntToBuffer_32 _ H)].
Defined.

(** C10, as the encoder behaves. For a non-negative v below 2^(8*length)
    the buffer has exactly [length] bytes and big-endian value v. A value
    with one hex digit too many, 2^(8*length) <= v < 2^(8*length+4), still
    gives exactly [length] bytes, holding floor(v/16): the last digit is
    dropped. Only from 2^(8*length+4) on is the buffer strictly longer
    than [length]. *)
Theorem bigIntToBuffer_width (v : Z) (len : nat) :
  0 <= v ->
  (v < 2 ^ (8 * Z.of_nat len) ->
     List.length (Utils.bigIntToBuffer v len) = len /\
     Utils.beValue (Utils.bigIntToBuffer v len) = v) /\
  (2 ^ (8 * Z.of_nat len) <= v < 2 ^ (8 * Z.of_nat len + 4) ->
     List.length (Utils.bigIntToBuffer v len) = len /\
     Utils.beValue (Utils.bigIntToBuffer v len) = v / 16) /\
  (2 ^ (8 * Z.of_nat len + 4) <= v ->
     (len < List.length (Utils.bigIntToBuffer v len))%nat).
Proof.
  intros Hlo. rewrite (to_N_range v Hlo). set (n := Z.to_N v).
  replace (8 * Z.of_nat len) with (4 * Z.of_nat (len * 2)) by lia.
  replace (4 * Z.of_nat (len * 2) + 4) with (4 * Z.of_nat (S (len * 2))) by lia.
  rewrite <- !pow16_as_pow2.
  split; [| split].
  - intros H. apply N2Z.inj_lt in H.
    destruct (encode_in_range _ _ H) as [HL HV].
    split; [exact HL |]. unfold Utils.beValue. now rewrite HV.
  - intros [H1 H2]. apply N2Z.inj_le in H1. apply N2Z.inj_lt in H2.
    destruct (encode_one_digit_over _ _ H1 H2) as [HL HV].
    split; [exact HL |]. unfold Utils.beValue. rewrite HV.
    now rewrite N2Z.inj_div.
  - intros H. apply N2Z.inj_le in H. now apply encode_two_digits_over.
Qed.

Lemma bigIntToBuffer_width_witness :
  List.length (Utils.bigIntToBuffer 256 1) = 1%nat /\
  Utils.beValue (Utils.bigIntToBuffer 256 1) = 256 / 16.
Proof.
  refine (proj1 (proj2 (bigIntToBuffer_width 256 1 _)) _).
  - discriminate.
  - split; [discriminate | reflexivity].
Defined.

(** C10 as stated fails at v = 256 = 2^(8*1), length = 1: the buffer is the
    single byte 0x10, not longer than the requested width. *)
Lemma bigIntToBuffer_256_not_longer :
  2 ^ (8 * Z.of_nat 1) <= 256 /\
  Utils.bigIntToBuffer 256 1 = [Byte.x10] /\
  ~ (1 < List.length (Utils.bigIntToBuffer 256 1))%nat.
Proof.
  split; [discriminate |]. split; [reflexivity |].
  intros H. vm_compute in H. lia.
Qed.

(** ** The signature cache (claims C5 and C7) *)

Section SignatureFacts.
Import Secrets.

Lemma rejected_fails_fast (w : WalletAdapter) (s : Session) :
  cachedSignature s = None -> signatureRejected s = true ->
  getWalletSignature w s = (rejected, s).
Proof.
  intros Hc Hr. unfold getWalletSignature. now rewrite Hc, Hr.
Qed.

Lemma rejected_forever (wallets : list WalletAdapter) (s : Session) :
  cachedSignature s = None -> signatureRejected s = true ->
  requestAll wallets s = (repeat rejected (List.length wallets), s).
Proof.
  intros Hc Hr. induction wallets as [| w rest IH]; [reflexivity |].
  cbn [requestAll]. rewrite (rejected_fails_fast w s Hc Hr), IH. reflexivity.
Qed.

Lemma cached_signature (w : WalletAdapter) (s : Session) (sig : list Byte.byte) :
  cachedSignature s = Some sig -> getWalletSignature w s = (Js.Ok sig, s).
Proof. intros H. unfold getWalletSignature. now rewrite H. Qed.

Lemma cached_masterKey (w : WalletAdapter) (s : Session) (sig : list Byte.byte) :
  cachedSignature s = Some sig -> sig <> [] ->
  deriveMasterKey w s = (Js.Ok (Utils.beValue (firstn 31 sig)), s).
Proof.
  intros H Hne. unfold deriveMasterKey, bind.
  rewrite (cached_signature w s sig H). unfold bigIntOfBytes.
  rewrite bufferToBigInt_value; [reflexivity |].
  destruct sig; [congruence | discriminate].
Qed.

Variable poseidon : list Z -> Z.

Lemma cached_deriveSecret (w : WalletAdapter) (s : Session) (sig : list Byte.byte)
    (n : nat) (amt : Z) :
  cachedSignature s = Some sig -> sig <> [] ->
  deriveSecret poseidon w n amt s =
  (Js.Ok (poseidon [Utils.beValue (firstn 31 sig); Z.of_nat n; amt]),
   logEvent (EvDerive n amt) s).
Proof.
  intros H Hne. unfold deriveSecret, bind, emit.
  rewrite (cached_masterKey w (logEvent (EvDerive n amt) s) sig H Hne).
  reflexivity.
Qed.

End SignatureFacts.

(** C5. Once the wallet has rejected a signature request (the error it
    threw passes the rejection test), the request fails with the rejection
    error; every later request in the session, whatever wallet object it is
    made with, fails with that same error, leaves the session as it is and
    does not invoke [signMessage] (the prompt count stays put); after
    [clearCache] the next request does reach the wallet again. *)
Theorem rejection_fails_fast
    (w : Secrets.WalletAdapter) (s : Session) (pk : string)
    (sign : list Byte.byte -> nat -> Js.Result (list Byte.byte)) (error : Js.JsError) :
  cachedSignature s = None ->
  signatureRejected s = false ->
  Secrets.publicKey w = Some pk ->
  Secrets.signMessage w = Some sign ->
  sign Secrets.signingMessage (prompts s) = Js.Err error ->
  Secrets.isRejection error = true ->
  let s1 := snd (Secrets.getWalletSignature w s) in
  fst (Secrets.getWalletSignature w s) = rejected /\
  prompts s1 = S (prompts s) /\
  (forall later : list Secrets.WalletAdapter,
     requestAll later s1 = (repeat rejected (List.length later), s1)) /\
  prompts (snd (Secrets.getWalletSignature w (Secrets.clearCache s1))) = S (prompts s1).
Proof.
  intros Hc Hr Hpk Hsign Hans Hrej.
  assert (E : Secrets.getWalletSignature w s =
              (rejected, Secrets.setRejected (Secrets.countPrompt s))).
  { unfold Secrets.getWalletSignature. now rewrite Hc, Hr, Hpk, Hsign, Hans, Hrej. }
  rewrite E. cbn [fst snd].
  split; [reflexivity |]. split; [reflexivity |]. split.
  - intros later. apply rejected_forever; [exact Hc | reflexivity].
  - unfold Secrets.getWalletSignature. cbn [Secrets.clearCache cachedSignature signatureRejected].
    rewrite Hpk, Hsign. clear Hans E.
    destruct (sign _ _) as [sig | e]; [reflexivity |].
    destruct (Secrets.isRejection e); reflexivity.
Qed.

Lemma rejection_fails_fast_witness :
  fst (Secrets.getWalletSignature rejectingWallet freshSession) = rejected /\
  prompts afterRejection = 1%nat /\
  requestAll [rejectingWallet; Demo.wallet; rejectingWallet] afterRejection
  = ([rejected; rejected; rejected], afterRejection).
Proof.
  pose proof (rejection_fails_fast rejectingWallet freshSession "Payer"
                (fun _ _ => Js.Err userRejection) userRejection
                eq_refl eq_refl eq_refl eq_refl eq_refl eq_refl) as H.
  split; [exact (proj1 H) |]. split; [exact (proj1 (proj2 H)) |].
  exact (proj1 (proj2 (proj2 H)) [rejectingWallet; Demo.wallet; rejectingWallet]).
Defined.

(** C7. With the session signature cached, [deriveSecret(wallet, nonce,
    amount)] returns Poseidon(masterKey, nonce, amount), where masterKey is
    the big-endian integer of the first 31 bytes of the signature; a second
    call in the session, and a call in any session that caches the same
    signature, return the identical value. *)
Theorem deriveSecret_deterministic (poseidon : list Z -> Z)
    (w : Secrets.WalletAdapter) (s : Session) (sig : list Byte.byte)
    (n : nat) (amt : Z) :
  cachedSignature s = Some sig -> sig <> [] ->
  let masterKey := Utils.beValue (firstn 31 sig) in
  let first := Secrets.deriveSecret poseidon w n amt s in
  fst first = Js.Ok (poseidon [masterKey; Z.of_nat n; amt]) /\
  fst (Secrets.deriveSecret poseidon w n amt (snd first)) = fst first /\
  (forall (w' : Secrets.WalletAdapter) (s' : Session),
     cachedSignature s' = Some sig ->
     fst (Secrets.deriveSecret poseidon w' n amt s') = fst first).
Proof.
  intros Hc Hne. cbv zeta.
  rewrite (cached_deriveSecret poseidon w s sig n amt Hc Hne). cbn [fst snd].
  split; [reflexivity |]. split.
  - now rewrite (cached_deriveSecret poseidon w (logEvent (EvDerive n amt) s) sig n amt Hc Hne).
  - intros w' s' Hc'.
    now rewrite (cached_deriveSecret poseidon w' s' sig n amt Hc' Hne).
Qed.

Lemma deriveSecret_deterministic_witness :
  fst (Secrets.deriveSecret Demo.toyPoseidon Demo.wallet 3 50000000 Demo.session)
  = Js.Ok (Demo.toyPoseidon [Demo.masterKey; 3; 50000000]).
Proof.
  refine (proj1 (deriveSecret_deterministic Demo.toyPoseidon Demo.wallet Demo.session
                   Demo.signature 3 50000000 eq_refl _)).
  discriminate.
Defined.

(** ** What a computation adds to the event log *)

Section EmitsFacts.

Variable P : Event -> Prop.

Lemma Emits_ret (A : Type) (a : A) : Emits P (ret a).
Proof. intros s. exists []. split; [reflexivity | constructor]. Qed.

Lemma Emits_throw (A : Type) (e : Js.JsError) : Emits P (@throw A e).
Proof. intros s. exists []. split; [reflexivity | constructor]. Qed.

Lemma Emits_emit (e : Event) : P e -> Emits P (emit e).
Proof. intros H s. exists [e]. split; [reflexivity | now constructor]. Qed.

Lemma Emits_bind (A B : Type) (c : M A) (k : A -> M B) :
  Emits P c -> (forall a, Emits P (k a)) -> Emits P (bind c k).
Proof.
  intros Hc Hk s. unfold bind.
  destruct (Hc s) as [d1 [E1 F1]].
  destruct (c s) as [[a | e] s1]; cbn [snd] in *.
  - destruct (Hk a s1) as [d2 [E2 F2]].
    exists (d2 ++ d1). split.
    + rewrite E2, E1. apply app_assoc.
    + apply Forall_app. now split.
  - exists d1. now split.
Qed.

Lemma Emits_tryCatch (A : Type) (c : M A) (h : Js.JsError -> M A) :
  Emits P c -> (forall e, Emits P (h e)) -> Emits P (tryCatch c h).
Proof.
  intros Hc Hh s. unfold tryCatch.
  destruct (Hc s) as [d1 [E1 F1]].
  destruct (c s) as [[a | e] s1]; cbn [snd] in *.
  - exists d1. now split.
  - destruct (Hh e s1) as [d2 [E2 F2]].
    exists (d2 ++ d1). split.
    + rewrite E2, E1. apply app_assoc.
    + apply Forall_app. now split.
Qed.

Lemma Emits_result (A : Type) (r : Js.Result A) :
  Emits P (match r with Js.Ok a => ret a | Js.Err e => throw e end).
Proof. destruct r; [apply Emits_ret | apply Emits_throw]. Qed.

Lemma Emits_mapM (A B : Type) (f : A -> M B) (l : list A) :
  (forall a, Emits P (f a)) -> Emits P (Client.mapM f l).
Proof.
  intros Hf. induction l as [| x l IH]; cbn [Client.mapM]; [apply Emits_ret |].
  apply Emits_bind; [apply Hf | intros y].
  apply Emits_bind; [apply IH | intros ys]. apply Emits_ret.
Qed.

Hypothesis P_sign : P EvSignMessage.
Hypothesis P_derive : forall n a, P (EvDerive n a).
Hypothesis P_rpc : forall m, P (EvRpc m).
Hypothesis P_send : forall tx, P (EvSend tx).

Lemma Emits_rpc (A : Type) (m : string) (r : Js.Result A) : Emits P (Client.rpc m r).
Proof.
  unfold Client.rpc. apply Emits_bind; [apply Emits_emit, P_rpc | intros _].
  apply Emits_result.
Qed.

Lemma Emits_send (answer : Tx -> Js.Result string) (tx : Tx) :
  Emits P (Client.send answer tx).
Proof.
  unfold Client.send. apply Emits_bind; [apply Emits_emit, P_send | intros _].
  apply Emits_result.
Qed.

Lemma Emits_getWalletSignature (w : Secrets.WalletAdapter) :
  Emits P (Secrets.getWalletSignature w).
Proof.
  intros s. unfold Secrets.getWalletSignature.
  destruct (cachedSignature s); [exists []; split; [reflexivity | constructor] |].
  destruct (signatureRejected s); [exists []; split; [reflexivity | constructor] |].
  destruct (Secrets.publicKey w); [| exists []; split; [reflexivity | constructor]].
  destruct (Secrets.signMessage w) as [sign |];
    [| exists []; split; [reflexivity | constructor]].
  exists [EvSignMessage].
  split; [| now repeat constructor].
  destruct (sign _ _) as [sig | e]; [reflexivity |].
  destruct (Secrets.isRejection e); reflexivity.
Qed.

Lemma Emits_bigIntOfBytes (bytes : list Byte.byte) : Emits P (Secrets.bigIntOfBytes bytes).
Proof.
  unfold Secrets.bigIntOfBytes.
  destruct (Utils.bufferToBigInt bytes); [apply Emits_ret | apply Emits_throw].
Qed.

Lemma Emits_deriveMasterKey (w : Secrets.WalletAdapter) : Emits P (Secrets.deriveMasterKey w).
Proof.
  unfold Secrets.deriveMasterKey.
  apply Emits_bind; [apply Emits_getWalletSignature | intros sig].
  apply Emits_bigIntOfBytes.
Qed.

Variable poseidon : list Z -> Z.

Lemma Emits_deriveSecret (w : Secrets.WalletAdapter) (n : nat) (amt : Z) :
  Emits P (Secrets.deriveSecret poseidon w n amt).
Proof.
  unfold Secrets.deriveSecret.
  apply Emits_bind; [apply Emits_emit, P_derive | intros _].
  apply Emits_bind; [apply Emits_deriveMasterKey | intros mk]. apply Emits_ret.
Qed.

Lemma Emits_scanNonces (w : Secrets.WalletAdapter) (c : Secrets.OnChain) (amt : Z)
    (count : nat) : forall from, Emits P (Secrets.scanNonces poseidon w c amt count from).
Proof.
  induction count as [| count IH]; intros from; cbn [Secrets.scanNonces];
    [apply Emits_ret |].
  intros s.
  destruct (Emits_deriveSecret w from amt s) as [d1 [E1 F1]].
  destruct (Secrets.deriveSecret poseidon w from amt s) as [[sec | e] s1];
    cbn [snd] in E1.
  - destruct (poseidon [amt; sec] =? Secrets.oc_commitment c).
    + exists d1. now split.
    + destruct (IH (S from) s1) as [d2 [E2 F2]].
      exists (d2 ++ d1). split; [rewrite E2, E1; apply app_assoc |].
      apply Forall_app. now split.
  - destruct (IH (S from) s1) as [d2 [E2 F2]].
    exists (d2 ++ d1). split; [rewrite E2, E1; apply app_assoc |].
    apply Forall_app. now split.
Qed.

Lemma Emits_scanAmounts (w : Secrets.WalletAdapter) (c : Secrets.OnChain)
    (amounts : list Z) (maxNonce : nat) :
  Emits P (Secrets.scanAmounts poseidon w c amounts maxNonce).
Proof.
  induction amounts as [| amt rest IH]; cbn [Secrets.scanAmounts]; [apply Emits_ret |].
  apply Emits_bind; [apply Emits_scanNonces | intros found].
  apply Emits_bind; [apply IH | intros more]. apply Emits_ret.
Qed.

Lemma Emits_scanCommitments (w : Secrets.WalletAdapter) (cs : list Secrets.OnChain)
    (amounts : list Z) (maxNonce : nat) :
  Emits P (Secrets.scanCommitments poseidon w cs amounts maxNonce).
Proof.
  induction cs as [| c rest IH]; cbn [Secrets.scanCommitments]; [apply Emits_ret |].
  apply Emits_bind; [apply Emits_scanAmounts | intros found].
  apply Emits_bind; [apply IH | intros more]. apply Emits_ret.
Qed.

End EmitsFacts.

Section ClientEmits.

Variable P : Event -> Prop.
Hypothesis P_sign : P EvSignMessage.
Hypothesis P_derive : forall n a, P (EvDerive n a).
Hypothesis P_rpc : forall m, P (EvRpc m).
Hypothesis P_send : forall tx, P (EvSend tx).

Variable poseidon : list Z -> Z.
Variable randomBytes : nat -> list Byte.byte.
Variable findProgramAddress : string -> list Byte.byte -> string.
Variable associatedTokenAddress : string -> string -> string.
Variable connection : Client.Connection.
Variable wallet : Secrets.WalletAdapter.

Ltac steps :=
  repeat lazymatch goal with
    | |- Emits _ (ret _) => apply Emits_ret
    | |- Emits _ (throw _) => apply Emits_throw
    | |- Emits _ (Client.rpc _ _) => apply Emits_rpc; assumption
    | |- Emits _ (Client.send _ _) => apply Emits_send; assumption
    | |- Emits _ (Secrets.deriveSecret _ _ _ _) => apply Emits_deriveSecret; assumption
    | |- Emits _ (Secrets.scanCommitments _ _ _ _ _) =>
        apply Emits_scanCommitments; assumption
    | |- Emits _ (bind _ _) => apply Emits_bind; [| intro]
    | |- Emits _ (tryCatch _ _) => apply Emits_tryCatch; [| intro]
    end.

Lemma Emits_requireWallet : Emits P (Client.requireWallet wallet).
Proof. unfold Client.requireWallet. destruct (Secrets.publicKey wallet); steps. Qed.

Lemma Emits_getTokenMint (token : string) : Emits P (Client.getTokenMint token).
Proof. unfold Client.getTokenMint. destruct (String.eqb token "SOL"); steps. Qed.

Lemma Emits_parseAccount (acc : string * list Byte.byte) : Emits P (Client.parseAccount acc).
Proof. unfold Client.parseAccount. destruct (Client.parseCommitment (snd acc)); steps. Qed.

Lemma Emits_inspectOwned (owned : Secrets.Owned) :
  Emits P (Client.inspectOwned poseidon findProgramAddress connection owned).
Proof. unfold Client.inspectOwned. steps. Qed.

Lemma Emits_getBalance (token : string) :
  Emits P (Client.getBalance poseidon findProgramAddress connection wallet token).
Proof.
  unfold Client.getBalance. steps.
  - apply Emits_requireWallet.
  - apply Emits_mapM, Emits_parseAccount.
  - apply Emits_mapM, Emits_inspectOwned.
Qed.

Lemma Emits_getNextNonce :
  Emits P (Client.getNextNonce poseidon findProgramAddress connection wallet).
Proof.
  unfold Client.getNextNonce. steps; [apply Emits_getBalance |].
  destruct (Client.commitments _); steps.
Qed.

Lemma Emits_generateRandomSecret : Emits P (Secrets.generateRandomSecret randomBytes).
Proof.
  intros s. unfold Secrets.generateRandomSecret.
  match goal with
  | |- context [Secrets.bigIntOfBytes ?b ?s0] =>
      destruct (Emits_bigIntOfBytes P b s0) as [d [E F]]
  end.
  exists d. split; [exact E | exact F].
Qed.

Lemma Emits_simulateAndSend (tx : Tx) : Emits P (Client.simulateAndSend connection tx).
Proof.
  unfold Client.simulateAndSend. steps.
  match goal with |- Emits P (match ?x with _ => _ end) => destruct x end; steps.
Qed.

Lemma Emits_ensureRecipientAccount (signer rta recipient mint : string) :
  Emits P (Client.ensureRecipientAccount connection signer rta recipient mint).
Proof.
  unfold Client.ensureRecipientAccount. steps.
  match goal with |- Emits P (if ?x then _ else _) => destruct x end; steps.
Qed.

Lemma Emits_simpleWithdraw (nullifier amt : Z) (mint rta recipient : string) :
  Emits P (Client.simpleWithdraw findProgramAddress associatedTokenAddress connection
             wallet nullifier amt mint rta recipient).
Proof.
  unfold Client.simpleWithdraw. steps.
  - apply Emits_requireWallet.
  - apply Emits_ensureRecipientAccount.
  - apply Emits_simulateAndSend.
Qed.

Lemma Emits_withdrawWithChange (old : Client.BalanceRecord)
    (oldSecret oldNullifier amt change : Z) (mint rta recipient : string) :
  Emits P (Client.withdrawWithChange poseidon randomBytes findProgramAddress
             associatedTokenAddress connection wallet old oldSecret oldNullifier amt
             change mint rta recipient).
Proof.
  unfold Client.withdrawWithChange. steps.
  - apply Emits_requireWallet.
  - apply Emits_ensureRecipientAccount.
  - apply Emits_generateRandomSecret.
  - apply Emits_simulateAndSend.
Qed.

Lemma Emits_withdraw (params : Client.V3WithdrawParams) :
  Emits P (Client.withdraw poseidon randomBytes findProgramAddress
             associatedTokenAddress connection wallet params).
Proof.
  unfold Client.withdraw. steps; [apply Emits_requireWallet | apply Emits_getBalance |].
  destruct (Client.commitments _); steps.
  destruct (find _ _); steps; [apply Emits_getTokenMint |].
  match goal with |- Emits P (if ?x then _ else _) => destruct x end;
    [apply Emits_withdrawWithChange | apply Emits_simpleWithdraw].
Qed.

End ClientEmits.

(** ** The scan loops (claim C1) *)

Section ScanFacts.

Variable poseidon : list Z -> Z.
Variable w : Secrets.WalletAdapter.
Variable c : Secrets.OnChain.

Lemma deriveSecret_logs (n : nat) (amt : Z) (s : Session) :
  exists d, trace (snd (Secrets.deriveSecret poseidon w n amt s)) =
            d ++ EvDerive n amt :: trace s.
Proof.
  unfold Secrets.deriveSecret, bind at 1, emit.
  match goal with
  | |- context [bind ?m ?k ?s0] =>
      assert (H : Emits anyEvent (bind m k))
  end.
  { apply Emits_bind; [apply Emits_deriveMasterKey; exact I | intros mk].
    apply Emits_ret. }
  destruct (H (logEvent (EvDerive n amt) s)) as [d [E _]].
  exists d. exact E.
Qed.

(** The inner loop swallows every error: it always returns. *)
Lemma scanNonces_returns (amt : Z) (count : nat) : forall from s,
  exists found, fst (Secrets.scanNonces poseidon w c amt count from s) = Js.Ok found.
Proof.
  induction count as [| count IH]; intros from s; cbn [Secrets.scanNonces].
  - exists []. reflexivity.
  - destruct (Secrets.deriveSecret poseidon w from amt s) as [[sec | e] s1].
    + destruct (poseidon [amt; sec] =? Secrets.oc_commitment c).
      * eexists. reflexivity.
      * apply IH.
    + apply IH.
Qed.

(** With at least one slot to try, the inner loop starts by deriving the
    secret of its first slot. *)
Lemma scanNonces_first (amt : Z) (count from : nat) (s : Session) :
  exists d, trace (snd (Secrets.scanNonces poseidon w c amt (S count) from s)) =
            d ++ EvDerive from amt :: trace s.
Proof.
  cbn [Secrets.scanNonces].
  destruct (deriveSecret_logs from amt s) as [d1 E1].
  assert (Hrest : forall s1, exists d2,
            trace (snd (Secrets.scanNonces poseidon w c amt count (S from) s1)) =
            d2 ++ trace s1).
  { intros s1.
    destruct (Emits_scanNonces anyEvent I (fun _ _ => I) poseidon w c amt count
                (S from) s1) as [d2 [E2 _]].
    now exists d2. }
  destruct (Secrets.deriveSecret poseidon w from amt s) as [[sec | e] s1];
    cbn [snd] in E1.
  - destruct (poseidon [amt; sec] =? Secrets.oc_commitment c).
    + exists d1. exact E1.
    + destruct (Hrest s1) as [d2 E2]. exists (d2 ++ d1).
      rewrite E2, E1. apply app_assoc.
  - destruct (Hrest s1) as [d2 E2]. exists (d2 ++ d1).
    rewrite E2, E1. apply app_assoc.
Qed.

Lemma bind_logs (A B : Type) (m : M A) (k : A -> M B) (e : Event) (s : Session) :
  (exists d, trace (snd (m s)) = d ++ e :: trace s) ->
  (forall a, Emits anyEvent (k a)) ->
  exists d, trace (snd (bind m k s)) = d ++ e :: trace s.
Proof.
  intros [d1 E1] Hk. unfold bind.
  destruct (m s) as [[a | err] s1]; cbn [snd] in *.
  - destruct (Hk a s1) as [d2 [E2 _]]. exists (d2 ++ d1).
    rewrite E2, E1. apply app_assoc.
  - exists d1. exact E1.
Qed.

(** Whatever the inner loop for one amount did, match and [break]
    included, the scan of the same on-chain element goes on with slot 0
    of the next amount. *)
Lemma scan_tries_next_amount (amt amt' : Z) (rest : list Z) (count : nat) (s : Session) :
  let afterInner := snd (Secrets.scanNonces poseidon w c amt (S count) 0 s) in
  exists d,
    trace (snd (Secrets.scanAmounts poseidon w c (amt :: amt' :: rest) (S count) s)) =
    d ++ EvDerive 0 amt' :: trace afterInner.
Proof.
  cbv zeta.
  change (Secrets.scanAmounts poseidon w c (amt :: amt' :: rest) (S count))
    with (bind (Secrets.scanNonces poseidon w c amt (S count) 0)
            (fun found =>
               bind (Secrets.scanAmounts poseidon w c (amt' :: rest) (S count))
                    (fun more => ret (found ++ more)))).
  unfold bind at 1.
  destruct (scanNonces_returns amt (S count) 0%nat s) as [found Hf].
  destruct (Secrets.scanNonces poseidon w c amt (S count) 0 s) as [r s1].
  cbn [fst snd] in *. subst r.
  apply bind_logs; [| intros; apply Emits_ret].
  change (Secrets.scanAmounts poseidon w c (amt' :: rest) (S count))
    with (bind (Secrets.scanNonces poseidon w c amt' (S count) 0)
            (fun found =>
               bind (Secrets.scanAmounts poseidon w c rest (S count))
                    (fun more => ret (found ++ more)))).
  apply bind_logs; [apply scanNonces_first |].
  intros found'. apply Emits_bind; [| intros; apply Emits_ret].
  apply Emits_scanAmounts; [exact I | intros; exact I].
Qed.

End ScanFacts.

(** C1, the code at a failing input. One on-chain element, the commitment
    of 0.01 SOL at slot 0, scanned with [COMMON_AMOUNTS] and 100 slots: the
    match is found by the very first derivation, yet the scan performs 800
    more for that element, starting with slot 0 of the next amount. *)
Theorem scan_goes_on_after_match :
  let element := Secrets.mkOnChain (Demo.candidate 10000000 0) "A" in
  let run := Secrets.scanCommitments Demo.toyPoseidon Demo.wallet [element]
               Secrets.COMMON_AMOUNTS 100 Demo.session in
  fst run = Js.Ok [Secrets.mkOwned (Demo.candidate 10000000 0) "A" 10000000
                     (Demo.toyPoseidon [Demo.masterKey; 0; 10000000]) 0] /\
  List.length (trace (snd run)) = 801%nat /\
  nth_error (trace (snd run)) 800 = Some (EvDerive 0 10000000) /\
  nth_error (trace (snd run)) 799 = Some (EvDerive 0 50000000) /\
  nth_error (trace (snd run)) 0 = Some (EvDerive 99 100000000000).
Proof. vm_compute. repeat split. Qed.

(** ** The order of a balance view (claim C4) *)

Section SortFacts.

Variable A : Type.
Variable compareFn : A -> A -> Z.

(** A consistent comparator. *)
Hypothesis compare_total : forall x y, 0 < compareFn x y -> compareFn y x <= 0.
Hypothesis compare_trans :
  forall x y z, compareFn x y <= 0 -> compareFn y z <= 0 -> compareFn x z <= 0.

Local Abbreviation notAfter := (notAfter compareFn).

Lemma insertSorted_perm (x : A) (l : list A) :
  Permutation (x :: l) (Client.insertSorted compareFn x l).
Proof.
  induction l as [| y rest IH]; cbn [Client.insertSorted]; [reflexivity |].
  destruct (compareFn x y <=? 0); [reflexivity |].
  rewrite perm_swap. now apply perm_skip.
Qed.

Lemma arraySort_perm (l : list A) : Permutation l (Client.arraySort compareFn l).
Proof.
  induction l as [| x rest IH]; cbn; [constructor |].
  etransitivity; [apply perm_skip, IH | apply insertSorted_perm].
Qed.

Lemma insertSorted_sorted (x : A) (l : list A) :
  StronglySorted notAfter l ->
  StronglySorted notAfter (Client.insertSorted compareFn x l).
Proof.
  induction 1 as [| y rest Hs IH Hall]; cbn [Client.insertSorted].
  - repeat constructor.
  - destruct (Z.leb_spec (compareFn x y) 0) as [Hle | Hgt].
    + constructor; [now constructor |].
      constructor; [exact Hle |].
      eapply Forall_impl; [| exact Hall].
      intros z Hz. exact (compare_trans x y z Hle Hz).
    + constructor; [exact IH |].
      apply (Permutation_Forall (insertSorted_perm x rest)).
      constructor; [exact (compare_total x y Hgt) | exact Hall].
Qed.

Lemma arraySort_sorted (l : list A) :
  StronglySorted notAfter (Client.arraySort compareFn l).
Proof.
  induction l as [| x rest IH]; cbn; [constructor |].
  now apply insertSorted_sorted.
Qed.

(** Stability, for a class of elements that tie with one another. *)
Variable inClass : A -> bool.
Hypothesis class_ties :
  forall x y, inClass x = true -> inClass y = true -> compareFn x y <= 0.

Lemma insertSorted_filter (x : A) (l : list A) :
  filter inClass (Client.insertSorted compareFn x l) = filter inClass (x :: l).
Proof.
  induction l as [| y rest IH]; cbn [Client.insertSorted]; [reflexivity |].
  destruct (Z.leb_spec (compareFn x y) 0) as [Hle | Hgt]; [reflexivity |].
  cbn [filter] in *. rewrite IH.
  destruct (inClass x) eqn:Ex; [| reflexivity].
  destruct (inClass y) eqn:Ey; [| reflexivity].
  pose proof (class_ties x y Ex Ey). lia.
Qed.

Lemma arraySort_stable (l : list A) :
  filter inClass (Client.arraySort compareFn l) = filter inClass l.
Proof.
  induction l as [| x rest IH]; [reflexivity |].
  cbn [Client.arraySort fold_right].
  rewrite insertSorted_filter. cbn [filter].
  change (fold_right (Client.insertSorted compareFn) [] rest)
    with (Client.arraySort compareFn rest).
  now rewrite IH.
Qed.

End SortFacts.

Lemma compareCommitments_precedes (a b : Client.TimedCommitment) :
  Client.compareCommitments a b <= 0 <-> precedes a b.
Proof.
  unfold Client.compareCommitments, precedes.
  destruct (Client.isSpent (Client.tc_record a)), (Client.isSpent (Client.tc_record b));
    cbn; split; intros H; try lia;
    try (destruct H as [[H1 H2] | [H1 H2]]; try discriminate; lia);
    try (right; split; [reflexivity | lia]);
    try (left; split; reflexivity).
Qed.

Lemma compareCommitments_total (a b : Client.TimedCommitment) :
  0 < Client.compareCommitments a b -> Client.compareCommitments b a <= 0.
Proof.
  unfold Client.compareCommitments.
  destruct (Client.isSpent (Client.tc_record a)), (Client.isSpent (Client.tc_record b));
    cbn; lia.
Qed.

Lemma compareCommitments_trans (a b c : Client.TimedCommitment) :
  Client.compareCommitments a b <= 0 -> Client.compareCommitments b c <= 0 ->
  Client.compareCommitments a c <= 0.
Proof.
  unfold Client.compareCommitments.
  destruct (Client.isSpent (Client.tc_record a)), (Client.isSpent (Client.tc_record b)),
    (Client.isSpent (Client.tc_record c)); cbn; lia.
Qed.

Lemma sameKey_ties (spent : bool) (time : Z) (a b : Client.TimedCommitment) :
  sameKey spent time a = true -> sameKey spent time b = true ->
  Client.compareCommitments a b <= 0.
Proof.
  unfold sameKey, Client.compareCommitments.
  intros Ha Hb.
  apply andb_prop in Ha, Hb. destruct Ha as [Ha1 Ha2], Hb as [Hb1 Hb2].
  apply Bool.eqb_prop in Ha1, Hb1. apply Z.eqb_eq in Ha2, Hb2.
  rewrite Ha1, Hb1, Bool.eqb_reflx. cbn. lia.
Qed.

(** C4, as the sort behaves. The view lists the records of the scan, all
    unspent ones before all spent ones and, within each group, by block
    time descending; records of one group with equal block time keep the
    order in which the scan produced them (no comparison of addresses is
    made). *)
Theorem sortCommitments_order (l : list Client.TimedCommitment) :
  let sorted := Client.arraySort Client.compareCommitments l in
  Client.sortCommitments l = map Client.tc_record sorted /\
  Permutation l sorted /\
  StronglySorted precedes sorted /\
  (forall spent time,
     filter (sameKey spent time) sorted = filter (sameKey spent time) l).
Proof.
  cbv zeta. split; [reflexivity |]. split; [apply arraySort_perm |]. split.
  - pose proof (arraySort_sorted _ _ compareCommitments_total
                  compareCommitments_trans l) as H.
    induction H as [| x rest Hs IH Hall]; constructor; [exact IH |].
    eapply Forall_impl; [| exact Hall].
    intros y Hy. now apply compareCommitments_precedes.
  - intros spent time. apply arraySort_stable. apply sameKey_ties.
Qed.

(** C4 as stated fails on a tie: two unspent records with the same block
    time, enumerated with address "B" before address "A", stay in that
    order, against the lexicographic order of their addresses. The same
    shows on a whole scan of a two-account ledger. *)
Lemma tie_not_broken_by_address :
  Client.sortCommitments [Client.mkTimed tiedB 5; Client.mkTimed tiedA 5] = [tiedB; tiedA] /\
  String.ltb "A" "B" = true /\
  viewAddresses
    (fst (Client.getBalance Demo.toyPoseidon Demo.pda tiedLedger Demo.wallet "SOL"
            Demo.session))
  = ["B"%string; "A"%string].
Proof. vm_compute. repeat split. Qed.

(** ** Scans under a cached signature (claim C9) *)

Section SettledFacts.

Variable sig : list Byte.byte.

Lemma Settled_ret (A : Type) (a : A) : Settled sig (ret a).
Proof. intros s s' H H'. split; [reflexivity | exact H]. Qed.

Lemma Settled_throw (A : Type) (e : Js.JsError) : Settled sig (@throw A e).
Proof. intros s s' H H'. split; [reflexivity | exact H]. Qed.

Lemma Settled_emit (e : Event) : Settled sig (emit e).
Proof. intros s s' H H'. split; [reflexivity | exact H]. Qed.

Lemma Settled_bind (A B : Type) (c : M A) (k : A -> M B) :
  Settled sig c -> (forall a, Settled sig (k a)) -> Settled sig (bind c k).
Proof.
  intros Hc Hk s s' H H'. unfold bind.
  destruct (Hc s s' H H') as [E1 C1].
  destruct (Hc s' s H' H) as [_ C1'].
  destruct (c s) as [r s1], (c s') as [r' s1']. cbn [fst snd] in *. subst r'.
  destruct r as [a | e]; [apply Hk; assumption | split; [reflexivity | exact C1]].
Qed.

Lemma Settled_tryCatch (A : Type) (c : M A) (h : Js.JsError -> M A) :
  Settled sig c -> (forall e, Settled sig (h e)) -> Settled sig (tryCatch c h).
Proof.
  intros Hc Hh s s' H H'. unfold tryCatch.
  destruct (Hc s s' H H') as [E1 C1].
  destruct (Hc s' s H' H) as [_ C1'].
  destruct (c s) as [r s1], (c s') as [r' s1']. cbn [fst snd] in *. subst r'.
  destruct r as [a | e]; [split; [reflexivity | exact C1] | apply Hh; assumption].
Qed.

Lemma Settled_rpc (A : Type) (m : string) (r : Js.Result A) : Settled sig (Client.rpc m r).
Proof.
  unfold Client.rpc. apply Settled_bind; [apply Settled_emit | intros _].
  destruct r; [apply Settled_ret | apply Settled_throw].
Qed.

Lemma Settled_mapM (A B : Type) (f : A -> M B) (l : list A) :
  (forall a, Settled sig (f a)) -> Settled sig (Client.mapM f l).
Proof.
  intros Hf. induction l as [| x l IH]; cbn [Client.mapM]; [apply Settled_ret |].
  apply Settled_bind; [apply Hf | intros y].
  apply Settled_bind; [apply IH | intros ys]. apply Settled_ret.
Qed.

Lemma Settled_getWalletSignature (w : Secrets.WalletAdapter) :
  Settled sig (Secrets.getWalletSignature w).
Proof.
  intros s s' H H'. unfold Secrets.getWalletSignature. rewrite H, H'.
  split; [reflexivity | exact H].
Qed.

Lemma Settled_deriveMasterKey (w : Secrets.WalletAdapter) :
  Settled sig (Secrets.deriveMasterKey w).
Proof.
  unfold Secrets.deriveMasterKey.
  apply Settled_bind; [apply Settled_getWalletSignature | intros signature].
  unfold Secrets.bigIntOfBytes.
  destruct (Utils.bufferToBigInt _); [apply Settled_ret | apply Settled_throw].
Qed.

Variable poseidon : list Z -> Z.

Lemma Settled_deriveSecret (w : Secrets.WalletAdapter) (n : nat) (amt : Z) :
  Settled sig (Secrets.deriveSecret poseidon w n amt).
Proof.
  unfold Secrets.deriveSecret.
  apply Settled_bind; [apply Settled_emit | intros _].
  apply Settled_bind; [apply Settled_deriveMasterKey | intros mk]. apply Settled_ret.
Qed.

Lemma Settled_scanNonces (w : Secrets.WalletAdapter) (c : Secrets.OnChain) (amt : Z)
    (count : nat) : forall from, Settled sig (Secrets.scanNonces poseidon w c amt count from).
Proof.
  induction count as [| count IH]; intros from; cbn [Secrets.scanNonces];
    [apply Settled_ret |].
  intros s s' H H'.
  destruct (Settled_deriveSecret w from amt s s' H H') as [E1 C1].
  destruct (Settled_deriveSecret w from amt s' s H' H) as [_ C1'].
  destruct (Secrets.deriveSecret poseidon w from amt s) as [r s1],
           (Secrets.deriveSecret poseidon w from amt s') as [r' s1'].
  cbn [fst snd] in *. subst r'.
  destruct r as [sec | e]; [| apply IH; assumption].
  destruct (poseidon [amt; sec] =? Secrets.oc_commitment c);
    [split; [reflexivity | exact C1] | apply IH; assumption].
Qed.

Lemma Settled_scanAmounts (w : Secrets.WalletAdapter) (c : Secrets.OnChain)
    (amounts : list Z) (maxNonce : nat) :
  Settled sig (Secrets.scanAmounts poseidon w c amounts maxNonce).
Proof.
  induction amounts as [| amt rest IH]; cbn [Secrets.scanAmounts]; [apply Settled_ret |].
  apply Settled_bind; [apply Settled_scanNonces | intros found].
  apply Settled_bind; [apply IH | intros more]. apply Settled_ret.
Qed.

Lemma Settled_scanCommitments (w : Secrets.WalletAdapter) (cs : list Secrets.OnChain)
    (amounts : list Z) (maxNonce : nat) :
  Settled sig (Secrets.scanCommitments poseidon w cs amounts maxNonce).
Proof.
  induction cs as [| c rest IH]; cbn [Secrets.scanCommitments]; [apply Settled_ret |].
  apply Settled_bind; [apply Settled_scanAmounts | intros found].
  apply Settled_bind; [apply IH | intros more]. apply Settled_ret.
Qed.

Variable findProgramAddress : string -> list Byte.byte -> string.
Variable connection : Client.Connection.
Variable wallet : Secrets.WalletAdapter.

Lemma Settled_getBalance (token : string) :
  Settled sig (Client.getBalance poseidon findProgramAddress connection wallet token).
Proof.
  unfold Client.getBalance.
  apply Settled_bind.
  { unfold Client.requireWallet.
    destruct (Secrets.publicKey wallet); [apply Settled_ret | apply Settled_throw]. }
  intros _. apply Settled_bind; [apply Settled_rpc | intros accounts].
  apply Settled_bind.
  { apply Settled_mapM. intros acc. unfold Client.parseAccount.
    destruct (Client.parseCommitment _); [apply Settled_ret | apply Settled_throw]. }
  intros onChain. apply Settled_bind; [apply Settled_scanCommitments | intros owned].
  apply Settled_bind; [| intros timed; apply Settled_ret].
  apply Settled_mapM. intros o. unfold Client.inspectOwned.
  apply Settled_bind.
  { apply Settled_tryCatch; [apply Settled_rpc | intros; apply Settled_ret]. }
  intros spent. apply Settled_bind; [| intros; apply Settled_ret].
  apply Settled_tryCatch; [| intros; apply Settled_ret].
  apply Settled_bind; [apply Settled_rpc | intros; apply Settled_ret].
Qed.

End SettledFacts.



(** ** Slot selection of a deposit (claim C6) *)

Section SlotFacts.

Variable poseidon : list Z -> Z.
Variable findProgramAddress : string -> list Byte.byte -> string.
Variable connection : Client.Connection.
Variable wallet : Secrets.WalletAdapter.
Variable amt : Z.

Local Abbreviation lookup := (lookup findProgramAddress connection).
Local Abbreviation checkedFree := (checkedFree findProgramAddress connection).
Local Abbreviation slotLoop :=
  (Client.slotLoop poseidon findProgramAddress connection wallet).
Local Abbreviation slotStep :=
  (Client.slotStep poseidon findProgramAddress connection wallet).

Lemma rpc_run (A : Type) (m : string) (r : Js.Result A) (s : Session) :
  Client.rpc m r s = (r, logEvent (EvRpc m) s).
Proof. unfold Client.rpc, bind, emit. destruct r; reflexivity. Qed.

Lemma slotStep_result (st st' : Client.SlotState) (s s' : Session) :
  slotStep amt st s = (Js.Ok st', s') ->
  checkedFree st' /\
  (Client.commitmentExists st' = true -> Client.attempts st' = S (Client.attempts st)).
Proof.
  unfold Client.slotStep, checkedFree, lookup.
  unfold bind at 1. rewrite rpc_run.
  destruct (Client.getAccountInfo connection _) as [[|] | e] eqn:E.
  - unfold bind.
    destruct (Secrets.deriveSecret poseidon wallet (S (Client.slotNonce st)) amt _)
      as [[sec | e] s1]; intros H; inversion H; subst.
    cbn [Client.commitmentExists Client.attempts]. split; congruence.
  - intros H. inversion H; subst.
    cbn [Client.commitmentExists Client.attempts Client.slotCommitment].
    split; congruence.
  - discriminate.
Qed.

Lemma slotLoop_stopped (fuel : nat) (st : Client.SlotState) (s : Session) :
  running st = false -> slotLoop fuel amt st s = (Js.Ok st, s).
Proof.
  intros H. destruct fuel as [| fuel]; [reflexivity |].
  cbn [Client.slotLoop]. fold (running st). now rewrite H.
Qed.

Lemma running_attempts (st : Client.SlotState) :
  running st = true ->
  Client.commitmentExists st = true /\ (Client.attempts st < Client.maxAttempts)%nat.
Proof.
  unfold running. intros H. apply andb_prop in H. destruct H as [H1 H2].
  apply Nat.ltb_lt in H2. now split.
Qed.

Lemma slotLoop_exit (fuel : nat) : forall st st' s s',
  slotLoop fuel amt st s = (Js.Ok st', s') ->
  checkedFree st ->
  (Client.maxAttempts - Client.attempts st < fuel)%nat ->
  checkedFree st' /\ running st' = false.
Proof.
  induction fuel as [| fuel IH]; intros st st' s s' H Hinv Hfuel; [lia |].
  destruct (running st) eqn:Hrun.
  - cbn [Client.slotLoop] in H. fold (running st) in H.
    rewrite Hrun in H. unfold bind in H.
    destruct (slotStep amt st s) as [[st1 | e] s1] eqn:Hstep; [| discriminate].
    destruct (slotStep_result st st1 s s1 Hstep) as [Hc Ht].
    destruct (running_attempts st Hrun) as [_ Hlt].
    destruct (running st1) eqn:Hrun1.
    + destruct (running_attempts st1 Hrun1) as [Hex _].
      eapply IH; [exact H | exact Hc |].
      rewrite (Ht Hex). lia.
    + rewrite (slotLoop_stopped fuel st1 s1 Hrun1) in H.
      inversion H; subst. now split.
  - rewrite (slotLoop_stopped (S fuel) st s Hrun) in H.
    inversion H; subst. now split.
Qed.

(** *** With the signature cached *)

Variable sig : list Byte.byte.
Hypothesis sig_nonempty : sig <> [].

Local Abbreviation secretAt := (secretAt poseidon amt sig).
Local Abbreviation candidateAt := (candidateAt poseidon amt sig).
Local Abbreviation slotAt := (slotAt poseidon amt sig).

Lemma slotStep_occupied (a n : nat) (s : Session) :
  cachedSignature s = Some sig ->
  lookup (candidateAt n) = Js.Ok true ->
  exists s', slotStep amt (slotAt true a n) s = (Js.Ok (slotAt true (S a) (S n)), s') /\
             cachedSignature s' = Some sig.
Proof.
  intros Hc Hocc. unfold Client.slotStep.
  unfold bind at 1. rewrite rpc_run.
  cbn [slotAt Client.slotCommitment Client.slotNonce Client.attempts].
  unfold lookup in Hocc. rewrite Hocc.
  unfold bind.
  rewrite (cached_deriveSecret poseidon wallet (logEvent (EvRpc "getAccountInfo") s)
             sig (S n) amt Hc sig_nonempty).
  eexists. split; [reflexivity | exact Hc].
Qed.

Lemma slotStep_free (a n : nat) (s : Session) :
  lookup (candidateAt n) = Js.Ok false ->
  slotStep amt (slotAt true a n) s =
  (Js.Ok (slotAt false a n), logEvent (EvRpc "getAccountInfo") s).
Proof.
  intros Hfree. unfold Client.slotStep.
  unfold bind at 1. rewrite rpc_run.
  cbn [slotAt Client.slotCommitment Client.slotNonce Client.attempts Client.slotSecret].
  unfold lookup in Hfree. rewrite Hfree. reflexivity.
Qed.

Lemma slotLoop_unroll (fuel a n : nat) (s : Session) :
  (a < Client.maxAttempts)%nat ->
  slotLoop (S fuel) amt (slotAt true a n) s =
  bind (slotStep amt (slotAt true a n)) (slotLoop fuel amt) s.
Proof.
  intros Ha. cbn [Client.slotLoop].
  cbn [slotAt Client.commitmentExists Client.attempts andb].
  apply Nat.ltb_lt in Ha. rewrite Ha. reflexivity.
Qed.

(** The loop stops at the first free slot, [k] slots after its start. *)
Lemma slotLoop_finds (k : nat) : forall fuel a n s,
  cachedSignature s = Some sig ->
  (k < fuel)%nat -> (a + k < Client.maxAttempts)%nat ->
  (forall j, (j < k)%nat -> lookup (candidateAt (n + j)) = Js.Ok true) ->
  lookup (candidateAt (n + k)) = Js.Ok false ->
  fst (slotLoop fuel amt (slotAt true a n) s) = Js.Ok (slotAt false (a + k) (n + k)).
Proof.
  induction k as [| k IH]; intros fuel a n s Hc Hfuel Ha Hocc Hfree;
    (destruct fuel as [| fuel]; [lia |]);
    rewrite slotLoop_unroll by lia; unfold bind.
  - rewrite !Nat.add_0_r in *.
    rewrite (slotStep_free a n s Hfree). cbv beta iota.
    now rewrite slotLoop_stopped.
  - assert (H0 : lookup (candidateAt n) = Js.Ok true).
    { rewrite <- (Nat.add_0_r n). apply Hocc. lia. }
    destruct (slotStep_occupied a n s Hc H0) as [s' [E Hc']].
    rewrite E. cbv beta iota.
    replace (a + S k)%nat with (S a + k)%nat by lia.
    replace (n + S k)%nat with (S n + k)%nat by lia.
    apply IH; [exact Hc' | lia | lia | | ].
    + intros j Hj. replace (S n + j)%nat with (n + S j)%nat by lia.
      apply Hocc. lia.
    + replace (S n + k)%nat with (n + S k)%nat by lia. exact Hfree.
Qed.

(** With every slot it looks at taken, the loop gives up after
    [maxAttempts] attempts, [commitmentExists] still set. *)
Lemma slotLoop_exhausts (r : nat) : forall fuel a n s,
  cachedSignature s = Some sig ->
  (r <= fuel)%nat -> (a + r = Client.maxAttempts)%nat ->
  (forall j, (j < r)%nat -> lookup (candidateAt (n + j)) = Js.Ok true) ->
  fst (slotLoop fuel amt (slotAt true a n) s) =
  Js.Ok (slotAt true Client.maxAttempts (n + r)).
Proof.
  induction r as [| r IH]; intros fuel a n s Hc Hfuel Ha Hocc.
  - rewrite !Nat.add_0_r in *. subst a.
    now rewrite slotLoop_stopped.
  - destruct fuel as [| fuel]; [lia |].
    rewrite slotLoop_unroll by lia. unfold bind.
    assert (H0 : lookup (candidateAt n) = Js.Ok true).
    { rewrite <- (Nat.add_0_r n). apply Hocc. lia. }
    destruct (slotStep_occupied a n s Hc H0) as [s' [E Hc']].
    rewrite E. cbv beta iota.
    replace (n + S r)%nat with (S n + r)%nat by lia.
    apply IH; [exact Hc' | lia | lia |].
    intros j Hj. replace (S n + j)%nat with (n + S j)%nat by lia.
    apply Hocc. lia.
Qed.

Local Abbreviation getNextNonce :=
  (Client.getNextNonce poseidon findProgramAddress connection wallet).
Local Abbreviation chooseSlot :=
  (Client.chooseSlot poseidon findProgramAddress connection wallet).

(** [getNextNonce] swallows every error: it always returns a slot. *)
Lemma getNextNonce_returns (s : Session) :
  cachedSignature s = Some sig ->
  exists n0 s0, getNextNonce s = (Js.Ok n0, s0) /\ cachedSignature s0 = Some sig.
Proof.
  intros Hc. unfold Client.getNextNonce, tryCatch.
  match goal with
  | |- context [bind ?m ?k s] =>
      assert (HS : Settled sig (bind m k))
  end.
  { apply Settled_bind; [apply Settled_getBalance | intros balance].
    destruct (Client.commitments balance); apply Settled_ret. }
  destruct (HS s s Hc Hc) as [_ Hc0].
  match goal with
  | |- context [bind ?m ?k s] => destruct (bind m k s) as [[n0 | e] s0]
  end; cbn [snd] in Hc0; eexists; eexists; (split; [reflexivity | exact Hc0]).
Qed.

Lemma chooseSlot_run (s : Session) (n0 : nat) (s0 : Session) :
  getNextNonce s = (Js.Ok n0, s0) -> cachedSignature s0 = Some sig ->
  fst (chooseSlot amt s) =
  match fst (slotLoop (S Client.maxAttempts) amt (slotAt true 0 n0)
               (logEvent (EvDerive n0 amt) s0)) with
  | Js.Ok st =>
      if (Client.maxAttempts <=? Client.attempts st)%nat
      then Js.Err slotExhausted else Js.Ok st
  | Js.Err e => Js.Err e
  end.
Proof.
  intros Hn Hc0. unfold Client.chooseSlot.
  unfold bind at 1. rewrite Hn.
  unfold bind at 1.
  rewrite (cached_deriveSecret poseidon wallet s0 sig n0 amt Hc0 sig_nonempty).
  unfold bind. fold (secretAt n0). fold (candidateAt n0).
  fold (slotAt true 0 n0).
  destruct (slotLoop _ _ _ _) as [[st | e] s2]; cbn [fst]; [| reflexivity].
  destruct (Client.maxAttempts <=? Client.attempts st)%nat; reflexivity.
Qed.

(** Whatever the session, a slot that [chooseSlot] returns was seen free
    on the ledger. *)
Lemma chooseSlot_free (s : Session) (st : Client.SlotState) :
  fst (chooseSlot amt s) = Js.Ok st -> lookup (Client.slotCommitment st) = Js.Ok false.
Proof.
  unfold Client.chooseSlot.
  unfold bind at 1.
  destruct (Client.getNextNonce _ _ _ _ s) as [[n0 | e] s0]; [| discriminate].
  unfold bind at 1.
  destruct (Secrets.deriveSecret poseidon wallet n0 amt s0) as [[sec | e] s1];
    [| discriminate].
  unfold bind.
  destruct (slotLoop _ _ _ s1) as [[st' | e] s2] eqn:Hloop; [| discriminate].
  destruct (Nat.leb_spec Client.maxAttempts (Client.attempts st')) as [Hge | Hlt];
    [discriminate |].
  cbn [fst ret]. intros H. inversion H; subst st'.
  destruct (slotLoop_exit _ _ _ _ _ Hloop) as [Hfree Hrun].
  - intros Hex. discriminate Hex.
  - cbn [Client.attempts]. unfold Client.maxAttempts. lia.
  - apply Hfree. unfold running in Hrun.
    apply andb_false_iff in Hrun. destruct Hrun as [Hex | Hlt']; [exact Hex |].
    apply Nat.ltb_ge in Hlt'. lia.
Qed.

(** C6. In a session that caches the signature, the slot selection of
  [deposit] starts at the slot [n0] that [getNextNonce] returns and
  - when the ledger holds accounts for the commitments of slots
    [n0 .. n0+k-1] and none for slot [n0+k], with [k < maxAttempts], it
    settles on slot [n0+k] with the secret and commitment derived for it;
  - when all [maxAttempts] slots from [n0] on are taken, it fails with
    "Could not find available nonce after 100 attempts";
  - a slot it returns has no account on the ledger, so its commitment
    differs from every commitment already deposited. *)
Theorem deposit_slot_selection (s : Session) :
cachedSignature s = Some sig ->
exists n0,
  fst (getNextNonce s) = Js.Ok n0 /\
  (forall k, (k < Client.maxAttempts)%nat ->
     (forall j, (j < k)%nat -> lookup (candidateAt (n0 + j)) = Js.Ok true) ->
     lookup (candidateAt (n0 + k)) = Js.Ok false ->
     fst (chooseSlot amt s) = Js.Ok (slotAt false k (n0 + k))) /\
  ((forall j, (j < Client.maxAttempts)%nat ->
      lookup (candidateAt (n0 + j)) = Js.Ok true) ->
   fst (chooseSlot amt s) = Js.Err slotExhausted) /\
  (forall st, fst (chooseSlot amt s) = Js.Ok st ->
     lookup (Client.slotCommitment st) = Js.Ok false /\
     forall deposited, lookup deposited = Js.Ok true ->
                       Client.slotCommitment st <> deposited).
Proof.
intros Hc.
destruct (getNextNonce_returns s Hc) as [n0 [s0 [Hn Hc0]]].
exists n0. split; [now rewrite Hn |]. split; [| split].
- intros k Hk Hocc Hfree.
  rewrite (chooseSlot_run s n0 s0 Hn Hc0).
  rewrite (slotLoop_finds k (S Client.maxAttempts) 0 n0
             (logEvent (EvDerive n0 amt) s0) Hc0);
    [| lia | lia | exact Hocc | exact Hfree].
  cbn [slotAt Client.attempts Nat.add].
  destruct (Nat.leb_spec Client.maxAttempts k); [lia | reflexivity].
- intros Hocc.
  rewrite (chooseSlot_run s n0 s0 Hn Hc0).
  rewrite (slotLoop_exhausts Client.maxAttempts (S Client.maxAttempts) 0 n0
             (logEvent (EvDerive n0 amt) s0) Hc0);
    [| lia | reflexivity | exact Hocc].
  cbn [slotAt Client.attempts]. now rewrite Nat.leb_refl.
- intros st Hst. pose proof (chooseSlot_free s st Hst) as Hfree.
  split; [exact Hfree |].
  intros deposited Hdep E. rewrite E in Hfree. congruence.
Qed.

End SlotFacts.

(** Worked examples of the slot selection. After a deposit of 0.01 SOL at
    slot 0, the next deposit of 0.01 SOL starts at slot 1 and finds it
    free. When the scan fails, the selection starts at slot 0 and the
    collision loop walks past the two taken slots. *)
Example second_deposit_takes_next_slot :
  fst (Client.chooseSlot Demo.toyPoseidon Demo.pda
         (Demo.ledger [("A"%string, Demo.candidate 10000000 0, 5)])
         Demo.wallet 10000000 Demo.session)
  = Js.Ok (Client.mkSlotState false 0 1 (Demo.toyPoseidon [Demo.masterKey; 1; 10000000])
             (Demo.candidate 10000000 1)).
Proof. vm_compute. reflexivity. Qed.

Example collision_loop_skips_taken_slots :
  fst (Client.chooseSlot Demo.toyPoseidon Demo.pda blindLedger Demo.wallet 10000000
         Demo.session)
  = Js.Ok (Client.mkSlotState false 2 2 (Demo.toyPoseidon [Demo.masterKey; 2; 10000000])
             (Demo.candidate 10000000 2)).
Proof. vm_compute. reflexivity. Qed.

Lemma deposit_slot_selection_witness :
  fst (Client.chooseSlot Demo.toyPoseidon Demo.pda
         (Demo.ledger [("A"%string, Demo.candidate 10000000 0, 5)])
         Demo.wallet 10000000 Demo.session)
  = Js.Ok (slotAt Demo.toyPoseidon 10000000 Demo.signature false 0 1).
Proof.
  destruct (deposit_slot_selection Demo.toyPoseidon Demo.pda
              (Demo.ledger [("A"%string, Demo.candidate 10000000 0, 5)])
              Demo.wallet 10000000 Demo.signature
              ltac:(discriminate) Demo.session eq_refl) as [n0 [Hn [Hfind _]]].
  assert (Hn1 : fst (Client.getNextNonce Demo.toyPoseidon Demo.pda
                       (Demo.ledger [("A"%string, Demo.candidate 10000000 0, 5)])
                       Demo.wallet Demo.session) = Js.Ok 1%nat)
    by (vm_compute; reflexivity).
  rewrite Hn1 in Hn. inversion Hn; subst n0.
  apply (Hfind 0%nat).
  - unfold Client.maxAttempts. lia.
  - intros j Hj. lia.
  - vm_compute. reflexivity.
Defined.

(** ** Withdraw with change (claim C3) *)

Section WithdrawFacts.

Variable poseidon : list Z -> Z.
Variable randomBytes : nat -> list Byte.byte.
Variable findProgramAddress : string -> list Byte.byte -> string.
Variable associatedTokenAddress : string -> string -> string.
Variable connection : Client.Connection.
Variable wallet : Secrets.WalletAdapter.

Local Abbreviation withdraw :=
  (Client.withdraw poseidon randomBytes findProgramAddress associatedTokenAddress
     connection wallet).
Local Abbreviation withdrawWithChange :=
  (Client.withdrawWithChange poseidon randomBytes findProgramAddress
     associatedTokenAddress connection wallet).
Local Abbreviation getBalance :=
  (Client.getBalance poseidon findProgramAddress connection wallet).
Local Abbreviation changeTx :=
  (changeTx poseidon findProgramAddress associatedTokenAddress).

Lemma send_run (answer : Tx -> Js.Result string) (tx : Tx) (s : Session) :
  Client.send answer tx s = (answer tx, logEvent (EvSend tx) s).
Proof. unfold Client.send, bind, emit. destruct (answer tx); reflexivity. Qed.

Lemma simulateAndSend_sent (tx : Tx) (s s' : Session) (txsig : string) :
  Client.simulateAndSend connection tx s = (Js.Ok txsig, s') ->
  exists tail, trace s' = EvRpc "confirmTransaction" :: EvSend tx :: tail.
Proof.
  unfold Client.simulateAndSend.
  unfold bind at 1. rewrite rpc_run.
  destruct (Client.getLatestBlockhash connection) as [bh | e]; [| discriminate].
  unfold bind at 1. rewrite rpc_run.
  destruct (Client.simulateTransaction connection tx) as [[err | ] | e];
    [discriminate | | discriminate].
  unfold bind at 1. rewrite send_run.
  destruct (Client.sendTransaction connection tx) as [sg | e]; [| discriminate].
  unfold bind at 1. rewrite rpc_run.
  destruct (Client.confirmTransaction connection sg) as [[] | e]; [| discriminate].
  intros H. inversion H; subst. eexists. reflexivity.
Qed.

Lemma withdrawWithChange_sent (old : Client.BalanceRecord)
    (oldSecret oldNullifier withdrawAmount changeAmount : Z)
    (tokenMint rta recipient : string) (s s' : Session) (txsig : string) :
  withdrawWithChange old oldSecret oldNullifier withdrawAmount changeAmount
    tokenMint rta recipient s = (Js.Ok txsig, s') ->
  exists newSecret tail,
    trace s' =
    EvRpc "confirmTransaction"
      :: EvSend (changeTx oldNullifier withdrawAmount changeAmount newSecret tokenMint rta)
      :: tail.
Proof.
  unfold Client.withdrawWithChange.
  unfold bind at 1.
  destruct (Client.requireWallet wallet s) as [[signer | e] s0]; [| discriminate].
  unfold bind at 1.
  destruct (Client.ensureRecipientAccount connection signer rta recipient tokenMint s0)
    as [[[] | e] s1]; [| discriminate].
  unfold bind at 1.
  destruct (Secrets.generateRandomSecret randomBytes s1) as [[newSecret | e] s2];
    [| discriminate].
  intros H. apply simulateAndSend_sent in H. destruct H as [tail E].
  exists newSecret, tail. exact E.
Qed.

Lemma requireWallet_run (s : Session) (signer : string) (s0 : Session) :
  Client.requireWallet wallet s = (Js.Ok signer, s0) -> s0 = s.
Proof.
  unfold Client.requireWallet.
  destruct (Secrets.publicKey wallet); intros H; inversion H; reflexivity.
Qed.

(** A successful [withdraw], traced back: the record it selected and,
    when that record holds more than the amount withdrawn, the change
    transaction it sent. *)
Lemma withdraw_traced (params : Client.V3WithdrawParams) (s s' : Session)
    (txsig : string) :
  withdraw params s = (Js.Ok txsig, s') ->
  let requested := Client.toLamports (Client.wp_amount params) in
  exists balance selected,
    fst (getBalance (Client.wp_token params) s) = Js.Ok balance /\
    find (Client.sufficient requested) (Client.commitments balance) = Some selected /\
    let oldAmount := Client.toLamports (Client.amount selected) in
    (0 < oldAmount - requested ->
     exists oldNullifier newAmount newSecret tokenMint rta tail,
       requested + newAmount = oldAmount /\
       trace s' =
       EvRpc "confirmTransaction"
         :: EvSend (changeTx oldNullifier requested newAmount newSecret tokenMint rta)
         :: tail).
Proof.
  unfold Client.withdraw. cbv zeta.
  unfold bind at 1.
  destruct (Client.requireWallet wallet s) as [[signer | e] s0] eqn:Hw; [| discriminate].
  apply requireWallet_run in Hw. subst s0.
  unfold bind at 1.
  destruct (getBalance (Client.wp_token params) s) as [[balance | e] s1];
    [| discriminate].
  destruct (Client.commitments balance) as [| c0 cs] eqn:Hcs; [discriminate |].
  rewrite <- Hcs.
  destruct (find _ (Client.commitments balance)) as [selected |] eqn:Hfind;
    [| discriminate].
  unfold bind at 1.
  destruct (Secrets.deriveSecret poseidon wallet (Client.nonce selected) _ s1)
    as [[secret | e] s2]; [| discriminate].
  unfold bind at 1.
  destruct (Client.getTokenMint (Client.wp_token params) s2) as [[tokenMint | e] s3];
    [| discriminate].
  intros H. exists balance, selected.
  split; [reflexivity |]. split; [exact Hfind |].
  intros Hchange. apply Z.ltb_lt in Hchange. rewrite Hchange in H.
  apply withdrawWithChange_sent in H. destruct H as [newSecret [tail E]].
  eexists _, _, newSecret, tokenMint, _, tail.
  split; [| exact E]. lia.
Qed.

End WithdrawFacts.


(** ** The amount vocabulary (claim C2) *)

(** C2 as stated fails on the V3 client: 0.02 SOL and 0.03 SOL are not in
    the vocabulary, yet [deposit] carries out a deposit of 0.02 SOL and
    [withdraw] a withdrawal of 0.03 SOL (out of a 0.05 SOL commitment),
    both reaching the ledger. *)
Lemma out_of_vocabulary_amounts_accepted :
  Vocabulary.includes Vocabulary.COMMON_AMOUNTS (2 # 100) = false /\
  fst (Client.deposit Demo.toyPoseidon Demo.pda Demo.ata (Demo.ledger [])
         Demo.wallet (Client.mkDepositParams (2 # 100) "SOL") Demo.session)
    = Js.Ok "signature"%string /\
  Vocabulary.includes Vocabulary.COMMON_AMOUNTS (3 # 100) = false /\
  fst (Client.withdraw Demo.toyPoseidon Demo.randomBytes Demo.pda Demo.ata
         (Demo.ledger [("A"%string, Demo.candidate 50000000 0, 5)])
         Demo.wallet (Client.mkWithdrawParams (3 # 100) "SOL" None) Demo.session)
    = Js.Ok "signature"%string.
Proof. vm_compute. repeat split. Qed.

(** C2, where the code makes the check. [DunV5Client.createPaymentRequest]
    refuses an amount outside the vocabulary before the rest of the method
    runs, leaving the session (and so the ledger) untouched, and only a
    vocabulary amount reaches the rest of the method; the tool handlers in
    front of the V3 client refuse such an amount without asking for any
    client execution. [DunV3Client.withdraw] itself does not apply the
    vocabulary: there are amounts outside it that it pays out. *)
Theorem vocabulary_checked_at_entry (wallet : Secrets.WalletAdapter)
    (submitPaymentRequest : V5.CreatePaymentRequestParams -> M (string * string)) :
  (forall params s,
     Vocabulary.includes Vocabulary.COMMON_AMOUNTS (V5.amount params) = false ->
     V5.createPaymentRequest wallet submitPaymentRequest params s =
     (Js.Err (match Secrets.publicKey wallet with
              | Some _ => amountRejected
              | None => Js.newError "Wallet not connected"
              end), s)) /\
  (forall params s pk,
     Secrets.publicKey wallet = Some pk ->
     Vocabulary.includes Vocabulary.COMMON_AMOUNTS (V5.amount params) = true ->
     V5.createPaymentRequest wallet submitPaymentRequest params s =
     submitPaymentRequest params s) /\
  (forall amount recipient,
     Vocabulary.includes Vocabulary.COMMON_AMOUNTS amount = false ->
     Tools.depositToShieldedPool amount = Tools.Failure Tools.invalidAmount /\
     Tools.withdrawFromShieldedPool amount recipient = Tools.Failure Tools.invalidAmount) /\
  (exists amount,
     Vocabulary.includes Vocabulary.COMMON_AMOUNTS amount = false /\
     fst (Client.withdraw Demo.toyPoseidon Demo.randomBytes Demo.pda Demo.ata demoLedger
            Demo.wallet (Client.mkWithdrawParams amount "SOL" None) Demo.session)
     = Js.Ok "signature"%string).
Proof.
  split; [| split; [| split]].
  - intros params s H. unfold V5.createPaymentRequest.
    destruct (Secrets.publicKey wallet); [| reflexivity].
    rewrite H. reflexivity.
  - intros params s pk Hpk H. unfold V5.createPaymentRequest.
    rewrite Hpk, H. reflexivity.
  - intros amount recipient H.
    unfold Tools.depositToShieldedPool, Tools.withdrawFromShieldedPool.
    rewrite H. split; reflexivity.
  - exists (3 # 100)%Q. vm_compute. split; reflexivity.
Qed.

Lemma vocabulary_checked_at_entry_witness :
  Vocabulary.includes Vocabulary.COMMON_AMOUNTS (2 # 100) = false /\
  V5.createPaymentRequest Demo.wallet (fun _ => ret ("sig", "pda")%string)
    (V5.mkCreateParams (2 # 100) 3600 None) Demo.session
  = (Js.Err amountRejected, Demo.session).
Proof.
  split; [reflexivity |].
  exact (proj1 (vocabulary_checked_at_entry Demo.wallet
                  (fun _ => ret ("sig", "pda")%string))
           (V5.mkCreateParams (2 # 100) 3600 None) Demo.session eq_refl).
Defined.

(* ================================================================== *)
(** * Part IV. Further properties of the program                        *)
(* ================================================================== *)

(** ** The 32-byte encoding written out in the client *)

Section BytesFacts.

Lemma beValueN_rev (bs : list Byte.byte) : Utils.beValueN (rev bs) = leValueN bs.
Proof.
  unfold Utils.beValueN, leValueN.
  rewrite <- fold_left_rev_right, rev_involutive.
  induction bs as [| b bs IH]; [reflexivity |].
  cbn [fold_right]. rewrite IH. lia.
Qed.

Lemma lowBytes_length (count : nat) : forall v, List.length (Client.lowBytes count v) = count.
Proof. induction count as [| count IH]; intros v; cbn; [reflexivity | now rewrite IH]. Qed.

Lemma land_255 (v : Z) : Z.land v 255 = v mod 256.
Proof. change 255 with (Z.ones 8). rewrite Z.land_ones by lia. reflexivity. Qed.

Lemma lowBytes_value (count : nat) : forall v,
  Z.of_N (leValueN (Client.lowBytes count v)) = v mod 256 ^ Z.of_nat count.
Proof.
  induction count as [| count IH]; intros v.
  - cbn. now rewrite Z.mod_1_r.
  - cbn [Client.lowBytes leValueN fold_right].
    change (fold_right _ 0%N (Client.lowBytes count (Z.shiftr v 8)))
      with (leValueN (Client.lowBytes count (Z.shiftr v 8))).
    rewrite N2Z.inj_add, N2Z.inj_mul, IH.
    rewrite land_255, Z.shiftr_div_pow2 by lia.
    assert (Hb : 0 <= v mod 256 < 256) by (apply Z.mod_pos_bound; lia).
    rewrite to_N_byteOfN by lia.
    rewrite Z2N.id by lia.
    rewrite Nat2Z.inj_succ, Z.pow_succ_r by lia.
    change (2 ^ 8) with 256. change (Z.of_N 256) with 256.
    symmetry. apply Z.rem_mul_r; [lia |].
    apply Z.pow_pos_nonneg; lia.
Qed.

Lemma toBytes32_length (v : Z) : List.length (Client.toBytes32 v) = 32%nat.
Proof. unfold Client.toBytes32. now rewrite length_rev, lowBytes_length. Qed.

Lemma toBytes32_value (v : Z) : Utils.beValue (Client.toBytes32 v) = v mod 2 ^ 256.
Proof.
  unfold Utils.beValue, Client.toBytes32. rewrite beValueN_rev, lowBytes_value.
  reflexivity.
Qed.

(** Big-endian values tell byte sequences of one length apart. *)
Lemma leValueN_inj (l1 : list Byte.byte) : forall l2,
  List.length l1 = List.length l2 -> leValueN l1 = leValueN l2 -> l1 = l2.
Proof.
  induction l1 as [| b1 l1 IH]; intros [| b2 l2] Hlen Hval; try discriminate;
    [reflexivity |].
  cbn [leValueN fold_right] in Hval.
  change (fold_right _ 0%N l1) with (leValueN l1) in Hval.
  change (fold_right _ 0%N l2) with (leValueN l2) in Hval.
  pose proof (byte_lt_256 b1). pose proof (byte_lt_256 b2).
  assert (Hb : Byte.to_N b1 = Byte.to_N b2) by lia.
  assert (Hr : leValueN l1 = leValueN l2) by lia.
  f_equal.
  - pose proof (Byte.of_to_N b1) as E1. pose proof (Byte.of_to_N b2) as E2.
    rewrite Hb in E1. congruence.
  - apply IH; [now inversion Hlen | exact Hr].
Qed.

Lemma beValueN_inj (l1 l2 : list Byte.byte) :
  List.length l1 = List.length l2 -> Utils.beValueN l1 = Utils.beValueN l2 -> l1 = l2.
Proof.
  intros Hlen Hval.
  rewrite <- (rev_involutive l1), <- (rev_involutive l2) in Hval.
  rewrite !beValueN_rev in Hval.
  apply leValueN_inj in Hval; [| now rewrite !length_rev].
  rewrite <- (rev_involutive l1), <- (rev_involutive l2). now rewrite Hval.
Qed.

Lemma shiftOr_step (value : Z) (b : Byte.byte) :
  0 <= value -> shiftOr value b = 256 * value + Z.of_N (Byte.to_N b).
Proof.
  intros Hv. unfold shiftOr.
  pose proof (byte_lt_256 b) as Hb.
  set (x := Z.of_N (Byte.to_N b)).
  assert (Hx : 0 <= x < 2 ^ 8) by (subst x; change (2 ^ 8) with 256; lia).
  rewrite Z.shiftl_mul_pow2 by lia.
  rewrite <- Z.lxor_lor, <- Z.add_nocarry_lxor; [change (2 ^ 8) with 256; lia | |];
    (apply Z.bits_inj'; intros n Hn; rewrite Z.land_spec, Z.bits_0;
     destruct (Z.lt_ge_cases n 8) as [Hlt | Hge];
     [ rewrite Z.mul_pow2_bits_low by lia; reflexivity
     | rewrite (Z.bits_above_log2 x n); [apply andb_false_r | lia |];
       destruct (Z.eq_dec x 0) as [-> | Hnz]; [cbn; lia |];
       apply Z.lt_le_trans with 8; [apply Z.log2_lt_pow2; lia | exact Hge] ]).
Qed.

Lemma shiftOr_fold (bs : list Byte.byte) : forall acc : N,
  fold_left shiftOr bs (Z.of_N acc) = Z.of_N (fold_left byteStep bs acc).
Proof.
  induction bs as [| b bs IH]; intros acc; [reflexivity |].
  cbn [fold_left]. rewrite shiftOr_step by lia.
  rewrite <- IH. f_equal. unfold byteStep. lia.
Qed.

Lemma leValueN_bound (l : list Byte.byte) :
  0 <= Z.of_N (leValueN l) < 256 ^ Z.of_nat (List.length l).
Proof.
  induction l as [| b l IH]; [cbn; lia |].
  cbn [leValueN fold_right List.length].
  change (fold_right _ 0%N l) with (leValueN l).
  rewrite Nat2Z.inj_succ, Z.pow_succ_r by lia.
  pose proof (byte_lt_256 b). lia.
Qed.

Lemma beValue_bound (bs : list Byte.byte) :
  0 <= Utils.beValue bs < 256 ^ Z.of_nat (List.length bs).
Proof.
  unfold Utils.beValue.
  rewrite <- (rev_involutive bs) at 1 2. rewrite beValueN_rev.
  rewrite <- (length_rev bs). apply leValueN_bound.
Qed.

End BytesFacts.

(** ** Entry points of the byte encoding *)

Lemma beValue_eq (bs : list Byte.byte) : Utils.beValue bs = Z.of_N (Utils.beValueN bs).
Proof. reflexivity. Qed.

Lemma parseCommitment_run (data : list Byte.byte) :
  Client.parseCommitment data =
  (if (List.length data <? 40)%nat then Js.Err Client.typeError
   else Js.Ok (Utils.beValue (firstn 32 (skipn 8 data)))).
Proof.
  unfold Client.parseCommitment.
  rewrite length_firstn, length_skipn.
  destruct (Nat.ltb_spec (List.length data) 40) as [Hs | Hl].
  - replace (Nat.min 32 (List.length data - 8) <? 32)%nat with true
      by (symmetry; apply Nat.ltb_lt; lia).
    reflexivity.
  - replace (Nat.min 32 (List.length data - 8) <? 32)%nat with false
      by (symmetry; apply Nat.ltb_ge; lia).
    f_equal.
    exact (shiftOr_fold (firstn 32 (skipn 8 data)) 0%N).
Qed.

(** X1. The encoder written out in the client always yields 32 bytes, and
    their big-endian value is the input modulo 2^256: a negative input or
    one of 2^256 and above wraps around without an error. *)
Theorem toBytes32_wraps (v : Z) :
  List.length (Client.toBytes32 v) = 32%nat /\
  Utils.beValue (Client.toBytes32 v) = v mod 2 ^ 256.
Proof. split; [apply toBytes32_length | apply toBytes32_value]. Qed.

(** X2. On a value below 2^256 the encoder written out in the client and
    [bigIntToBuffer(value, 32)] of [utils.ts] produce the same bytes. *)
Theorem toBytes32_is_bigIntToBuffer (v : Z) :
  0 <= v < 2 ^ 256 -> Client.toBytes32 v = Utils.bigIntToBuffer v 32.
Proof.
  intros Hv.
  assert (Hp : (16 ^ N.of_nat (32 * 2))%N = Z.to_N (2 ^ 256)) by (vm_compute; reflexivity).
  assert (Hn : (Z.to_N v < 16 ^ N.of_nat (32 * 2))%N).
  { rewrite Hp. apply Z2N.inj_lt; [apply Hv | apply Z.pow_nonneg; lia | apply Hv]. }
  destruct (encode_in_range (Z.to_N v) 32 Hn) as [Hlen Hval].
  rewrite Z2N.id in Hlen, Hval by apply Hv.
  apply (beValueN_inj (Client.toBytes32 v) (Utils.bigIntToBuffer v 32)).
  - rewrite toBytes32_length. now rewrite Hlen.
  - apply N2Z.inj. rewrite Hval.
    rewrite <- beValue_eq.
    rewrite toBytes32_value. rewrite Z2N.id by apply Hv. apply Z.mod_small. exact Hv.
Qed.

Lemma toBytes32_is_bigIntToBuffer_witness :
  Client.toBytes32 1916143290 = Utils.bigIntToBuffer 1916143290 32.
Proof.
  apply toBytes32_is_bigIntToBuffer. split; [discriminate | reflexivity].
Defined.

(** X3. Reading a commitment out of account data fails, with the TypeError
    of [BigInt(undefined)], exactly when the data has fewer than 40 bytes;
    otherwise it returns the big-endian value of bytes 8 to 39, which lies
    below 2^256. *)
Theorem parseCommitment_cases (data : list Byte.byte) :
  Client.parseCommitment data =
  (if (List.length data <? 40)%nat then Js.Err Client.typeError
   else Js.Ok (Utils.beValue (firstn 32 (skipn 8 data)))) /\
  0 <= Utils.beValue (firstn 32 (skipn 8 data)) < 2 ^ 256.
Proof.
  split; [apply parseCommitment_run |].
  pose proof (beValue_bound (firstn 32 (skipn 8 data))) as [H0 H1].
  split; [exact H0 |].
  eapply Z.lt_le_trans; [exact H1 |].
  assert (E : 2 ^ 256 = 256 ^ Z.of_nat 32) by (vm_compute; reflexivity).
  rewrite E.
  apply Z.pow_le_mono_r; [lia |].
  rewrite length_firstn. lia.
Qed.

(** X4. What [deposit] writes, [getBalance] reads: for a commitment below
    2^256, account data made of an 8-byte discriminator, the 32 bytes that
    [deposit] encodes and whatever follows parses back to the commitment. *)
Theorem parseCommitment_toBytes32 (discriminator rest : list Byte.byte) (v : Z) :
  List.length discriminator = 8%nat -> 0 <= v < 2 ^ 256 ->
  Client.parseCommitment (discriminator ++ Client.toBytes32 v ++ rest) = Js.Ok v.
Proof.
  intros Hd Hv.
  rewrite parseCommitment_run. rewrite !length_app, toBytes32_length, Hd.
  replace (8 + (32 + List.length rest) <? 40)%nat with false
    by (symmetry; apply Nat.ltb_ge; lia).
  f_equal.
  rewrite skipn_app, Hd, Nat.sub_diag.
  rewrite (skipn_all2 discriminator) by lia. rewrite skipn_O, app_nil_l.
  rewrite firstn_app, toBytes32_length, Nat.sub_diag. rewrite firstn_O.
  rewrite app_nil_r.
  rewrite firstn_all2 by (rewrite toBytes32_length; lia).
  rewrite toBytes32_value. apply Z.mod_small. exact Hv.
Qed.

Lemma parseCommitment_toBytes32_witness :
  Client.parseCommitment (repeat Byte.x00 8 ++ Client.toBytes32 1916143290
                            ++ repeat Byte.x00 41) = Js.Ok 1916143290.
Proof.
  apply parseCommitment_toBytes32; [reflexivity |].
  split; [discriminate | reflexivity].
Defined.

(** ** Hex strings *)

Section HexStrings.

Lemma bufferFromHex_bufferToHex (bs : list Byte.byte) :
  Utils.bufferFromHex (Utils.bufferToHex bs) = bs.
Proof.
  induction bs as [| b bs IH]; [reflexivity |].
  unfold Utils.bufferToHex. cbn [flat_map app]. fold (Utils.bufferToHex bs).
  cbn [Utils.bufferFromHex].
  pose proof (Byte.to_N_bounded b) as Hb.
  rewrite !hexVal_hexDigit.
  - rewrite IH. f_equal.
    rewrite <- N.div_mod by discriminate.
    unfold Utils.byteOfN. now rewrite Byte.of_to_N.
  - unfold isDigit. apply N.mod_lt. discriminate.
  - unfold isDigit. apply N.Div0.div_lt_upper_bound. lia.
Qed.

Lemma hexDigit_not_x (d : N) : isDigit d -> Ascii.eqb (Utils.hexDigit d) "x" = false.
Proof.
  intros Hd.
  destruct (small_cases d Hd) as
    [-> | [-> | [-> | [-> | [-> | [-> | [-> | [-> | [-> | [-> | [-> | [-> | [-> |
    [-> | [-> | ->]]]]]]]]]]]]]]]; reflexivity.
Qed.

Lemma replace0x_plain (hex : list ascii) :
  Forall (fun c => Ascii.eqb c "x" = false) hex -> Hex.replace0x hex = hex.
Proof.
  induction 1 as [| c rest Hc Hrest IH]; [reflexivity |].
  cbn [Hex.replace0x]. destruct rest as [| d rest']; [reflexivity |].
  inversion Hrest as [| ? ? Hd _]; subst.
  rewrite Hd, andb_false_r. now rewrite IH.
Qed.

Lemma bufferToHex_plain (bs : list Byte.byte) :
  Forall (fun c => Ascii.eqb c "x" = false) (Utils.bufferToHex bs).
Proof.
  induction bs as [| b bs IH]; [constructor |].
  unfold Utils.bufferToHex. cbn [flat_map app]. fold (Utils.bufferToHex bs).
  pose proof (Byte.to_N_bounded b) as Hb.
  constructor; [| constructor; [| exact IH]]; apply hexDigit_not_x; unfold isDigit.
  - apply N.Div0.div_lt_upper_bound. lia.
  - apply N.mod_lt. discriminate.
Qed.

End HexStrings.

(** X5. [hexToBuffer] undoes [bufferToHex] on every buffer, and reads
    the same bytes from the digits without the "0x" prefix. *)
Theorem hexToBuffer_bufferToHex (buffer : list Byte.byte) :
  Hex.hexToBuffer (Hex.bufferToHex buffer) = buffer /\
  Hex.hexToBuffer (Utils.bufferToHex buffer) = buffer.
Proof.
  split.
  - unfold Hex.hexToBuffer, Hex.bufferToHex. cbn [Hex.replace0x].
    change (Ascii.eqb "0" "0" && Ascii.eqb "x" "x")%bool with true. cbv iota.
    apply bufferFromHex_bufferToHex.
  - unfold Hex.hexToBuffer.
    rewrite (replace0x_plain _ (bufferToHex_plain buffer)).
    apply bufferFromHex_bufferToHex.
Qed.

(** ** The session signature *)

Section SessionFacts.
Import Secrets.

Lemma getWalletSignature_caches (w : WalletAdapter) (s s' : Session)
    (sig : list Byte.byte) :
  getWalletSignature w s = (Js.Ok sig, s') ->
  cachedSignature s' = Some sig /\ (prompts s' <= S (prompts s))%nat.
Proof.
  unfold getWalletSignature.
  destruct (cachedSignature s) as [c |] eqn:Hc.
  - intros H. injection H as <- <-. split; [exact Hc | lia].
  - destruct (signatureRejected s); [discriminate |].
    destruct (publicKey w); [| discriminate].
    destruct (signMessage w) as [sign |]; [| discriminate].
    destruct (sign signingMessage (prompts s)) as [signature | error].
    + intros H. injection H as <- <-. split; [reflexivity | cbn; lia].
    + destruct (isRejection error); discriminate.
Qed.

Lemma cached_forever (sig : list Byte.byte) (wallets : list WalletAdapter) (s : Session) :
  cachedSignature s = Some sig ->
  requestAll wallets s = (repeat (Js.Ok sig) (List.length wallets), s).
Proof.
  intros Hc. induction wallets as [| w rest IH]; [reflexivity |].
  cbn [requestAll]. rewrite (cached_signature w s sig Hc), IH. reflexivity.
Qed.

Lemma bigIntOfBytes_run (bytes : list Byte.byte) (s : Session) :
  bigIntOfBytes bytes s =
  (match bytes with [] => Js.Err syntaxError | _ => Js.Ok (Utils.beValue bytes) end, s).
Proof.
  unfold bigIntOfBytes. destruct bytes as [| b bs]; [reflexivity |].
  rewrite bufferToBigInt_value by discriminate. reflexivity.
Qed.

Lemma beValue_31 (bytes : list Byte.byte) :
  0 <= Utils.beValue (firstn 31 bytes) < 2 ^ 248.
Proof.
  pose proof (beValue_bound (firstn 31 bytes)) as [H0 H1].
  split; [exact H0 |].
  eapply Z.lt_le_trans; [exact H1 |].
  assert (E : 2 ^ 248 = 256 ^ Z.of_nat 31) by (vm_compute; reflexivity).
  rewrite E. apply Z.pow_le_mono_r; [lia |].
  rewrite length_firstn. lia.
Qed.

Lemma bigIntOfBytes_31 (bytes : list Byte.byte) (s s' : Session) (k : Z) :
  bigIntOfBytes (firstn 31 bytes) s = (Js.Ok k, s') -> 0 <= k < 2 ^ 248.
Proof.
  rewrite bigIntOfBytes_run.
  destruct (firstn 31 bytes) eqn:E; [discriminate |].
  intros H. injection H as <- _. rewrite <- E. apply beValue_31.
Qed.

End SessionFacts.

(** X6. Once a signature request has succeeded, every later request in the
    session returns that signature without prompting, whichever wallet
    object the caller passes: the cache is not keyed by wallet. *)
Theorem signature_asked_once (w : Secrets.WalletAdapter) (s s' : Session)
    (sig : list Byte.byte) :
  Secrets.getWalletSignature w s = (Js.Ok sig, s') ->
  (prompts s' <= S (prompts s))%nat /\
  forall later : list Secrets.WalletAdapter,
    requestAll later s' = (repeat (Js.Ok sig) (List.length later), s').
Proof.
  intros H. destruct (getWalletSignature_caches w s s' sig H) as [Hc Hp].
  split; [exact Hp |]. intros later. now apply cached_forever.
Qed.

Lemma signature_asked_once_witness :
  requestAll [rejectingWallet; Secrets.mkWallet None None]
             (Secrets.setSignature Demo.signature (Secrets.countPrompt freshSession))
  = ([Js.Ok Demo.signature; Js.Ok Demo.signature],
     Secrets.setSignature Demo.signature (Secrets.countPrompt freshSession)).
Proof.
  exact (proj2 (signature_asked_once Demo.wallet freshSession _ Demo.signature eq_refl)
               [rejectingWallet; Secrets.mkWallet None None]).
Defined.

(** X7. The master key and every random change secret are below 2^248:
    both are read from at most 31 bytes. *)
Theorem secrets_below_2_248 (randomBytes : nat -> list Byte.byte)
    (w : Secrets.WalletAdapter) (s s' : Session) (k : Z) :
  Secrets.deriveMasterKey w s = (Js.Ok k, s') \/
  Secrets.generateRandomSecret randomBytes s = (Js.Ok k, s') ->
  0 <= k < 2 ^ 248.
Proof.
  intros [H | H].
  - unfold Secrets.deriveMasterKey, bind in H.
    destruct (Secrets.getWalletSignature w s) as [[sig | e] s1]; [| discriminate].
    exact (bigIntOfBytes_31 sig s1 s' k H).
  - unfold Secrets.generateRandomSecret in H.
    exact (bigIntOfBytes_31 _ _ s' k H).
Qed.

Lemma secrets_below_2_248_witness : 0 <= Demo.masterKey < 2 ^ 248.
Proof.
  apply (secrets_below_2_248 Demo.randomBytes Demo.wallet Demo.session Demo.session).
  left. vm_compute. reflexivity.
Defined.

(** ** What a scan returns *)

Section ScanResults.

Variable poseidon : list Z -> Z.
Variable w : Secrets.WalletAdapter.

Local Abbreviation scanNonces := (Secrets.scanNonces poseidon w).
Local Abbreviation scanAmounts := (Secrets.scanAmounts poseidon w).
Local Abbreviation scanCommitments := (Secrets.scanCommitments poseidon w).
Local Abbreviation deriveSecret := (Secrets.deriveSecret poseidon w).

(** A condition on sessions that derivations keep. *)
Variable inv : Session -> Prop.
Hypothesis inv_derive : forall n amt s, inv s -> inv (snd (deriveSecret n amt s)).

Lemma bind_ok (A B : Type) (c : M A) (k : A -> M B) (s s' : Session) (b : B) :
  bind c k s = (Js.Ok b, s') ->
  exists a s1, c s = (Js.Ok a, s1) /\ k a s1 = (Js.Ok b, s').
Proof.
  unfold bind. destruct (c s) as [[a | e] s1]; [| discriminate].
  intros H. now exists a, s1.
Qed.

Lemma scanNonces_sound (c : Secrets.OnChain) (amt : Z) (count : nat) :
  forall from s found s',
    inv s ->
    scanNonces c amt count from s = (Js.Ok found, s') ->
    inv s' /\
    Forall (fun o =>
              Secrets.commitment o = Secrets.oc_commitment c /\
              Secrets.address o = Secrets.oc_address c /\
              Secrets.amount o = amt /\
              (from <= Secrets.nonce o < from + count)%nat /\
              poseidon [amt; Secrets.secret o] = Secrets.oc_commitment c /\
              exists s0, inv s0 /\
                         fst (deriveSecret (Secrets.nonce o) amt s0)
                         = Js.Ok (Secrets.secret o)) found.
Proof.
  induction count as [| count IH]; intros from s found s' Hs H.
  - injection H as <- <-. split; [exact Hs | constructor].
  - cbn [Secrets.scanNonces] in H.
    pose proof (inv_derive from amt s Hs) as Hs1.
    destruct (Secrets.deriveSecret poseidon w from amt s) as [[sec | e] s1] eqn:E.
    + destruct (poseidon [amt; sec] =? Secrets.oc_commitment c) eqn:Heq.
      * injection H as <- <-. split; [exact Hs1 |]. constructor; [| constructor].
        cbn [Secrets.commitment Secrets.address Secrets.amount Secrets.nonce
             Secrets.secret].
        apply Z.eqb_eq in Heq.
        repeat split; try lia; try exact Heq.
        exists s. split; [exact Hs |]. now rewrite E.
      * apply IH in H as [Hs' H]; [| exact Hs1]. split; [exact Hs' |].
        eapply Forall_impl; [| exact H].
        cbv beta. intros o (H1 & H2 & H3 & H4 & H5). repeat split; try tauto; lia.
    + apply IH in H as [Hs' H]; [| exact Hs1]. split; [exact Hs' |].
      eapply Forall_impl; [| exact H].
      cbv beta. intros o (H1 & H2 & H3 & H4 & H5). repeat split; try tauto; lia.
Qed.

Lemma scanAmounts_sound (c : Secrets.OnChain) (maxNonce : nat) (amounts : list Z) :
  forall s found s',
    inv s ->
    scanAmounts c amounts maxNonce s = (Js.Ok found, s') ->
    inv s' /\ Forall (ownedIn inv poseidon w [c] amounts maxNonce) found.
Proof.
  induction amounts as [| amt rest IH]; intros s found s' Hs H.
  - injection H as <- <-. split; [exact Hs | constructor].
  - cbn [Secrets.scanAmounts] in H.
    apply bind_ok in H as (f1 & s1 & H1 & H).
    apply bind_ok in H as (f2 & s2 & H2 & H).
    injection H as <- <-.
    apply scanNonces_sound in H1 as [Hs1 H1]; [| exact Hs].
    apply IH in H2 as [Hs2 H2]; [| exact Hs1].
    split; [exact Hs2 |].
    apply Forall_app. split.
    + eapply Forall_impl; [| exact H1].
      cbv beta. intros o (Hc & Ha & Hm & Hn & Hp & Hd). unfold ownedIn.
      rewrite Hc, Ha, Hm. destruct c as [cc ca]. cbn in *.
      repeat split; try tauto; try lia.
    + eapply Forall_impl; [| exact H2].
      intros o (Hc & Ha & Hr). split; [exact Hc |]. split; [now right | exact Hr].
Qed.

Lemma scanCommitments_sound (amounts : list Z) (maxNonce : nat)
    (cs : list Secrets.OnChain) :
  forall s found s',
    inv s ->
    scanCommitments cs amounts maxNonce s = (Js.Ok found, s') ->
    inv s' /\ Forall (ownedIn inv poseidon w cs amounts maxNonce) found.
Proof.
  induction cs as [| c rest IH]; intros s found s' Hs H.
  - injection H as <- <-. split; [exact Hs | constructor].
  - cbn [Secrets.scanCommitments] in H.
    apply bind_ok in H as (f1 & s1 & H1 & H).
    apply bind_ok in H as (f2 & s2 & H2 & H).
    injection H as <- <-.
    apply scanAmounts_sound in H1 as [Hs1 H1]; [| exact Hs].
    apply IH in H2 as [Hs2 H2]; [| exact Hs1].
    split; [exact Hs2 |].
    apply Forall_app. split.
    + eapply Forall_impl; [| exact H1].
      intros o (Hc & Hr). split; [| exact Hr].
      destruct Hc as [Hc | []]. now left.
    + eapply Forall_impl; [| exact H2].
      intros o (Hc & Hr). split; [now right | exact Hr].
Qed.

Lemma scanAmounts_returns (c : Secrets.OnChain) (maxNonce : nat) (amounts : list Z) :
  forall s, exists found, fst (scanAmounts c amounts maxNonce s) = Js.Ok found.
Proof.
  induction amounts as [| amt rest IH]; intros s; [now exists [] |].
  cbn [Secrets.scanAmounts]. unfold bind at 1.
  destruct (scanNonces_returns poseidon w c amt maxNonce 0%nat s) as [f1 E1].
  destruct (Secrets.scanNonces poseidon w c amt maxNonce 0 s) as [r1 s1].
  cbn [fst] in E1. subst r1. unfold bind at 1.
  destruct (IH s1) as [f2 E2].
  destruct (Secrets.scanAmounts poseidon w c rest maxNonce s1) as [r2 s2].
  cbn [fst] in E2. subst r2. now exists (f1 ++ f2).
Qed.

Lemma scanCommitments_returns (amounts : list Z) (maxNonce : nat)
    (cs : list Secrets.OnChain) :
  forall s, exists found, fst (scanCommitments cs amounts maxNonce s) = Js.Ok found.
Proof.
  induction cs as [| c rest IH]; intros s; [now exists [] |].
  cbn [Secrets.scanCommitments]. unfold bind at 1.
  destruct (scanAmounts_returns c maxNonce amounts s) as [f1 E1].
  destruct (Secrets.scanAmounts poseidon w c amounts maxNonce s) as [r1 s1].
  cbn [fst] in E1. subst r1. unfold bind at 1.
  destruct (IH s1) as [f2 E2].
  destruct (Secrets.scanCommitments poseidon w rest amounts maxNonce s1) as [r2 s2].
  cbn [fst] in E2. subst r2. now exists (f1 ++ f2).
Qed.

End ScanResults.

(** ** Whose records a scan returns *)

Section TiedScan.

Variable poseidon : list Z -> Z.
Variable w : Secrets.WalletAdapter.

(** A derivation that returns leaves the signature it used in the cache. *)
Lemma deriveSecret_tied (n : nat) (amt : Z) (s s' : Session) (sec : Z) :
  Secrets.deriveSecret poseidon w n amt s = (Js.Ok sec, s') ->
  exists sig, cachedSignature s' = Some sig /\ sec = secretAt poseidon amt sig n.
Proof.
  unfold Secrets.deriveSecret. intros H.
  apply bind_ok in H as ([] & s0 & _ & H).
  apply bind_ok in H as (masterKey & s1 & Hkey & H).
  injection H as <- <-.
  unfold Secrets.deriveMasterKey in Hkey.
  apply bind_ok in Hkey as (sig & s2 & Hsig & Hkey).
  apply getWalletSignature_caches in Hsig as [Hc _].
  rewrite bigIntOfBytes_run in Hkey.
  destruct (firstn 31 sig) eqn:E; [discriminate |].
  injection Hkey as <- <-. exists sig. split; [exact Hc |].
  unfold secretAt. now rewrite E.
Qed.

(** The scans keep a cached signature. *)
Lemma scanAmounts_keeps (c : Secrets.OnChain) (amounts : list Z) (maxNonce : nat)
    (s : Session) (sig : list Byte.byte) :
  cachedSignature s = Some sig ->
  cachedSignature (snd (Secrets.scanAmounts poseidon w c amounts maxNonce s)) = Some sig.
Proof.
  intros H. exact (proj2 (Settled_scanAmounts sig poseidon w c amounts maxNonce s s H H)).
Qed.

Lemma scanCommitments_keeps (cs : list Secrets.OnChain) (amounts : list Z)
    (maxNonce : nat) (s : Session) (sig : list Byte.byte) :
  cachedSignature s = Some sig ->
  cachedSignature (snd (Secrets.scanCommitments poseidon w cs amounts maxNonce s))
  = Some sig.
Proof.
  intros H.
  exact (proj2 (Settled_scanCommitments sig poseidon w cs amounts maxNonce s s H H)).
Qed.

Lemma ownedUnder_later (cached cached' : option (list Byte.byte))
    (cs : list Secrets.OnChain) (amounts : list Z) (maxNonce : nat) (o : Secrets.Owned) :
  (forall sig, cached = Some sig -> cached' = Some sig) ->
  ownedUnder poseidon cached cs amounts maxNonce o ->
  ownedUnder poseidon cached' cs amounts maxNonce o.
Proof.
  intros Hk (H1 & H2 & H3 & sig & Hc & H4). repeat split; try assumption.
  exists sig. split; [now apply Hk | exact H4].
Qed.

Lemma scanNonces_tied (c : Secrets.OnChain) (amt : Z) (count : nat) :
  forall from s found s',
    Secrets.scanNonces poseidon w c amt count from s = (Js.Ok found, s') ->
    Forall (ownedUnder poseidon (cachedSignature s') [c] [amt] (from + count)) found.
Proof.
  induction count as [| count IH]; intros from s found s' H.
  - injection H as <- _. constructor.
  - cbn [Secrets.scanNonces] in H.
    destruct (Secrets.deriveSecret poseidon w from amt s) as [[sec | e] s1] eqn:E.
    + destruct (poseidon [amt; sec] =? Secrets.oc_commitment c) eqn:Heq.
      * injection H as <- <-. constructor; [| constructor].
        apply deriveSecret_tied in E as (sig & Hc & ->).
        apply Z.eqb_eq in Heq. destruct c as [cc ca].
        unfold ownedUnder.
        cbn [Secrets.commitment Secrets.address Secrets.amount Secrets.nonce
             Secrets.secret Secrets.oc_commitment Secrets.oc_address] in *.
        split; [now left |]. split; [now left |]. split; [lia |].
        exists sig. split; [exact Hc |]. split; [reflexivity |].
        unfold candidateAt, Proofs.computeCommitment. now rewrite Heq.
      * apply IH in H. replace (from + S count)%nat with (S from + count)%nat by lia.
        exact H.
    + apply IH in H. replace (from + S count)%nat with (S from + count)%nat by lia.
      exact H.
Qed.

Lemma scanAmounts_tied (c : Secrets.OnChain) (maxNonce : nat) (amounts : list Z) :
  forall s found s',
    Secrets.scanAmounts poseidon w c amounts maxNonce s = (Js.Ok found, s') ->
    Forall (ownedUnder poseidon (cachedSignature s') [c] amounts maxNonce) found.
Proof.
  induction amounts as [| amt rest IH]; intros s found s' H.
  - injection H as <- _. constructor.
  - cbn [Secrets.scanAmounts] in H.
    apply bind_ok in H as (f1 & s1 & H1 & H).
    apply bind_ok in H as (f2 & s2 & H2 & H).
    injection H as <- <-.
    pose proof (scanAmounts_keeps c rest maxNonce s1) as Hk. rewrite H2 in Hk.
    apply scanNonces_tied in H1. apply IH in H2.
    apply Forall_app. split.
    + eapply Forall_impl; [| exact H1]. intros o Ho.
      apply (ownedUnder_later _ _ _ _ _ _ Hk) in Ho.
      destruct Ho as (Hc & Ha & Hr). split; [exact Hc |].
      split; [| exact Hr]. destruct Ha as [<- | []]. now left.
    + eapply Forall_impl; [| exact H2].
      intros o (Hc & Ha & Hr). split; [exact Hc |]. split; [now right | exact Hr].
Qed.

Lemma scanCommitments_tied (amounts : list Z) (maxNonce : nat)
    (cs : list Secrets.OnChain) :
  forall s found s',
    Secrets.scanCommitments poseidon w cs amounts maxNonce s = (Js.Ok found, s') ->
    Forall (ownedUnder poseidon (cachedSignature s') cs amounts maxNonce) found.
Proof.
  induction cs as [| c rest IH]; intros s found s' H.
  - injection H as <- _. constructor.
  - cbn [Secrets.scanCommitments] in H.
    apply bind_ok in H as (f1 & s1 & H1 & H).
    apply bind_ok in H as (f2 & s2 & H2 & H).
    injection H as <- <-.
    pose proof (scanCommitments_keeps rest amounts maxNonce s1) as Hk. rewrite H2 in Hk.
    apply scanAmounts_tied in H1. apply IH in H2.
    apply Forall_app. split.
    + eapply Forall_impl; [| exact H1]. intros o Ho.
      apply (ownedUnder_later _ _ _ _ _ _ Hk) in Ho.
      destruct Ho as (Hc & Hr). split; [| exact Hr].
      destruct Hc as [Hc | []]. now left.
    + eapply Forall_impl; [| exact H2].
      intros o (Hc & Hr). split; [now right | exact Hr].
Qed.

End TiedScan.

(** X8. The scan never throws, and every record it returns is the
    session's: it names an element of the scanned list, its amount is one
    of the candidate amounts, its slot is below [maxNonce], and its secret
    and commitment are the ones that the signature the session holds after
    the scan gives for that slot and amount. *)
Theorem scanCommitments_only_owned (poseidon : list Z -> Z)
    (w : Secrets.WalletAdapter) (cs : list Secrets.OnChain)
    (amounts : list Z) (maxNonce : nat) (s : Session) :
  exists found,
    fst (Secrets.scanCommitments poseidon w cs amounts maxNonce s) = Js.Ok found /\
    Forall (ownedUnder poseidon
              (cachedSignature
                 (snd (Secrets.scanCommitments poseidon w cs amounts maxNonce s)))
              cs amounts maxNonce) found.
Proof.
  destruct (scanCommitments_returns poseidon w amounts maxNonce cs s) as [found E].
  exists found. split; [exact E |].
  destruct (Secrets.scanCommitments poseidon w cs amounts maxNonce s) as [r s'] eqn:R.
  cbn [fst] in E. subst r. cbn [snd].
  exact (scanCommitments_tied poseidon w amounts maxNonce cs s found s' R).
Qed.

(** ** Scanning with a wallet that does not sign *)

Section BarrenScan.

Variable poseidon : list Z -> Z.
Variable w : Secrets.WalletAdapter.

(** A condition on sessions under which every derivation fails, at a cost
    of [cost] prompts. *)
Variable stuck : Session -> Prop.
Variable cost : nat.
Hypothesis derive_fails : forall n amt s,
  stuck s ->
  exists e s', Secrets.deriveSecret poseidon w n amt s = (Js.Err e, s') /\
               stuck s' /\ prompts s' = (prompts s + cost)%nat.

Lemma scanNonces_barren (c : Secrets.OnChain) (amt : Z) (count : nat) :
  forall from s, stuck s ->
    exists s', Secrets.scanNonces poseidon w c amt count from s = (Js.Ok [], s') /\
               stuck s' /\ prompts s' = (prompts s + count * cost)%nat.
Proof.
  induction count as [| count IH]; intros from s Hs.
  - exists s. cbn. split; [reflexivity |]. split; [exact Hs | lia].
  - cbn [Secrets.scanNonces].
    destruct (derive_fails from amt s Hs) as (e & s1 & E & Hs1 & Hp1).
    rewrite E.
    destruct (IH (S from) s1 Hs1) as (s' & E' & Hs' & Hp').
    exists s'. split; [exact E' |]. split; [exact Hs' | lia].
Qed.

Lemma scanAmounts_barren (c : Secrets.OnChain) (maxNonce : nat) (amounts : list Z) :
  forall s, stuck s ->
    exists s', Secrets.scanAmounts poseidon w c amounts maxNonce s = (Js.Ok [], s') /\
               stuck s' /\
               prompts s' = (prompts s + List.length amounts * maxNonce * cost)%nat.
Proof.
  induction amounts as [| amt rest IH]; intros s Hs.
  - exists s. cbn. split; [reflexivity |]. split; [exact Hs | lia].
  - cbn [Secrets.scanAmounts]. unfold bind at 1.
    destruct (scanNonces_barren c amt maxNonce 0%nat s Hs) as (s1 & E1 & Hs1 & Hp1).
    rewrite E1. unfold bind at 1.
    destruct (IH s1 Hs1) as (s2 & E2 & Hs2 & Hp2).
    rewrite E2. exists s2. split; [reflexivity |]. split; [exact Hs2 |].
    cbn [List.length]. lia.
Qed.

Lemma scanCommitments_barren (amounts : list Z) (maxNonce : nat)
    (cs : list Secrets.OnChain) :
  forall s, stuck s ->
    exists s', Secrets.scanCommitments poseidon w cs amounts maxNonce s = (Js.Ok [], s') /\
               stuck s' /\
               prompts s' =
               (prompts s + List.length cs * List.length amounts * maxNonce * cost)%nat.
Proof.
  induction cs as [| c rest IH]; intros s Hs.
  - exists s. cbn. split; [reflexivity |]. split; [exact Hs | lia].
  - cbn [Secrets.scanCommitments]. unfold bind at 1.
    destruct (scanAmounts_barren c maxNonce amounts s Hs) as (s1 & E1 & Hs1 & Hp1).
    rewrite E1. unfold bind at 1.
    destruct (IH s1 Hs1) as (s2 & E2 & Hs2 & Hp2).
    rewrite E2. exists s2. split; [reflexivity |]. split; [exact Hs2 |].
    cbn [List.length]. lia.
Qed.

End BarrenScan.

Lemma deriveSecret_rejected (poseidon : list Z -> Z) (w : Secrets.WalletAdapter)
    (n : nat) (amt : Z) (s : Session) :
  cachedSignature s = None /\ signatureRejected s = true ->
  exists e s', Secrets.deriveSecret poseidon w n amt s = (Js.Err e, s') /\
               (cachedSignature s' = None /\ signatureRejected s' = true) /\
               prompts s' = (prompts s + 0)%nat.
Proof.
  intros [Hc Hr].
  exists (Js.newError Secrets.rejectionMessage), (logEvent (EvDerive n amt) s).
  split; [| split; [split; assumption | cbn; lia]].
  unfold Secrets.deriveSecret, bind, emit, Secrets.deriveMasterKey, bind.
  rewrite (rejected_fails_fast w (logEvent (EvDerive n amt) s) Hc Hr).
  reflexivity.
Qed.

Lemma deriveSecret_failing (poseidon : list Z -> Z) (w : Secrets.WalletAdapter)
    (Hw : failing w) (n : nat) (amt : Z) (s : Session) :
  cachedSignature s = None /\ signatureRejected s = false ->
  exists e s', Secrets.deriveSecret poseidon w n amt s = (Js.Err e, s') /\
               (cachedSignature s' = None /\ signatureRejected s' = false) /\
               prompts s' = (prompts s + 1)%nat.
Proof.
  intros [Hc Hr]. destruct Hw as (pk & sign & Hpk & Hsign & Hans).
  destruct (Hans Secrets.signingMessage (prompts s)) as (e & He & Hrej).
  exists e, (Secrets.countPrompt (logEvent (EvDerive n amt) s)).
  split; [| split; [split; assumption | cbn; lia]].
  unfold Secrets.deriveSecret, bind, emit, Secrets.deriveMasterKey, bind.
  unfold Secrets.getWalletSignature.
  cbn [cachedSignature signatureRejected logEvent prompts].
  now rewrite Hc, Hr, Hpk, Hsign, He, Hrej.
Qed.

(** X9. A wallet that fails with an error other than a refusal is asked
    again at every candidate: a scan of a ledger of [c] commitments with
    [a] amounts and [maxNonce] slots prompts it c * a * maxNonce times, and
    returns no record. *)
Theorem failing_wallet_prompted_per_candidate (poseidon : list Z -> Z)
    (w : Secrets.WalletAdapter) (cs : list Secrets.OnChain) (amounts : list Z)
    (maxNonce : nat) (s : Session) :
  failing w -> cachedSignature s = None -> signatureRejected s = false ->
  fst (Secrets.scanCommitments poseidon w cs amounts maxNonce s) = Js.Ok [] /\
  prompts (snd (Secrets.scanCommitments poseidon w cs amounts maxNonce s)) =
  (prompts s + List.length cs * List.length amounts * maxNonce)%nat.
Proof.
  intros Hw Hc Hr.
  destruct (scanCommitments_barren poseidon w
              (fun s => cachedSignature s = None /\ signatureRejected s = false) 1
              (deriveSecret_failing poseidon w Hw) amounts maxNonce cs s (conj Hc Hr))
    as (s' & E & _ & Hp).
  rewrite E. cbn [fst snd]. split; [reflexivity | lia].
Qed.

Lemma lockedWallet_failing : failing lockedWallet.
Proof.
  exists "Payer"%string, (fun _ _ => Js.Err deviceLocked).
  split; [reflexivity |]. split; [reflexivity |].
  intros msg n. exists deviceLocked. split; reflexivity.
Defined.

Lemma failing_wallet_prompted_per_candidate_witness :
  prompts (snd (Secrets.scanCommitments Demo.toyPoseidon lockedWallet
                  [Secrets.mkOnChain 1 "A"; Secrets.mkOnChain 2 "B"]
                  Secrets.COMMON_AMOUNTS 100 freshSession)) = 1800%nat.
Proof.
  exact (proj2 (failing_wallet_prompted_per_candidate Demo.toyPoseidon lockedWallet
                  [Secrets.mkOnChain 1 "A"; Secrets.mkOnChain 2 "B"]
                  Secrets.COMMON_AMOUNTS 100 freshSession
                  lockedWallet_failing eq_refl eq_refl)).
Defined.

(** ** Scanning with the signature cached *)

Section OwnScan.

Variable poseidon : list Z -> Z.
Variable w : Secrets.WalletAdapter.
Variable sig : list Byte.byte.
Hypothesis sig_nonempty : sig <> [].

Local Abbreviation found_at := (recordFor poseidon sig).
Local Abbreviation candidate := (candidateAt poseidon).

Lemma scanNonces_hit (c : Secrets.OnChain) (amt : Z) (n : nat) (count : nat) :
  forall from s,
    cachedSignature s = Some sig ->
    (from <= n < from + count)%nat ->
    candidate amt sig n = Secrets.oc_commitment c ->
    exists o s',
      Secrets.scanNonces poseidon w c amt count from s = (Js.Ok [o], s') /\
      cachedSignature s' = Some sig /\ found_at c amt n o.
Proof.
  induction count as [| count IH]; intros from s Hc Hn Hcand; [lia |].
  cbn [Secrets.scanNonces].
  rewrite (cached_deriveSecret poseidon w s sig from amt Hc sig_nonempty).
  fold (secretAt poseidon amt sig from).
  destruct (poseidon [amt; secretAt poseidon amt sig from] =? Secrets.oc_commitment c)
    eqn:Heq.
  - eexists; eexists. split; [reflexivity |]. split; [exact Hc |].
    unfold recordFor. cbn. repeat split; lia.
  - assert (from <> n).
    { intros ->. unfold candidateAt, Proofs.computeCommitment in Hcand.
      rewrite Hcand, Z.eqb_refl in Heq. discriminate. }
    apply (IH (S from) (logEvent (EvDerive from amt) s) Hc); [lia | exact Hcand].
Qed.

Lemma scanAmounts_hit (c : Secrets.OnChain) (amt : Z) (n maxNonce : nat)
    (amounts : list Z) :
  forall s,
    cachedSignature s = Some sig ->
    In amt amounts -> (n < maxNonce)%nat ->
    candidate amt sig n = Secrets.oc_commitment c ->
    exists found s',
      Secrets.scanAmounts poseidon w c amounts maxNonce s = (Js.Ok found, s') /\
      cachedSignature s' = Some sig /\ Exists (found_at c amt n) found.
Proof.
  induction amounts as [| a rest IH]; intros s Hc Hin Hn Hcand; [destruct Hin |].
  cbn [Secrets.scanAmounts]. unfold bind at 1.
  destruct (scanNonces_returns poseidon w c a maxNonce 0%nat s) as [f1 E1].
  pose proof (proj2 (Settled_scanNonces sig poseidon w c a maxNonce 0%nat s s Hc Hc))
    as Hc1.
  destruct Hin as [-> | Hin].
  - destruct (scanNonces_hit c amt n maxNonce 0%nat s Hc ltac:(lia) Hcand)
      as (o & s1 & E & Hcs1 & Ho).
    rewrite E. unfold bind at 1.
    destruct (scanAmounts_returns poseidon w c maxNonce rest s1) as [f2 E2].
    pose proof (proj2 (Settled_scanAmounts sig poseidon w c rest maxNonce s1 s1 Hcs1 Hcs1))
      as Hc2.
    destruct (Secrets.scanAmounts poseidon w c rest maxNonce s1) as [r2 s2].
    cbn [fst snd] in E2, Hc2. subst r2.
    exists ([o] ++ f2), s2. split; [reflexivity |]. split; [exact Hc2 |].
    apply Exists_app. left. now constructor.
  - destruct (Secrets.scanNonces poseidon w c a maxNonce 0 s) as [r1 s1].
    cbn [fst snd] in E1, Hc1. subst r1. unfold bind at 1.
    destruct (IH s1 Hc1 Hin Hn Hcand) as (f2 & s2 & E2 & Hc2 & Hex).
    rewrite E2. exists (f1 ++ f2), s2. split; [reflexivity |]. split; [exact Hc2 |].
    apply Exists_app. now right.
Qed.

Lemma scanCommitments_hit (c : Secrets.OnChain) (amt : Z) (n maxNonce : nat)
    (amounts : list Z) (cs : list Secrets.OnChain) :
  forall s,
    cachedSignature s = Some sig ->
    In c cs -> In amt amounts -> (n < maxNonce)%nat ->
    candidate amt sig n = Secrets.oc_commitment c ->
    exists found s',
      Secrets.scanCommitments poseidon w cs amounts maxNonce s = (Js.Ok found, s') /\
      cachedSignature s' = Some sig /\ Exists (found_at c amt n) found.
Proof.
  induction cs as [| c0 rest IH]; intros s Hc Hin Ha Hn Hcand; [destruct Hin |].
  cbn [Secrets.scanCommitments]. unfold bind at 1.
  destruct (scanAmounts_returns poseidon w c0 maxNonce amounts s) as [f1 E1].
  pose proof (proj2 (Settled_scanAmounts sig poseidon w c0 amounts maxNonce s s Hc Hc))
    as Hc1.
  destruct Hin as [-> | Hin].
  - destruct (scanAmounts_hit c amt n maxNonce amounts s Hc Ha Hn Hcand)
      as (f & s1 & E & Hcs1 & Ho).
    rewrite E. unfold bind at 1.
    destruct (scanCommitments_returns poseidon w amounts maxNonce rest s1) as [f2 E2].
    pose proof (proj2 (Settled_scanCommitments sig poseidon w rest amounts maxNonce
                         s1 s1 Hcs1 Hcs1)) as Hc2.
    destruct (Secrets.scanCommitments poseidon w rest amounts maxNonce s1) as [r2 s2].
    cbn [fst snd] in E2, Hc2. subst r2.
    exists (f ++ f2), s2. split; [reflexivity |]. split; [exact Hc2 |].
    apply Exists_app. now left.
  - destruct (Secrets.scanAmounts poseidon w c0 amounts maxNonce s) as [r1 s1].
    cbn [fst snd] in E1, Hc1. subst r1. unfold bind at 1.
    destruct (IH s1 Hc1 Hin Ha Hn Hcand) as (f2 & s2 & E2 & Hc2 & Hex).
    rewrite E2. exists (f1 ++ f2), s2. split; [reflexivity |]. split; [exact Hc2 |].
    apply Exists_app. now right.
Qed.

End OwnScan.

(** X10. With the signature cached the scan misses none of the wallet's
    deposits: if an element of the scanned list is the commitment the
    wallet derives for a candidate amount at a slot below [maxNonce], the
    result holds a record of that element and amount, found at that slot
    or an earlier one that gives the same commitment. *)
Theorem scanCommitments_finds_own (poseidon : list Z -> Z)
    (w : Secrets.WalletAdapter) (sig : list Byte.byte)
    (cs : list Secrets.OnChain) (amounts : list Z) (maxNonce : nat)
    (c : Secrets.OnChain) (amt : Z) (n : nat) (s : Session) :
  sig <> [] -> cachedSignature s = Some sig ->
  In c cs -> In amt amounts -> (n < maxNonce)%nat ->
  candidateAt poseidon amt sig n = Secrets.oc_commitment c ->
  exists found,
    fst (Secrets.scanCommitments poseidon w cs amounts maxNonce s) = Js.Ok found /\
    Exists (recordFor poseidon sig c amt n) found.
Proof.
  intros Hne Hc Hin Ha Hn Hcand.
  destruct (scanCommitments_hit poseidon w sig Hne c amt n maxNonce amounts cs s
              Hc Hin Ha Hn Hcand) as (found & s' & E & _ & Hex).
  exists found. rewrite E. split; [reflexivity | exact Hex].
Qed.

Lemma scanCommitments_finds_own_witness :
  exists found,
    fst (Secrets.scanCommitments Demo.toyPoseidon Demo.wallet
           [Secrets.mkOnChain (Demo.candidate 50000000 0) "A"]
           Secrets.COMMON_AMOUNTS 100 Demo.session) = Js.Ok found /\
    Exists (recordFor Demo.toyPoseidon Demo.signature
              (Secrets.mkOnChain (Demo.candidate 50000000 0) "A") 50000000 0) found.
Proof.
  apply (scanCommitments_finds_own Demo.toyPoseidon Demo.wallet Demo.signature
           [Secrets.mkOnChain (Demo.candidate 50000000 0) "A"]
           Secrets.COMMON_AMOUNTS 100
           (Secrets.mkOnChain (Demo.candidate 50000000 0) "A") 50000000 0 Demo.session).
  - discriminate.
  - reflexivity.
  - left. reflexivity.
  - right. left. reflexivity.
  - lia.
  - reflexivity.
Defined.

(** ** The balance view *)

Section BalanceFacts.

Variable poseidon : list Z -> Z.
Variable findProgramAddress : string -> list Byte.byte -> string.
Variable connection : Client.Connection.
Variable wallet : Secrets.WalletAdapter.

Local Abbreviation getBalance :=
  (Client.getBalance poseidon findProgramAddress connection wallet).
Local Abbreviation inspectOwned :=
  (Client.inspectOwned poseidon findProgramAddress connection).

Lemma mapM_parseAccount (accounts : list (string * list Byte.byte)) (s : Session) :
  Forall holdsCommitment accounts ->
  Client.mapM Client.parseAccount accounts s = (Js.Ok (map onChainOf accounts), s).
Proof.
  induction 1 as [| acc rest Hacc _ IH]; [reflexivity |].
  cbn [Client.mapM map]. unfold bind at 1.
  unfold Client.parseAccount at 1. rewrite parseCommitment_run.
  unfold holdsCommitment in Hacc.
  replace (List.length (snd acc) <? 40)%nat with false
    by (symmetry; apply Nat.ltb_ge; exact Hacc).
  unfold ret at 1. unfold bind at 1. rewrite IH. reflexivity.
Qed.

(** [getBalance] up to the scan, on a connected wallet and a well-formed
    enumeration. *)
Lemma getBalance_run (token pk : string) (accounts : list (string * list Byte.byte))
    (s : Session) :
  Secrets.publicKey wallet = Some pk ->
  Client.getProgramAccounts connection = Js.Ok accounts ->
  Forall holdsCommitment accounts ->
  getBalance token s =
  (ownedCommitments <- Secrets.scanCommitments poseidon wallet (map onChainOf accounts)
                         Secrets.COMMON_AMOUNTS 100 ;;
   commitmentsWithTime <- Client.mapM inspectOwned ownedCommitments ;;
   ret (Client.mkBalanceInfo (Client.sumUnspent commitmentsWithTime)
                             (Client.sortCommitments commitmentsWithTime)))%session
    (logEvent (EvRpc "getProgramAccounts") s).
Proof.
  intros Hpk Hacc Hwf.
  unfold Client.getBalance. unfold bind at 1. unfold Client.requireWallet.
  rewrite Hpk. unfold ret at 1. unfold bind at 1. rewrite rpc_run, Hacc.
  unfold bind at 1. rewrite (mapM_parseAccount accounts _ Hwf). reflexivity.
Qed.

End BalanceFacts.

(** X11. After a refusal the balance scan does not fail: every derivation
    error is swallowed, so [getBalance] reports an empty view with a zero
    total, without prompting, whatever the ledger holds. *)
Theorem getBalance_after_rejection (poseidon : list Z -> Z)
    (findProgramAddress : string -> list Byte.byte -> string)
    (connection : Client.Connection) (wallet : Secrets.WalletAdapter)
    (token pk : string) (accounts : list (string * list Byte.byte)) (s : Session) :
  cachedSignature s = None -> signatureRejected s = true ->
  Secrets.publicKey wallet = Some pk ->
  Client.getProgramAccounts connection = Js.Ok accounts ->
  Forall holdsCommitment accounts ->
  fst (Client.getBalance poseidon findProgramAddress connection wallet token s)
  = Js.Ok emptyBalance /\
  prompts (snd (Client.getBalance poseidon findProgramAddress connection wallet token s))
  = prompts s.
Proof.
  intros Hc Hr Hpk Hacc Hwf.
  rewrite (getBalance_run poseidon findProgramAddress connection wallet token pk
             accounts s Hpk Hacc Hwf).
  unfold bind at 1 3.
  destruct (scanCommitments_barren poseidon wallet
              (fun s => cachedSignature s = None /\ signatureRejected s = true) 0
              (deriveSecret_rejected poseidon wallet) Secrets.COMMON_AMOUNTS 100
              (map onChainOf accounts) (logEvent (EvRpc "getProgramAccounts") s)
              (conj Hc Hr))
    as (s' & E & _ & Hp).
  rewrite E. cbn [Client.mapM]. unfold bind, ret. cbn [fst snd].
  split; [reflexivity |]. rewrite Hp. cbn [logEvent prompts]. lia.
Qed.

Lemma getBalance_after_rejection_witness :
  fst (Client.getBalance Demo.toyPoseidon Demo.pda demoLedger rejectingWallet "SOL"
         afterRejection) = Js.Ok emptyBalance.
Proof.
  refine (proj1 (getBalance_after_rejection Demo.toyPoseidon Demo.pda demoLedger
                   rejectingWallet "SOL" "Payer" _ afterRejection
                   eq_refl eq_refl eq_refl eq_refl _)).
  repeat constructor.
Defined.

(** ** What a balance view lists *)

Section ViewFacts.

Variable poseidon : list Z -> Z.
Variable findProgramAddress : string -> list Byte.byte -> string.
Variable connection : Client.Connection.
Variable wallet : Secrets.WalletAdapter.

Local Abbreviation getBalance :=
  (Client.getBalance poseidon findProgramAddress connection wallet).
Local Abbreviation inspectOwned :=
  (Client.inspectOwned poseidon findProgramAddress connection).

(** A condition on sessions that logging and derivations keep. *)
Variable inv : Session -> Prop.
Hypothesis inv_log : forall e s, inv s -> inv (logEvent e s).
Hypothesis inv_derive : forall n amt s,
  inv s -> inv (snd (Secrets.deriveSecret poseidon wallet n amt s)).

Local Abbreviation shown := (listedIn inv poseidon wallet).

Lemma mapM_parseAccount_ok (accounts : list (string * list Byte.byte)) :
  forall s l s',
    Client.mapM Client.parseAccount accounts s = (Js.Ok l, s') ->
    Forall holdsCommitment accounts /\ l = map onChainOf accounts /\ s' = s.
Proof.
  induction accounts as [| acc rest IH]; intros s l s' H.
  - injection H as <- <-. split; [constructor |]. split; reflexivity.
  - cbn [Client.mapM] in H.
    apply bind_ok in H as (y & s1 & Hy & H).
    apply bind_ok in H as (ys & s2 & Hys & H).
    injection H as <- <-.
    apply IH in Hys as (Hwf & -> & ->).
    unfold Client.parseAccount in Hy. rewrite parseCommitment_run in Hy.
    destruct (Nat.ltb_spec (List.length (snd acc)) 40) as [Hlt | Hge];
      [discriminate |].
    injection Hy as <- <-.
    split; [constructor; assumption |]. split; reflexivity.
Qed.

Lemma inspectOwned_record (o : Secrets.Owned) (s : Session) :
  exists t s', inspectOwned o s = (Js.Ok t, s') /\ recordOf o t.
Proof.
  unfold Client.inspectOwned. cbv zeta.
  unfold bind at 1. unfold tryCatch at 1. rewrite rpc_run.
  match goal with
  | |- context [Client.getAccountInfo connection ?pda] =>
      destruct (Client.getAccountInfo connection pda) as [spent | e]
  end.
  - unfold bind at 1. unfold tryCatch at 1. unfold bind at 1. rewrite rpc_run.
    destruct (Client.getSignaturesForAddress connection (Secrets.address o))
      as [sigs | e]; eexists; eexists; (split; [reflexivity |]);
      unfold recordOf; cbn; tauto.
  - unfold ret at 1. unfold bind at 1. unfold tryCatch at 1. unfold bind at 1.
    rewrite rpc_run.
    destruct (Client.getSignaturesForAddress connection (Secrets.address o))
      as [sigs | e']; eexists; eexists; (split; [reflexivity |]);
      unfold recordOf; cbn; tauto.
Qed.

Lemma mapM_inspectOwned (owned : list Secrets.Owned) :
  forall s, exists timed s',
    Client.mapM inspectOwned owned s = (Js.Ok timed, s') /\
    Forall2 recordOf owned timed.
Proof.
  induction owned as [| o rest IH]; intros s.
  - exists [], s. split; [reflexivity | constructor].
  - cbn [Client.mapM]. unfold bind at 1.
    destruct (inspectOwned_record o s) as (t & s1 & E & Hf).
    rewrite E. unfold bind at 1.
    destruct (IH s1) as (ts & s2 & E2 & HF).
    rewrite E2. exists (t :: ts), s2. split; [reflexivity |].
    now constructor.
Qed.

Lemma recorded_sound (Q : Secrets.Owned -> Prop) (owned : list Secrets.Owned)
    (timed : list Client.TimedCommitment) :
  Forall2 recordOf owned timed -> Forall Q owned ->
  Forall (fun t => exists o, Q o /\ recordOf o t) timed.
Proof.
  induction 1 as [| o t owned timed Hot _ IH]; intros HQ; [constructor |].
  inversion HQ; subst. constructor; [now exists o | now apply IH].
Qed.

Lemma recorded_complete (Q : Secrets.Owned -> Prop) (owned : list Secrets.Owned)
    (timed : list Client.TimedCommitment) :
  Forall2 recordOf owned timed -> Exists Q owned ->
  Exists (fun t => exists o, Q o /\ recordOf o t) timed.
Proof.
  induction 1 as [| o t owned timed Hot _ IH]; intros HQ; inversion HQ; subst.
  - left. now exists o.
  - right. now apply IH.
Qed.

Lemma getBalance_sound (token : string) (s s' : Session) (view : Client.V3BalanceInfo) :
  inv s ->
  getBalance token s = (Js.Ok view, s') ->
  exists accounts,
    Client.getProgramAccounts connection = Js.Ok accounts /\
    Forall holdsCommitment accounts /\
    Forall (shown accounts) (Client.commitments view).
Proof.
  intros Hs H. unfold Client.getBalance in H.
  apply bind_ok in H as (pk & s1 & Hpk & H).
  apply requireWallet_run in Hpk. subst s1.
  apply bind_ok in H as (accounts & s2 & Hacc & H).
  rewrite rpc_run in Hacc. injection Hacc as Hacc <-.
  apply bind_ok in H as (onChain & s3 & Hparse & H).
  apply mapM_parseAccount_ok in Hparse as (Hwf & -> & ->).
  apply bind_ok in H as (owned & s4 & Hscan & H).
  apply (scanCommitments_sound poseidon wallet inv inv_derive) in Hscan as [_ Hscan];
    [| now apply inv_log].
  apply bind_ok in H as (timed & s5 & Hins & H).
  injection H as <- _.
  exists accounts. split; [exact Hacc |]. split; [exact Hwf |].
  destruct (mapM_inspectOwned owned s4) as (timed' & s5' & E & HF).
  rewrite E in Hins. injection Hins as <- _.
  cbn [Client.commitments]. unfold Client.sortCommitments.
  apply Forall_map.
  eapply Permutation_Forall; [apply arraySort_perm |].
  eapply Forall_impl; [| exact (recorded_sound _ owned timed' HF Hscan)].
  cbv beta. intros t (o & Ho & Hrec). exists o. split; [exact Ho | exact Hrec].
Qed.

End ViewFacts.

Section NonceFacts.

Variable poseidon : list Z -> Z.
Variable findProgramAddress : string -> list Byte.byte -> string.
Variable connection : Client.Connection.
Variable wallet : Secrets.WalletAdapter.

Local Abbreviation getBalance :=
  (Client.getBalance poseidon findProgramAddress connection wallet).
Local Abbreviation getNextNonce :=
  (Client.getNextNonce poseidon findProgramAddress connection wallet).

Lemma max_nonce_below (bound : nat) (cs : list Client.BalanceRecord) :
  Forall (fun r => (Client.nonce r < bound)%nat) cs ->
  (fold_right Nat.max 0%nat (map Client.nonce cs) <= pred bound)%nat /\
  Forall (fun r => (Client.nonce r <= fold_right Nat.max 0%nat (map Client.nonce cs))%nat) cs.
Proof.
  induction 1 as [| r rest Hr _ [IH1 IH2]]; [split; [cbn; lia | constructor] |].
  cbn [map fold_right]. split; [lia |].
  constructor; [lia |].
  eapply Forall_impl; [| exact IH2]. cbv beta. intros a Ha. lia.
Qed.

Lemma getNextNonce_bounds (s : Session) :
  exists n,
    fst (getNextNonce s) = Js.Ok n /\ (n <= 100)%nat /\
    forall view, fst (getBalance "SOL" s) = Js.Ok view ->
                 Forall (fun r => (Client.nonce r < n)%nat) (Client.commitments view).
Proof.
  unfold Client.getNextNonce, tryCatch. unfold bind at 1.
  destruct (getBalance "SOL" s) as [[view | e] s1] eqn:E.
  - destruct (getBalance_sound poseidon findProgramAddress connection wallet
                anySession (fun _ _ _ => I) (fun _ _ _ _ => I) "SOL" s s1 view I E)
      as (accounts & _ & _ & HF).
    assert (Hlt : Forall (fun r => (Client.nonce r < 100)%nat) (Client.commitments view)).
    { eapply Forall_impl; [| exact HF]. cbv beta.
      intros r (o & (_ & _ & Hn & _) & _ & _ & Hr & _). lia. }
    destruct (max_nonce_below 100 _ Hlt) as [Hmax Hle].
    destruct (Client.commitments view) as [| r rest] eqn:Ecs.
    + exists 0%nat. split; [reflexivity |]. split; [lia |].
      intros view' Hv. injection Hv as <-. rewrite Ecs. constructor.
    + eexists. split; [reflexivity |]. split; [cbn [pred] in Hmax; lia |].
      intros view' Hv. injection Hv as <-. rewrite Ecs.
      eapply Forall_impl; [| exact Hle]. cbv beta. intros a Ha. lia.
  - exists 0%nat. split; [reflexivity |]. split; [lia |].
    intros view Hv. discriminate.
Qed.

End NonceFacts.

Section TiedView.

Variable poseidon : list Z -> Z.
Variable findProgramAddress : string -> list Byte.byte -> string.
Variable connection : Client.Connection.
Variable wallet : Secrets.WalletAdapter.

Local Abbreviation inspectOwned :=
  (Client.inspectOwned poseidon findProgramAddress connection).

(** Looking up the nullifier and the block time leaves the cache alone. *)
Lemma inspectOwned_cache (o : Secrets.Owned) (s : Session) :
  cachedSignature (snd (inspectOwned o s)) = cachedSignature s.
Proof.
  unfold Client.inspectOwned. cbv zeta.
  unfold bind at 1. unfold tryCatch at 1. rewrite rpc_run.
  match goal with
  | |- context [Client.getAccountInfo connection ?pda] =>
      destruct (Client.getAccountInfo connection pda) as [spent | e]
  end.
  - unfold bind at 1. unfold tryCatch at 1. unfold bind at 1. rewrite rpc_run.
    destruct (Client.getSignaturesForAddress connection (Secrets.address o))
      as [sigs | e]; reflexivity.
  - unfold ret at 1. unfold bind at 1. unfold tryCatch at 1. unfold bind at 1.
    rewrite rpc_run.
    destruct (Client.getSignaturesForAddress connection (Secrets.address o))
      as [sigs | e']; reflexivity.
Qed.

Lemma mapM_inspectOwned_cache (owned : list Secrets.Owned) : forall s,
  cachedSignature (snd (Client.mapM inspectOwned owned s)) = cachedSignature s.
Proof.
  induction owned as [| o rest IH]; intros s; [reflexivity |].
  cbn [Client.mapM]. unfold bind at 1.
  pose proof (inspectOwned_cache o s) as Ho.
  destruct (inspectOwned o s) as [[t | e] s1]; cbn [snd] in Ho; [| exact Ho].
  unfold bind at 1. pose proof (IH s1) as Hr.
  destruct (Client.mapM inspectOwned rest s1) as [[ts | e] s2]; unfold ret;
    cbn [snd] in Hr |- *; congruence.
Qed.

Lemma getBalance_tied (token : string) (s s' : Session) (view : Client.V3BalanceInfo) :
  Client.getBalance poseidon findProgramAddress connection wallet token s
  = (Js.Ok view, s') ->
  exists accounts,
    Client.getProgramAccounts connection = Js.Ok accounts /\
    Forall (listedUnder poseidon (cachedSignature s') accounts) (Client.commitments view).
Proof.
  intros H. unfold Client.getBalance in H.
  apply bind_ok in H as (pk & s1 & Hpk & H).
  apply bind_ok in H as (accounts & s2 & Hacc & H).
  rewrite rpc_run in Hacc. injection Hacc as Hacc _.
  apply bind_ok in H as (onChain & s3 & Hparse & H).
  apply mapM_parseAccount_ok in Hparse as (Hwf & -> & ->).
  apply bind_ok in H as (owned & s4 & Hscan & H).
  apply scanCommitments_tied in Hscan.
  apply bind_ok in H as (timed & s5 & Hins & H).
  injection H as <- <-.
  pose proof (mapM_inspectOwned_cache owned s4) as Hcache. rewrite Hins in Hcache.
  cbn [snd] in Hcache. rewrite Hcache.
  exists accounts. split; [exact Hacc |].
  destruct (mapM_inspectOwned poseidon findProgramAddress connection owned s4)
    as (timed' & s5' & E & HF).
  rewrite E in Hins. injection Hins as <- _.
  cbn [Client.commitments]. unfold Client.sortCommitments.
  apply Forall_map.
  eapply Permutation_Forall; [apply arraySort_perm |].
  eapply Forall_impl; [| exact (recorded_sound _ owned timed' HF Hscan)].
  cbv beta. intros t (o & (Hin & Ha & Hn & sig & Hc & _ & Hcm) & R1 & R2 & R3 & R4).
  split; [| split].
  - apply in_map_iff in Hin as (acc & Hacc' & Hin).
    exists acc. split; [exact Hin |].
    rewrite R4, R1.
    apply (f_equal Secrets.oc_address) in Hacc' as Haddr.
    apply (f_equal Secrets.oc_commitment) in Hacc'.
    cbn [Secrets.oc_address Secrets.oc_commitment] in Haddr, Hacc'.
    rewrite <- Haddr, <- Hacc'. split; reflexivity.
  - now rewrite R3.
  - exists (Secrets.amount o), sig.
    split; [exact Ha |]. split; [exact R2 |]. split; [exact Hc |].
    now rewrite R1, R3.
Qed.

End TiedView.

(** X12. A balance view lists nothing but commitments of the session: each
    record carries the address and commitment of an enumerated account, one
    of the nine amounts and a slot below 100, and its commitment is the one
    that the signature the session holds after the scan gives for that
    amount and slot. *)
Theorem getBalance_lists_only_candidates (poseidon : list Z -> Z)
    (findProgramAddress : string -> list Byte.byte -> string)
    (connection : Client.Connection) (wallet : Secrets.WalletAdapter)
    (token : string) (s : Session) (view : Client.V3BalanceInfo) :
  fst (Client.getBalance poseidon findProgramAddress connection wallet token s)
  = Js.Ok view ->
  exists accounts,
    Client.getProgramAccounts connection = Js.Ok accounts /\
    Forall (listedUnder poseidon
              (cachedSignature
                 (snd (Client.getBalance poseidon findProgramAddress connection wallet
                         token s)))
              accounts)
           (Client.commitments view).
Proof.
  intros H.
  destruct (Client.getBalance poseidon findProgramAddress connection wallet token s)
    as [r s'] eqn:E.
  cbn [fst] in H. subst r. cbn [snd].
  exact (getBalance_tied poseidon findProgramAddress connection wallet token s s' view E).
Qed.

Lemma getBalance_lists_only_candidates_witness :
  exists accounts,
    Client.getProgramAccounts demoLedger = Js.Ok accounts /\
    Forall (listedUnder Demo.toyPoseidon (Some Demo.signature) accounts) [demoRecord].
Proof.
  destruct (getBalance_lists_only_candidates Demo.toyPoseidon Demo.pda demoLedger
              Demo.wallet "SOL" Demo.session
              (Client.mkBalanceInfo (50000000 # 1000000000) [demoRecord])
              ltac:(vm_compute; reflexivity)) as (accounts & Hacc & HF).
  exists accounts. split; [exact Hacc |].
  assert (Hc : cachedSignature
                 (snd (Client.getBalance Demo.toyPoseidon Demo.pda demoLedger
                         Demo.wallet "SOL" Demo.session)) = Some Demo.signature)
    by (vm_compute; reflexivity).
  rewrite Hc in HF. exact HF.
Defined.

(** X13. [getNextNonce] never throws. Its answer is at most 100 and lies
    above every slot of the balance view, spent records included; it is 0
    when the view is empty or cannot be had. *)
Theorem getNextNonce_above_view (poseidon : list Z -> Z)
    (findProgramAddress : string -> list Byte.byte -> string)
    (connection : Client.Connection) (wallet : Secrets.WalletAdapter) (s : Session) :
  exists n,
    fst (Client.getNextNonce poseidon findProgramAddress connection wallet s)
    = Js.Ok n /\
    (n <= 100)%nat /\
    (forall view,
       fst (Client.getBalance poseidon findProgramAddress connection wallet "SOL" s)
       = Js.Ok view ->
       Forall (fun r => (Client.nonce r < n)%nat) (Client.commitments view)) /\
    ((forall view,
        fst (Client.getBalance poseidon findProgramAddress connection wallet "SOL" s)
        = Js.Ok view -> Client.commitments view = []) ->
     n = 0%nat).
Proof.
  destruct (getNextNonce_bounds poseidon findProgramAddress connection wallet s)
    as (n & E & Hn & HF).
  exists n. split; [exact E |]. split; [exact Hn |]. split; [exact HF |].
  intros Hempty.
  unfold Client.getNextNonce, tryCatch in E. unfold bind at 1 in E.
  destruct (Client.getBalance poseidon findProgramAddress connection wallet "SOL" s)
    as [[view | e] s1].
  - rewrite (Hempty view eq_refl) in E. cbn in E. congruence.
  - cbn in E. congruence.
Qed.


Lemma getNextNonce_above_view_witness :
  exists n,
    fst (Client.getNextNonce Demo.toyPoseidon Demo.pda demoLedger Demo.wallet
           Demo.session) = Js.Ok n /\ (n <= 100)%nat.
Proof.
  destruct (getNextNonce_above_view Demo.toyPoseidon Demo.pda demoLedger Demo.wallet
              Demo.session) as (n & E & Hn & _).
  exists n. split; assumption.
Defined.

(** ** The reach of the scan *)

Lemma inScanRangeb_spec (poseidon : list Z -> Z) (sig : list Byte.byte) (c : Z) :
  inScanRange poseidon sig c -> inScanRangeb poseidon sig c = true.
Proof.
  intros (amt & n & Ha & Hn & Hc). unfold inScanRangeb.
  apply existsb_exists. exists amt. split; [exact Ha |].
  apply existsb_exists. exists n. split; [apply in_seq; lia | now apply Z.eqb_eq].
Qed.

Lemma listedIn_cached (poseidon : list Z -> Z) (wallet : Secrets.WalletAdapter)
    (sig : list Byte.byte) (accounts : list (string * list Byte.byte))
    (r : Client.BalanceRecord) :
  sig <> [] -> listedIn (caches sig) poseidon wallet accounts r ->
  inScanRange poseidon sig (Client.commitment r).
Proof.
  intros Hne (o & (_ & Ha & Hn & Hp & s0 & Hs0 & Hd) & Hc & _).
  exists (Secrets.amount o), (Secrets.nonce o).
  split; [exact Ha |]. split; [exact Hn |].
  rewrite (cached_deriveSecret poseidon wallet s0 sig _ _ Hs0 Hne) in Hd.
  cbn [fst] in Hd.
  unfold candidateAt, Proofs.computeCommitment, secretAt.
  congruence.
Qed.

(** X14. With the signature cached, every commitment a balance view lists
    is one of the 900 the signature gives for the nine amounts and the
    slots 0 to 99; a commitment outside them, such as a deposit of another
    amount or at a slot of 100 or more, is in no record. *)
Theorem getBalance_reach (poseidon : list Z -> Z)
    (findProgramAddress : string -> list Byte.byte -> string)
    (connection : Client.Connection) (wallet : Secrets.WalletAdapter)
    (sig : list Byte.byte) (token : string) (s : Session)
    (view : Client.V3BalanceInfo) :
  sig <> [] -> cachedSignature s = Some sig ->
  fst (Client.getBalance poseidon findProgramAddress connection wallet token s)
  = Js.Ok view ->
  Forall (fun r => inScanRange poseidon sig (Client.commitment r))
         (Client.commitments view) /\
  forall c, inScanRangeb poseidon sig c = false ->
            Forall (fun r => Client.commitment r <> c) (Client.commitments view).
Proof.
  intros Hne Hc H.
  destruct (Client.getBalance poseidon findProgramAddress connection wallet token s)
    as [res s'] eqn:E.
  cbn [fst] in H. subst res.
  assert (Hderive : forall n amt s0,
             caches sig s0 ->
             caches sig (snd (Secrets.deriveSecret poseidon wallet n amt s0))).
  { intros n amt s0 H0.
    now rewrite (cached_deriveSecret poseidon wallet s0 sig n amt H0 Hne). }
  destruct (getBalance_sound poseidon findProgramAddress connection wallet
              (caches sig) (fun _ _ H0 => H0) Hderive token s s' view Hc E)
    as (accounts & _ & _ & HF).
  assert (HR : Forall (fun r => inScanRange poseidon sig (Client.commitment r))
                      (Client.commitments view)).
  { eapply Forall_impl; [| exact HF]. intros r Hr.
    exact (listedIn_cached poseidon wallet sig accounts r Hne Hr). }
  split; [exact HR |].
  intros c Hout. eapply Forall_impl; [| exact HR]. cbv beta.
  intros r Hr Heq. rewrite Heq in Hr. apply inScanRangeb_spec in Hr. congruence.
Qed.

Lemma getBalance_reach_witness :
  Forall (fun r => Client.commitment r <> Demo.candidate 20000000 1) [demoRecord].
Proof.
  refine (proj2 (getBalance_reach Demo.toyPoseidon Demo.pda oddLedger Demo.wallet
                   Demo.signature "SOL" Demo.session
                   (Client.mkBalanceInfo (50000000 # 1000000000) [demoRecord])
                   _ eq_refl _) (Demo.candidate 20000000 1) _).
  - discriminate.
  - vm_compute. reflexivity.
  - vm_compute. reflexivity.
Defined.

(** ** Deposits in the view *)

Section OwnDeposits.

Variable poseidon : list Z -> Z.
Variable findProgramAddress : string -> list Byte.byte -> string.
Variable connection : Client.Connection.
Variable wallet : Secrets.WalletAdapter.
Variable sig : list Byte.byte.
Hypothesis sig_nonempty : sig <> [].

Lemma commitment_slice (discriminator rest : list Byte.byte) (v : Z) :
  List.length discriminator = 8%nat ->
  firstn 32 (skipn 8 (discriminator ++ Client.toBytes32 v ++ rest)) = Client.toBytes32 v.
Proof.
  intros Hd.
  rewrite skipn_app, Hd, Nat.sub_diag.
  rewrite (skipn_all2 discriminator) by lia. rewrite skipn_O, app_nil_l.
  rewrite firstn_app, toBytes32_length, Nat.sub_diag. rewrite firstn_O.
  rewrite app_nil_r.
  apply firstn_all2. rewrite toBytes32_length. lia.
Qed.

Lemma onChainOf_deposit (addr : string) (discriminator rest : list Byte.byte) (c : Z) :
  List.length discriminator = 8%nat -> 0 <= c < 2 ^ 256 ->
  onChainOf (addr, discriminator ++ Client.toBytes32 c ++ rest) = Secrets.mkOnChain c addr.
Proof.
  intros Hd Hc. unfold onChainOf.
  replace (snd (addr, discriminator ++ Client.toBytes32 c ++ rest))
    with (discriminator ++ Client.toBytes32 c ++ rest) by reflexivity.
  replace (fst (addr, discriminator ++ Client.toBytes32 c ++ rest))
    with addr by reflexivity.
  rewrite (commitment_slice discriminator rest c Hd).
  rewrite toBytes32_value. rewrite Z.mod_small by exact Hc. reflexivity.
Qed.

Lemma getBalance_finds (token pk : string)
    (accounts : list (string * list Byte.byte)) (acc : string * list Byte.byte)
    (amt : Z) (n : nat) (s : Session) :
  cachedSignature s = Some sig ->
  Secrets.publicKey wallet = Some pk ->
  Client.getProgramAccounts connection = Js.Ok accounts ->
  Forall holdsCommitment accounts ->
  In acc accounts ->
  In amt Secrets.COMMON_AMOUNTS -> (n < 100)%nat ->
  candidateAt poseidon amt sig n = Secrets.oc_commitment (onChainOf acc) ->
  exists view,
    fst (Client.getBalance poseidon findProgramAddress connection wallet token s)
    = Js.Ok view /\
    Exists (fun r => Client.commitment r = Secrets.oc_commitment (onChainOf acc) /\
                     Client.address r = fst acc /\
                     Client.amount r = Client.toSOL amt /\
                     (Client.nonce r <= n)%nat)
           (Client.commitments view).
Proof.
  intros Hc Hpk Hacc Hwf Hin Ha Hn Hcand.
  rewrite (getBalance_run poseidon findProgramAddress connection wallet token pk
             accounts s Hpk Hacc Hwf).
  unfold bind at 1.
  destruct (scanCommitments_hit poseidon wallet sig sig_nonempty (onChainOf acc) amt n
              100 Secrets.COMMON_AMOUNTS (map onChainOf accounts)
              (logEvent (EvRpc "getProgramAccounts") s) Hc
              (in_map onChainOf accounts acc Hin) Ha Hn Hcand)
    as (found & s1 & E & _ & Hex).
  rewrite E. unfold bind at 1.
  destruct (mapM_inspectOwned poseidon findProgramAddress connection found s1)
    as (timed & s2 & E2 & HF).
  rewrite E2. cbn [ret fst Client.commitments].
  exists (Client.mkBalanceInfo (Client.sumUnspent timed) (Client.sortCommitments timed)).
  split; [reflexivity |]. cbn [Client.commitments].
  unfold Client.sortCommitments.
  apply Exists_exists.
  pose proof (recorded_complete _ found timed HF Hex) as Ht.
  apply Exists_exists in Ht as (t & Htin & o & Ho & Hrec).
  exists (Client.tc_record t). split.
  - apply in_map. eapply Permutation_in; [apply arraySort_perm | exact Htin].
  - destruct Ho as (H1 & H2 & H3 & H4 & _). destruct Hrec as (R1 & R2 & R3 & R4).
    cbn [onChainOf Secrets.oc_address fst] in H2.
    rewrite R1, R2, R3, R4, H1, H2, H3. repeat split; try reflexivity. exact H4.
Qed.

End OwnDeposits.

(** X15. With the signature cached, a deposit the wallet made shows in the
    balance view: if the enumeration holds an account whose data carries,
    after the 8-byte discriminator, the 32 bytes of the commitment the
    signature gives for one of the nine amounts at a slot below 100, the
    view has a record of that commitment, address and amount, at that slot
    or an earlier one giving the same commitment. *)
Theorem getBalance_lists_own_deposit (poseidon : list Z -> Z)
    (findProgramAddress : string -> list Byte.byte -> string)
    (connection : Client.Connection) (wallet : Secrets.WalletAdapter)
    (sig : list Byte.byte) (token pk addr : string)
    (accounts : list (string * list Byte.byte))
    (discriminator rest : list Byte.byte) (amt : Z) (n : nat) (s : Session) :
  sig <> [] -> cachedSignature s = Some sig ->
  Secrets.publicKey wallet = Some pk ->
  Client.getProgramAccounts connection = Js.Ok accounts ->
  Forall holdsCommitment accounts ->
  In (addr, discriminator ++ Client.toBytes32 (candidateAt poseidon amt sig n) ++ rest)
     accounts ->
  List.length discriminator = 8%nat ->
  0 <= candidateAt poseidon amt sig n < 2 ^ 256 ->
  In amt Secrets.COMMON_AMOUNTS -> (n < 100)%nat ->
  exists view,
    fst (Client.getBalance poseidon findProgramAddress connection wallet token s)
    = Js.Ok view /\
    Exists (fun r => Client.commitment r = candidateAt poseidon amt sig n /\
                     Client.address r = addr /\
                     Client.amount r = Client.toSOL amt /\
                     (Client.nonce r <= n)%nat)
           (Client.commitments view).
Proof.
  intros Hne Hc Hpk Hacc Hwf Hin Hd Hrange Ha Hn.
  pose proof (onChainOf_deposit addr discriminator rest _ Hd Hrange) as Hon.
  assert (Hcand : candidateAt poseidon amt sig n =
                  Secrets.oc_commitment
                    (onChainOf (addr, discriminator
                                        ++ Client.toBytes32 (candidateAt poseidon amt sig n)
                                        ++ rest))).
  { rewrite Hon. reflexivity. }
  destruct (getBalance_finds poseidon findProgramAddress connection wallet sig Hne
              token pk accounts _ amt n s Hc Hpk Hacc Hwf Hin Ha Hn Hcand)
    as (view & Hv & Hex).
  exists view. split; [exact Hv |].
  rewrite Hon in Hex. exact Hex.
Qed.

Lemma getBalance_lists_own_deposit_witness :
  exists view,
    fst (Client.getBalance Demo.toyPoseidon Demo.pda demoLedger Demo.wallet "SOL"
           Demo.session) = Js.Ok view /\
    Exists (fun r => Client.commitment r
                     = candidateAt Demo.toyPoseidon 50000000 Demo.signature 0 /\
                     Client.address r = "A"%string /\
                     Client.amount r = Client.toSOL 50000000 /\
                     (Client.nonce r <= 0)%nat)
           (Client.commitments view).
Proof.
  apply (getBalance_lists_own_deposit Demo.toyPoseidon Demo.pda demoLedger Demo.wallet
           Demo.signature "SOL" "Payer" "A"
           [("A"%string, Demo.accountData (Demo.candidate 50000000 0))]
           (repeat Byte.x00 8) (repeat Byte.x00 41) 50000000 0 Demo.session).
  - discriminate.
  - reflexivity.
  - reflexivity.
  - reflexivity.
  - repeat constructor.
  - left. reflexivity.
  - reflexivity.
  - vm_compute. split; [discriminate | reflexivity].
  - right. left. reflexivity.
  - lia.
Defined.

(** ** What the builders send *)

Section BuilderTraffic.

Variable poseidon : list Z -> Z.
Variable randomBytes : nat -> list Byte.byte.
Variable findProgramAddress : string -> list Byte.byte -> string.
Variable associatedTokenAddress : string -> string -> string.
Variable connection : Client.Connection.
Variable wallet : Secrets.WalletAdapter.

Variable P : Event -> Prop.
Hypothesis P_sign : P EvSignMessage.
Hypothesis P_derive : forall n a, P (EvDerive n a).
Hypothesis P_rpc : forall m, P (EvRpc m).

Lemma Emits_bind_throw (A B : Type) (e : Js.JsError) (k : A -> M B) :
  Emits P (bind (throw e) k).
Proof. intros s. exists []. split; [reflexivity | constructor]. Qed.

(** A transaction goes out only after its simulation passed. *)
Lemma Emits_simulateAndSend_passed (tx : Tx) :
  (passed connection tx -> P (EvSend tx)) ->
  Emits P (Client.simulateAndSend connection tx).
Proof.
  intros Htx. unfold Client.simulateAndSend.
  apply Emits_bind; [apply Emits_rpc; exact P_rpc | intros _].
  intros s. unfold bind at 1. rewrite rpc_run.
  destruct (Client.simulateTransaction connection tx) as [[err | ] | e] eqn:Hsim.
  - exists [EvRpc "simulateTransaction"]. split; [reflexivity |].
    constructor; [apply P_rpc | constructor].
  - assert (Hsend : Emits P
              (bind (Client.send (Client.sendTransaction connection) tx)
                    (fun signature =>
                       bind (Client.rpc "confirmTransaction"
                               (Client.confirmTransaction connection signature))
                            (fun _ => ret signature)))).
    { apply Emits_bind.
      - intros s0. rewrite send_run. exists [EvSend tx].
        split; [reflexivity |]. constructor; [now apply Htx | constructor].
      - intros signature. apply Emits_bind; [apply Emits_rpc; exact P_rpc |].
        intros _. apply Emits_ret. }
    destruct (Hsend (logEvent (EvRpc "simulateTransaction") s)) as (d & Hd & HF).
    exists (d ++ [EvRpc "simulateTransaction"]). split.
    + rewrite Hd. cbn [logEvent trace]. now rewrite <- app_assoc.
    + apply Forall_app. split; [exact HF |].
      constructor; [apply P_rpc | constructor].
  - exists [EvRpc "simulateTransaction"]. split; [reflexivity |].
    constructor; [apply P_rpc | constructor].
Qed.

Lemma Emits_slotStep (amt : Z) (st : Client.SlotState) :
  Emits P (Client.slotStep poseidon findProgramAddress connection wallet amt st).
Proof.
  unfold Client.slotStep.
  apply Emits_bind; [apply Emits_rpc; exact P_rpc | intros accountExists].
  destruct accountExists; [| apply Emits_ret].
  apply Emits_bind; [now apply Emits_deriveSecret | intros secret'].
  apply Emits_ret.
Qed.

Lemma Emits_slotLoop (amt : Z) (fuel : nat) : forall st,
  Emits P (Client.slotLoop poseidon findProgramAddress connection wallet fuel amt st).
Proof.
  induction fuel as [| fuel IH]; intros st; [apply Emits_ret |].
  cbn [Client.slotLoop].
  destruct (Client.commitmentExists st && (Client.attempts st <? Client.maxAttempts)%nat);
    [| apply Emits_ret].
  apply Emits_bind; [apply Emits_slotStep | exact IH].
Qed.

Lemma Emits_chooseSlot (amt : Z) :
  Emits P (Client.chooseSlot poseidon findProgramAddress connection wallet amt).
Proof.
  unfold Client.chooseSlot.
  apply Emits_bind; [now apply Emits_getNextNonce | intros nonce0].
  apply Emits_bind; [now apply Emits_deriveSecret | intros secret0].
  cbv zeta.
  apply Emits_bind; [apply Emits_slotLoop | intros st].
  destruct (Client.maxAttempts <=? Client.attempts st)%nat;
    [apply Emits_throw | apply Emits_ret].
Qed.

Hypothesis P_deposit : forall tx,
  (match tx with TxDeposit _ _ _ _ _ => True | _ => False end) ->
  passed connection tx -> P (EvSend tx).

Lemma Emits_deposit_passed (params : Client.V3DepositParams) :
  Emits P (Client.deposit poseidon findProgramAddress associatedTokenAddress
             connection wallet params).
Proof.
  unfold Client.deposit.
  apply Emits_bind; [apply Emits_requireWallet | intros signer]. cbv zeta.
  apply Emits_bind; [apply Emits_getTokenMint | intros tokenMint].
  apply Emits_bind; [apply Emits_chooseSlot | intros st].
  apply Emits_simulateAndSend_passed. now apply P_deposit.
Qed.

End BuilderTraffic.

(** X16. [deposit] hands the wallet nothing but a deposit transaction, and
    only one whose simulation found no error: when the simulation reports
    an error or throws, nothing is sent. *)
Theorem deposit_sends_only_simulated (poseidon : list Z -> Z)
    (findProgramAddress : string -> list Byte.byte -> string)
    (associatedTokenAddress : string -> string -> string)
    (connection : Client.Connection) (wallet : Secrets.WalletAdapter)
    (params : Client.V3DepositParams) :
  Emits (depositTraffic connection)
        (Client.deposit poseidon findProgramAddress associatedTokenAddress
           connection wallet params).
Proof.
  apply Emits_deposit_passed; try (intros; exact I).
  intros tx Htx Hp. destruct tx; try contradiction. exact Hp.
Qed.

Section WithdrawTraffic.

Variable poseidon : list Z -> Z.
Variable randomBytes : nat -> list Byte.byte.
Variable findProgramAddress : string -> list Byte.byte -> string.
Variable associatedTokenAddress : string -> string -> string.
Variable connection : Client.Connection.
Variable wallet : Secrets.WalletAdapter.

Variable P : Event -> Prop.
Hypothesis P_sign : P EvSignMessage.
Hypothesis P_derive : forall n a, P (EvDerive n a).
Hypothesis P_rpc : forall m, P (EvRpc m).
Hypothesis P_create : forall payer ata owner mint,
  P (EvSend (TxCreateAta payer ata owner mint)).
Hypothesis P_withdraw : forall tx,
  (match tx with
   | TxWithdraw _ _ _ _ _ | TxWithdrawWithChange _ _ _ _ _ _ _ => True
   | _ => False
   end) ->
  passed connection tx -> P (EvSend tx).

Lemma Emits_ensureRecipientAccount_create (signer rta recipient mint : string) :
  Emits P (Client.ensureRecipientAccount connection signer rta recipient mint).
Proof.
  unfold Client.ensureRecipientAccount.
  apply Emits_bind; [apply Emits_rpc; exact P_rpc | intros accountExists].
  destruct accountExists; [apply Emits_ret |]. cbv zeta.
  apply Emits_bind; [apply Emits_rpc; exact P_rpc | intros _].
  apply Emits_tryCatch; [| intros e; apply Emits_throw].
  apply Emits_bind; [| intros createSig; apply Emits_rpc; exact P_rpc].
  intros s. rewrite send_run. eexists [_]. split; [reflexivity |].
  constructor; [apply P_create | constructor].
Qed.

Lemma Emits_simpleWithdraw_passed (nullifier amt : Z) (mint rta recipient : string) :
  Emits P (Client.simpleWithdraw findProgramAddress associatedTokenAddress connection
             wallet nullifier amt mint rta recipient).
Proof.
  unfold Client.simpleWithdraw.
  apply Emits_bind; [apply Emits_requireWallet | intros signer].
  apply Emits_bind; [apply Emits_ensureRecipientAccount_create | intros _]. cbv zeta.
  apply Emits_simulateAndSend_passed; [exact P_rpc |]. now apply P_withdraw.
Qed.

Lemma Emits_withdrawWithChange_passed (old : Client.BalanceRecord)
    (oldSecret oldNullifier amt change : Z) (mint rta recipient : string) :
  Emits P (Client.withdrawWithChange poseidon randomBytes findProgramAddress
             associatedTokenAddress connection wallet old oldSecret oldNullifier
             amt change mint rta recipient).
Proof.
  unfold Client.withdrawWithChange.
  apply Emits_bind; [apply Emits_requireWallet | intros signer].
  apply Emits_bind; [apply Emits_ensureRecipientAccount_create | intros _].
  apply Emits_bind; [apply Emits_generateRandomSecret | intros newSecret]. cbv zeta.
  apply Emits_simulateAndSend_passed; [exact P_rpc |]. now apply P_withdraw.
Qed.

Lemma Emits_withdraw_passed (params : Client.V3WithdrawParams) :
  Emits P (Client.withdraw poseidon randomBytes findProgramAddress
             associatedTokenAddress connection wallet params).
Proof.
  unfold Client.withdraw.
  apply Emits_bind; [apply Emits_requireWallet | intros signer]. cbv zeta.
  apply Emits_bind; [now apply Emits_getBalance | intros balance].
  destruct (Client.commitments balance) as [| c0 cs]; [apply Emits_throw |].
  destruct (find _ _) as [selected |]; [| apply Emits_throw].
  apply Emits_bind; [now apply Emits_deriveSecret | intros secret].
  apply Emits_bind; [apply Emits_getTokenMint | intros tokenMint].
  destruct (0 <? _);
    [apply Emits_withdrawWithChange_passed | apply Emits_simpleWithdraw_passed].
Qed.

End WithdrawTraffic.

(** X17. [withdraw] hands the wallet a withdrawal only after its
    simulation found no error; the one transaction it sends without
    simulating is the creation of the recipient's token account. It sends
    no deposit and calls no prover. *)
Theorem withdraw_sends_only_simulated (poseidon : list Z -> Z)
    (randomBytes : nat -> list Byte.byte)
    (findProgramAddress : string -> list Byte.byte -> string)
    (associatedTokenAddress : string -> string -> string)
    (connection : Client.Connection) (wallet : Secrets.WalletAdapter)
    (params : Client.V3WithdrawParams) :
  Emits (withdrawTraffic connection)
        (Client.withdraw poseidon randomBytes findProgramAddress
           associatedTokenAddress connection wallet params).
Proof.
  apply Emits_withdraw_passed; try (intros; exact I).
  intros tx Htx Hp. destruct tx; try contradiction; exact Hp.
Qed.

(** ** Tokens *)

Section TokenFacts.

Variable poseidon : list Z -> Z.
Variable randomBytes : nat -> list Byte.byte.
Variable findProgramAddress : string -> list Byte.byte -> string.
Variable associatedTokenAddress : string -> string -> string.
Variable connection : Client.Connection.
Variable wallet : Secrets.WalletAdapter.
Variable token : string.
Hypothesis not_SOL : token <> "SOL"%string.

Lemma getTokenMint_unsupported (s : Session) :
  Client.getTokenMint token s = (Js.Err (unsupportedToken token), s).
Proof.
  unfold Client.getTokenMint.
  destruct (String.eqb_spec token "SOL") as [E | _]; [contradiction | reflexivity].
Qed.

Lemma deposit_unsupported (amount : Q) (pk : string) (s : Session) :
  Secrets.publicKey wallet = Some pk ->
  Client.deposit poseidon findProgramAddress associatedTokenAddress connection wallet
    (Client.mkDepositParams amount token) s
  = (Js.Err (unsupportedToken token), s).
Proof.
  intros Hpk. unfold Client.deposit, Client.requireWallet. rewrite Hpk.
  unfold bind at 1. unfold ret at 1. cbv zeta. unfold bind at 1.
  cbn [Client.dp_token]. now rewrite getTokenMint_unsupported.
Qed.

Lemma withdraw_unsupported_fails (amount : Q) (recipient : option string) (s : Session) :
  exists e,
    fst (Client.withdraw poseidon randomBytes findProgramAddress associatedTokenAddress
           connection wallet (Client.mkWithdrawParams amount token recipient) s)
    = Js.Err e.
Proof.
  unfold Client.withdraw. cbv zeta. cbn [Client.wp_token Client.wp_amount].
  unfold bind at 1.
  destruct (Client.requireWallet wallet s) as [[signer | e] s0]; [| now exists e].
  unfold bind at 1.
  destruct (Client.getBalance poseidon findProgramAddress connection wallet token s0)
    as [[balance | e] s1]; [| now exists e].
  destruct (Client.commitments balance) as [| c0 cs]; [eexists; reflexivity |].
  destruct (find _ _) as [selected |]; [| eexists; reflexivity].
  unfold bind at 1.
  destruct (Secrets.deriveSecret poseidon wallet _ _ s1) as [[secret | e] s2];
    [| now exists e].
  unfold bind at 1. rewrite getTokenMint_unsupported. eexists; reflexivity.
Qed.

Lemma Emits_withdraw_unsupported (amount : Q) (recipient : option string) :
  Emits noSend
    (Client.withdraw poseidon randomBytes findProgramAddress associatedTokenAddress
       connection wallet (Client.mkWithdrawParams amount token recipient)).
Proof.
  unfold Client.withdraw. cbv zeta. cbn [Client.wp_token Client.wp_amount].
  apply Emits_bind; [apply Emits_requireWallet | intros signer].
  apply Emits_bind;
    [apply Emits_getBalance; intros; exact I | intros balance].
  destruct (Client.commitments balance) as [| c0 cs]; [apply Emits_throw |].
  destruct (find _ _) as [selected |]; [| apply Emits_throw].
  apply Emits_bind; [apply Emits_deriveSecret; intros; exact I | intros secret].
  intros s. unfold bind. rewrite getTokenMint_unsupported.
  exists []. split; [reflexivity | constructor].
Qed.

End TokenFacts.

(** X18. A token other than SOL is refused by [deposit] before any
    traffic, the session left as it was. [withdraw] refuses it too and
    sends nothing, but only after the ledger scan: the token is looked at
    after a commitment has been selected. *)
Theorem unsupported_token_refused (poseidon : list Z -> Z)
    (randomBytes : nat -> list Byte.byte)
    (findProgramAddress : string -> list Byte.byte -> string)
    (associatedTokenAddress : string -> string -> string)
    (connection : Client.Connection) (wallet : Secrets.WalletAdapter)
    (token pk : string) (amount : Q) (recipient : option string) (s : Session) :
  token <> "SOL"%string -> Secrets.publicKey wallet = Some pk ->
  Client.deposit poseidon findProgramAddress associatedTokenAddress connection wallet
    (Client.mkDepositParams amount token) s
  = (Js.Err (unsupportedToken token), s) /\
  (exists e,
     fst (Client.withdraw poseidon randomBytes findProgramAddress associatedTokenAddress
            connection wallet (Client.mkWithdrawParams amount token recipient) s)
     = Js.Err e) /\
  Emits noSend
    (Client.withdraw poseidon randomBytes findProgramAddress associatedTokenAddress
       connection wallet (Client.mkWithdrawParams amount token recipient)).
Proof.
  intros Htok Hpk. split; [| split].
  - now apply deposit_unsupported with (pk := pk).
  - now apply withdraw_unsupported_fails.
  - now apply Emits_withdraw_unsupported.
Qed.

Lemma unsupported_token_refused_witness :
  Client.deposit Demo.toyPoseidon Demo.pda Demo.ata demoLedger Demo.wallet
    (Client.mkDepositParams (1 # 10) "USDC") Demo.session
  = (Js.Err (unsupportedToken "USDC"), Demo.session).
Proof.
  refine (proj1 (unsupported_token_refused Demo.toyPoseidon Demo.randomBytes Demo.pda
                   Demo.ata demoLedger Demo.wallet "USDC" "Payer" (1 # 10) None
                   Demo.session _ eq_refl)).
  discriminate.
Defined.

(** ** The recipient's token account *)

Section RecipientFacts.

Variable poseidon : list Z -> Z.
Variable randomBytes : nat -> list Byte.byte.
Variable findProgramAddress : string -> list Byte.byte -> string.
Variable associatedTokenAddress : string -> string -> string.
Variable connection : Client.Connection.
Variable wallet : Secrets.WalletAdapter.

Lemma ensureRecipientAccount_fails (signer rta recipient mint bh : string)
    (e : Js.JsError) (s : Session) :
  Client.getAccountInfo connection rta = Js.Ok false ->
  Client.getLatestBlockhash connection = Js.Ok bh ->
  creationFails connection (TxCreateAta signer rta recipient mint) e ->
  exists s',
    Client.ensureRecipientAccount connection signer rta recipient mint s
    = (Js.Err (creationFailed e), s') /\
    randomDraws s' = randomDraws s /\
    exists d, trace s' = d ++ trace s /\
              Forall (fun ev => forall tx, ev = EvSend tx ->
                                  tx = TxCreateAta signer rta recipient mint) d.
Proof.
  intros Hinfo Hbh Hfail. unfold Client.ensureRecipientAccount.
  unfold bind at 1. rewrite rpc_run, Hinfo. cbv zeta.
  unfold bind at 1. rewrite rpc_run, Hbh.
  unfold tryCatch. unfold bind at 1. rewrite send_run.
  destruct Hfail as [Hsend | (createSig & Hsend & Hconf)]; rewrite Hsend.
  - eexists. split; [reflexivity |]. split; [reflexivity |].
    eexists [_; _; _]. split; [reflexivity |].
    repeat constructor; intros tx Htx; congruence.
  - rewrite rpc_run, Hconf.
    eexists. split; [reflexivity |]. split; [reflexivity |].
    eexists [_; _; _; _]. split; [reflexivity |].
    repeat constructor; intros tx Htx; congruence.
Qed.

End RecipientFacts.

(** X19. When the recipient has no token account and its creation fails,
    at sending or at confirmation, with an error that carries a message,
    both withdrawal builders fail with "Failed to create recipient token
    account: " followed by that message; nothing but the creation has been
    sent, and no change secret has been drawn. *)
Theorem recipient_account_failure (poseidon : list Z -> Z)
    (randomBytes : nat -> list Byte.byte)
    (findProgramAddress : string -> list Byte.byte -> string)
    (associatedTokenAddress : string -> string -> string)
    (connection : Client.Connection) (wallet : Secrets.WalletAdapter)
    (signer rta recipient mint bh : string) (e : Js.JsError)
    (old : Client.BalanceRecord) (secret nullifier amt change : Z) (s : Session) :
  Secrets.publicKey wallet = Some signer ->
  Client.getAccountInfo connection rta = Js.Ok false ->
  Client.getLatestBlockhash connection = Js.Ok bh ->
  creationFails connection (TxCreateAta signer rta recipient mint) e ->
  Js.message e <> ""%string ->
  stoppedAtCreation (TxCreateAta signer rta recipient mint) e s
    (Client.simpleWithdraw findProgramAddress associatedTokenAddress connection
       wallet nullifier amt mint rta recipient s) /\
  stoppedAtCreation (TxCreateAta signer rta recipient mint) e s
    (Client.withdrawWithChange poseidon randomBytes findProgramAddress
       associatedTokenAddress connection wallet old secret nullifier amt change
       mint rta recipient s).
Proof.
  intros Hpk Hinfo Hbh Hfail _.
  destruct (ensureRecipientAccount_fails connection signer rta recipient mint bh e s
              Hinfo Hbh Hfail) as (s' & E & Hr & Hd).
  split.
  - assert (Hrun : Client.simpleWithdraw findProgramAddress associatedTokenAddress
                     connection wallet nullifier amt mint rta recipient s
                   = (Js.Err (creationFailed e), s')).
    { unfold Client.simpleWithdraw, Client.requireWallet. rewrite Hpk.
      unfold bind at 1. unfold ret at 1. unfold bind at 1. now rewrite E. }
    unfold stoppedAtCreation. rewrite Hrun. cbn [fst snd].
    split; [reflexivity |]. split; assumption.
  - assert (Hrun : Client.withdrawWithChange poseidon randomBytes findProgramAddress
                     associatedTokenAddress connection wallet old secret nullifier
                     amt change mint rta recipient s
                   = (Js.Err (creationFailed e), s')).
    { unfold Client.withdrawWithChange, Client.requireWallet. rewrite Hpk.
      unfold bind at 1. unfold ret at 1. unfold bind at 1. now rewrite E. }
    unfold stoppedAtCreation. rewrite Hrun. cbn [fst snd].
    split; [reflexivity |]. split; assumption.
Qed.

Lemma recipient_account_failure_witness :
  fst (Client.simpleWithdraw Demo.pda Demo.ata deadLedger Demo.wallet 7 30000000
         "Mint" "ata:Mint:Payer" "Payer" Demo.session)
  = Js.Err (creationFailed (Js.newError "Transaction expired")).
Proof.
  refine (proj1 (proj1 (recipient_account_failure Demo.toyPoseidon Demo.randomBytes
                          Demo.pda Demo.ata deadLedger Demo.wallet "Payer"
                          "ata:Mint:Payer" "Payer" "Mint" "blockhash"
                          (Js.newError "Transaction expired")
                          demoRecord 5 7 30000000 20000000 Demo.session
                          eq_refl eq_refl eq_refl (or_introl eq_refl) _))).
  discriminate.
Defined.

(** ** What a withdrawal spends *)

Lemma toLamports_toSOL (lamports : Z) : Client.toLamports (Client.toSOL lamports) = lamports.
Proof.
  unfold Client.toLamports, Client.toSOL, Qfloor, Qmult. cbn [Qnum Qden].
  rewrite Pos.mul_1_r. apply Z.div_mul. discriminate.
Qed.

Lemma toLamports_exact (amount : Q) (lamports : Z) :
  (amount == Client.toSOL lamports)%Q -> Client.toLamports amount = lamports.
Proof.
  intros H. rewrite <- (toLamports_toSOL lamports). unfold Client.toLamports.
  apply Qfloor_comp. now rewrite H.
Qed.

Section SpendFacts.

Variable poseidon : list Z -> Z.
Variable randomBytes : nat -> list Byte.byte.
Variable findProgramAddress : string -> list Byte.byte -> string.
Variable associatedTokenAddress : string -> string -> string.
Variable connection : Client.Connection.
Variable wallet : Secrets.WalletAdapter.

Lemma simpleWithdraw_sent (nullifier amt : Z) (mint rta recipient : string)
    (s s' : Session) (txsig : string) :
  Client.simpleWithdraw findProgramAddress associatedTokenAddress connection wallet
    nullifier amt mint rta recipient s = (Js.Ok txsig, s') ->
  exists tx tail,
    trace s' = EvRpc "confirmTransaction" :: EvSend tx :: tail /\
    spends nullifier amt tx.
Proof.
  unfold Client.simpleWithdraw.
  unfold bind at 1.
  destruct (Client.requireWallet wallet s) as [[signer | e] s0]; [| discriminate].
  unfold bind at 1.
  destruct (Client.ensureRecipientAccount connection signer rta recipient mint s0)
    as [[[] | e] s1]; [| discriminate].
  cbv zeta. intros H. apply simulateAndSend_sent in H. destruct H as [tail E].
  eexists; exists tail. split; [exact E |]. split; reflexivity.
Qed.

Lemma deriveSecret_keeps (n : nat) (amt : Z) (s : Session) (sig : list Byte.byte) :
  cachedSignature s = Some sig ->
  cachedSignature (snd (Secrets.deriveSecret poseidon wallet n amt s)) = Some sig.
Proof.
  intros H. exact (proj2 (Settled_deriveSecret sig poseidon wallet n amt s s H H)).
Qed.

(** A successful [withdraw], traced back: the record it selected with the
    lamports that record holds, the signature the session held after the
    scan, and the transaction it sent last. *)
Lemma withdraw_run (params : Client.V3WithdrawParams) (s s' : Session)
    (txsig : string) :
  Client.withdraw poseidon randomBytes findProgramAddress associatedTokenAddress
    connection wallet params s = (Js.Ok txsig, s') ->
  exists view s1 selected oldAmount sig tx tail,
    Client.getBalance poseidon findProgramAddress connection wallet
      (Client.wp_token params) s = (Js.Ok view, s1) /\
    find (Client.sufficient (Client.toLamports (Client.wp_amount params)))
         (Client.commitments view) = Some selected /\
    Client.isSpent selected = false /\
    In oldAmount Secrets.COMMON_AMOUNTS /\
    Client.amount selected = Client.toSOL oldAmount /\
    Client.toLamports (Client.wp_amount params) <= oldAmount /\
    cachedSignature s1 = Some sig /\
    Client.commitment selected = candidateAt poseidon oldAmount sig (Client.nonce selected) /\
    trace s' = EvRpc "confirmTransaction" :: EvSend tx :: tail /\
    spends (Proofs.computeNullifier poseidon
              (secretAt poseidon oldAmount sig (Client.nonce selected))
              (Client.commitment selected))
           (Client.toLamports (Client.wp_amount params)) tx /\
    (Client.toLamports (Client.wp_amount params) < oldAmount ->
     exists oldNullifier newSecret tokenMint rta,
       tx = changeTx poseidon findProgramAddress associatedTokenAddress oldNullifier
              (Client.toLamports (Client.wp_amount params))
              (oldAmount - Client.toLamports (Client.wp_amount params))
              newSecret tokenMint rta).
Proof.
  unfold Client.withdraw. cbv zeta. intros H.
  apply bind_ok in H as (signer & s0 & Hw & H).
  apply requireWallet_run in Hw. subst s0.
  apply bind_ok in H as (view & s1 & Hb & H).
  destruct (getBalance_tied poseidon findProgramAddress connection wallet _ s s1 view Hb)
    as (accounts & _ & HF).
  destruct (Client.commitments view) as [| c0 cs] eqn:Hcs; [discriminate |].
  rewrite <- Hcs in *.
  destruct (find _ (Client.commitments view)) as [selected |] eqn:Hfind;
    [| discriminate].
  destruct (find_some _ _ Hfind) as [Hin Hsuff].
  destruct (proj1 (Forall_forall _ _) HF selected Hin)
    as (_ & _ & oldAmount & sig & Hold & Hamt & Hc & Hcm).
  assert (Hlam : Client.toLamports (Client.amount selected) = oldAmount)
    by (rewrite Hamt; apply toLamports_toSOL).
  rewrite Hlam in H.
  unfold Client.sufficient in Hsuff. rewrite Hlam in Hsuff.
  apply andb_prop in Hsuff as [Hun Hle].
  apply negb_true_iff in Hun. apply Z.leb_le in Hle.
  apply bind_ok in H as (sec & s2 & Hsec & H).
  pose proof (deriveSecret_keeps (Client.nonce selected) oldAmount s1 sig Hc) as Hk.
  rewrite Hsec in Hk. cbn [snd] in Hk.
  apply deriveSecret_tied in Hsec as (sig2 & Hc2 & ->).
  assert (sig2 = sig) as -> by congruence.
  apply bind_ok in H as (tokenMint & s3 & _ & H).
  exists view, s1, selected, oldAmount, sig.
  destruct (0 <? oldAmount - Client.toLamports (Client.wp_amount params)) eqn:Hchange.
  - apply withdrawWithChange_sent in H as (newSecret & tail & E).
    eexists; exists tail.
    split; [exact Hb |]. split; [exact Hfind |]. split; [exact Hun |].
    split; [exact Hold |]. split; [exact Hamt |]. split; [exact Hle |].
    split; [exact Hc |]. split; [exact Hcm |]. split; [exact E |].
    split; [split; reflexivity |].
    intros _. eexists; eexists; eexists; eexists. reflexivity.
  - apply simpleWithdraw_sent in H as (tx & tail & E & Hsp).
    exists tx, tail.
    split; [exact Hb |]. split; [exact Hfind |]. split; [exact Hun |].
    split; [exact Hold |]. split; [exact Hamt |]. split; [exact Hle |].
    split; [exact Hc |]. split; [exact Hcm |]. split; [exact E |].
    split; [exact Hsp |].
    intros Hlt. apply Z.ltb_ge in Hchange. lia.
Qed.

End SpendFacts.

(** X20. With the signature cached, a successful [withdraw] spends the
    first record of the balance view that is unspent and holds at least
    the lamports asked for: the record holds one of the nine amounts, its
    commitment is the one the signature gives for that amount and the
    record's slot, and the transaction sent last carries the nullifier of
    that commitment and the lamports asked for. The lamports asked for
    are those of the amount when it is one of the nine. *)
Theorem withdraw_spends_selected (poseidon : list Z -> Z)
    (randomBytes : nat -> list Byte.byte)
    (findProgramAddress : string -> list Byte.byte -> string)
    (associatedTokenAddress : string -> string -> string)
    (connection : Client.Connection) (wallet : Secrets.WalletAdapter)
    (sig : list Byte.byte) (params : Client.V3WithdrawParams) (s : Session)
    (txsig : string) :
  cachedSignature s = Some sig ->
  fst (Client.withdraw poseidon randomBytes findProgramAddress associatedTokenAddress
         connection wallet params s) = Js.Ok txsig ->
  exists view selected requested oldAmount tx tail,
    fst (Client.getBalance poseidon findProgramAddress connection wallet
           (Client.wp_token params) s) = Js.Ok view /\
    find (Client.sufficient requested) (Client.commitments view) = Some selected /\
    Client.isSpent selected = false /\
    In oldAmount Secrets.COMMON_AMOUNTS /\
    Client.amount selected = Client.toSOL oldAmount /\
    requested <= oldAmount /\
    Client.commitment selected =
      candidateAt poseidon oldAmount sig (Client.nonce selected) /\
    trace (snd (Client.withdraw poseidon randomBytes findProgramAddress
                  associatedTokenAddress connection wallet params s))
    = EvRpc "confirmTransaction" :: EvSend tx :: tail /\
    spends (Proofs.computeNullifier poseidon
              (secretAt poseidon oldAmount sig (Client.nonce selected))
              (Client.commitment selected))
           requested tx /\
    forall lamports,
      In lamports Secrets.COMMON_AMOUNTS ->
      (Client.wp_amount params == Client.toSOL lamports)%Q -> requested = lamports.
Proof.
  intros Hc H.
  destruct (Client.withdraw poseidon randomBytes findProgramAddress
              associatedTokenAddress connection wallet params s) as [r s'] eqn:E.
  cbn [fst] in H. subst r. cbn [snd].
  destruct (withdraw_run poseidon randomBytes findProgramAddress associatedTokenAddress
              connection wallet params s s' txsig E)
    as (view & s1 & selected & oldAmount & sig1 & tx & tail
        & Hb & Hfind & Hun & Hold & Hamt & Hle & Hc1 & Hcm & Htrace & Hsp & _).
  pose proof (proj2 (Settled_getBalance sig poseidon findProgramAddress connection
                       wallet (Client.wp_token params) s s Hc Hc)) as Hk.
  rewrite Hb in Hk. cbn [snd] in Hk.
  assert (sig1 = sig) as -> by congruence.
  exists view, selected, (Client.toLamports (Client.wp_amount params)), oldAmount, tx, tail.
  rewrite Hb. cbn [fst].
  split; [reflexivity |]. split; [exact Hfind |]. split; [exact Hun |].
  split; [exact Hold |]. split; [exact Hamt |]. split; [exact Hle |].
  split; [exact Hcm |]. split; [exact Htrace |]. split; [exact Hsp |].
  intros lamports _ Heq. now apply toLamports_exact.
Qed.

Lemma withdraw_spends_selected_witness :
  exists view selected requested oldAmount tx tail,
    fst (Client.getBalance Demo.toyPoseidon Demo.pda demoLedger Demo.wallet
           (Client.wp_token demoWithdrawal) Demo.session) = Js.Ok view /\
    find (Client.sufficient requested) (Client.commitments view) = Some selected /\
    Client.isSpent selected = false /\
    In oldAmount Secrets.COMMON_AMOUNTS /\
    Client.amount selected = Client.toSOL oldAmount /\
    requested <= oldAmount /\
    Client.commitment selected =
      candidateAt Demo.toyPoseidon oldAmount Demo.signature (Client.nonce selected) /\
    trace (snd (Client.withdraw Demo.toyPoseidon Demo.randomBytes Demo.pda Demo.ata
                  demoLedger Demo.wallet demoWithdrawal Demo.session))
    = EvRpc "confirmTransaction" :: EvSend tx :: tail /\
    spends (Proofs.computeNullifier Demo.toyPoseidon
              (secretAt Demo.toyPoseidon oldAmount Demo.signature (Client.nonce selected))
              (Client.commitment selected))
           requested tx /\
    forall lamports,
      In lamports Secrets.COMMON_AMOUNTS ->
      (Client.wp_amount demoWithdrawal == Client.toSOL lamports)%Q ->
      requested = lamports.
Proof.
  apply (withdraw_spends_selected Demo.toyPoseidon Demo.randomBytes Demo.pda Demo.ata
           demoLedger Demo.wallet Demo.signature demoWithdrawal Demo.session
           "signature").
  - reflexivity.
  - vm_compute. reflexivity.
Defined.

(** ** What a deposit sends *)

Section DepositFacts.

Variable poseidon : list Z -> Z.
Variable findProgramAddress : string -> list Byte.byte -> string.
Variable associatedTokenAddress : string -> string -> string.
Variable connection : Client.Connection.
Variable wallet : Secrets.WalletAdapter.
Variable amt : Z.
Variable sig : list Byte.byte.
Hypothesis sig_nonempty : sig <> [].

Local Abbreviation slotLoop :=
  (Client.slotLoop poseidon findProgramAddress connection wallet).
Local Abbreviation slotStep :=
  (Client.slotStep poseidon findProgramAddress connection wallet).
Local Abbreviation chooseSlot :=
  (Client.chooseSlot poseidon findProgramAddress connection wallet).

(** The loop keeps secret and commitment in step with the slot. *)
Lemma slotStep_shape (b : bool) (a n : nat) (s s' : Session) (st : Client.SlotState) :
  cachedSignature s = Some sig ->
  slotStep amt (slotAt poseidon amt sig b a n) s = (Js.Ok st, s') ->
  cachedSignature s' = Some sig /\
  exists b' a' n', st = slotAt poseidon amt sig b' a' n'.
Proof.
  intros Hc. unfold Client.slotStep. unfold bind at 1. rewrite rpc_run.
  cbn [slotAt Client.slotCommitment Client.slotNonce Client.attempts Client.slotSecret].
  destruct (Client.getAccountInfo connection _) as [[|] | e]; [| | discriminate].
  - cbv zeta. unfold bind at 1.
    rewrite (cached_deriveSecret poseidon wallet (logEvent (EvRpc "getAccountInfo") s)
               sig (S n) amt Hc sig_nonempty).
    intros H. injection H as <- <-. split; [exact Hc |].
    now exists true, (S a), (S n).
  - intros H. injection H as <- <-. split; [exact Hc |].
    now exists false, a, n.
Qed.

Lemma slotLoop_shape (fuel : nat) : forall b a n s s' st,
  cachedSignature s = Some sig ->
  slotLoop fuel amt (slotAt poseidon amt sig b a n) s = (Js.Ok st, s') ->
  exists b' a' n', st = slotAt poseidon amt sig b' a' n'.
Proof.
  induction fuel as [| fuel IH]; intros b a n s s' st Hc H.
  - injection H as <- _. now exists b, a, n.
  - cbn [Client.slotLoop] in H.
    destruct (Client.commitmentExists _ && _).
    + apply bind_ok in H as (st1 & s1 & Hstep & H).
      destruct (slotStep_shape b a n s s1 st1 Hc Hstep) as (Hc1 & b1 & a1 & n1 & ->).
      exact (IH b1 a1 n1 s1 s' st Hc1 H).
    + injection H as <- _. now exists b, a, n.
Qed.

Lemma chooseSlot_shape (s s' : Session) (st : Client.SlotState) :
  cachedSignature s = Some sig ->
  chooseSlot amt s = (Js.Ok st, s') ->
  exists b a n, st = slotAt poseidon amt sig b a n.
Proof.
  intros Hc H. unfold Client.chooseSlot in H.
  apply bind_ok in H as (n0 & s0 & Hn0 & H).
  destruct (getNextNonce_returns poseidon findProgramAddress connection wallet sig s Hc)
    as (n0' & s0' & E & Hc0).
  rewrite E in Hn0. injection Hn0 as -> ->.
  apply bind_ok in H as (secret0 & s1 & Hsec & H).
  rewrite (cached_deriveSecret poseidon wallet s0 sig n0 amt Hc0 sig_nonempty) in Hsec.
  injection Hsec as <- <-. cbv zeta in H.
  apply bind_ok in H as (st1 & s2 & Hloop & H).
  apply (slotLoop_shape _ true 0%nat n0) in Hloop as (b & a & n & ->); [| exact Hc0].
  destruct (Client.maxAttempts <=? _)%nat; [discriminate |].
  injection H as <- _. now exists b, a, n.
Qed.

End DepositFacts.

(** X21. With the signature cached, the transaction a successful
    [deposit] sends last carries an amount in lamports and the 32 bytes of
    the commitment the signature gives for that very amount at some slot,
    on an account that the ledger reported missing. The lamports are those
    of the amount deposited when it is one of the nine. *)
Theorem deposit_sends_slot_commitment (poseidon : list Z -> Z)
    (findProgramAddress : string -> list Byte.byte -> string)
    (associatedTokenAddress : string -> string -> string)
    (connection : Client.Connection) (wallet : Secrets.WalletAdapter)
    (sig : list Byte.byte) (params : Client.V3DepositParams) (s : Session)
    (txsig : string) :
  sig <> [] -> cachedSignature s = Some sig ->
  fst (Client.deposit poseidon findProgramAddress associatedTokenAddress connection
         wallet params s) = Js.Ok txsig ->
  exists n amountLamports userTokenAccount poolVault tail,
    trace (snd (Client.deposit poseidon findProgramAddress associatedTokenAddress
                  connection wallet params s))
    = EvRpc "confirmTransaction"
        :: EvSend (TxDeposit
                     (Client.toBytes32 (candidateAt poseidon amountLamports sig n))
                     amountLamports userTokenAccount poolVault
                     (Client.commitmentPDA findProgramAddress
                        (candidateAt poseidon amountLamports sig n)))
        :: tail /\
    lookup findProgramAddress connection (candidateAt poseidon amountLamports sig n)
    = Js.Ok false /\
    forall lamports,
      In lamports Secrets.COMMON_AMOUNTS ->
      (Client.dp_amount params == Client.toSOL lamports)%Q -> amountLamports = lamports.
Proof.
  intros Hne Hc H.
  destruct (Client.deposit poseidon findProgramAddress associatedTokenAddress connection
              wallet params s) as [r s'] eqn:E.
  cbn [fst] in H. subst r. cbn [snd].
  unfold Client.deposit in E.
  apply bind_ok in E as (signer & s0 & Hw & E).
  apply requireWallet_run in Hw. subst s0. cbv zeta in E.
  apply bind_ok in E as (tokenMint & s1 & Hmint & E).
  assert (s1 = s) as ->.
  { unfold Client.getTokenMint in Hmint.
    destruct (String.eqb _ _); [now injection Hmint | discriminate]. }
  apply bind_ok in E as (st & s2 & Hslot & E).
  pose proof (chooseSlot_free poseidon findProgramAddress connection wallet
                (Client.toLamports (Client.dp_amount params)) s st) as Hfree.
  rewrite Hslot in Hfree. specialize (Hfree eq_refl).
  destruct (chooseSlot_shape poseidon findProgramAddress connection wallet _ sig Hne
              s s2 st Hc Hslot) as (b & a & n & ->).
  apply simulateAndSend_sent in E as (tail & Htrace).
  exists n, (Client.toLamports (Client.dp_amount params)).
  eexists. eexists. exists tail.
  split; [exact Htrace |]. split; [exact Hfree |].
  intros lamports _ Heq. now apply toLamports_exact.
Qed.

Lemma deposit_sends_slot_commitment_witness :
  exists n amountLamports userTokenAccount poolVault tail,
    trace (snd (Client.deposit Demo.toyPoseidon Demo.pda Demo.ata demoLedger Demo.wallet
                  (Client.mkDepositParams (5 # 100) "SOL") Demo.session))
    = EvRpc "confirmTransaction"
        :: EvSend (TxDeposit
                     (Client.toBytes32 (candidateAt Demo.toyPoseidon amountLamports
                                          Demo.signature n))
                     amountLamports userTokenAccount poolVault
                     (Client.commitmentPDA Demo.pda
                        (candidateAt Demo.toyPoseidon amountLamports Demo.signature n)))
        :: tail /\
    lookup Demo.pda demoLedger
      (candidateAt Demo.toyPoseidon amountLamports Demo.signature n) = Js.Ok false /\
    forall lamports,
      In lamports Secrets.COMMON_AMOUNTS ->
      (5 # 100 == Client.toSOL lamports)%Q -> amountLamports = lamports.
Proof.
  apply (deposit_sends_slot_commitment Demo.toyPoseidon Demo.pda Demo.ata demoLedger
           Demo.wallet Demo.signature (Client.mkDepositParams (5 # 100) "SOL")
           Demo.session "signature").
  - discriminate.
  - reflexivity.
  - vm_compute. reflexivity.
Defined.

(** ** The nonce of a privacy transfer *)

Section TransferFacts.

Variable poseidon : list Z -> Z.
Variable findProgramAddress : string -> list Byte.byte -> string.
Variable connection : Client.Connection.
Variable wallet : Secrets.WalletAdapter.
Variable amt : Z.
Variable sig : list Byte.byte.
Hypothesis sig_nonempty : sig <> [].

Local Abbreviation taken := (fun n =>
  lookup findProgramAddress connection (candidateAt poseidon amt sig n)).
Local Abbreviation nonceLoop :=
  (Payments.nonceLoop poseidon findProgramAddress connection wallet).
Local Abbreviation nonceStep :=
  (Payments.nonceStep poseidon findProgramAddress connection wallet).

Lemma nonceStep_run (n : nat) (ps pc : option Z) (s : Session) (answer : bool) :
  cachedSignature s = Some sig ->
  taken n = Js.Ok answer ->
  exists s',
    nonceStep amt (Payments.mkNonceState true n ps pc) s =
    (Js.Ok (Payments.mkNonceState answer (if answer then S n else n)
              (Some (secretAt poseidon amt sig n))
              (Some (candidateAt poseidon amt sig n))), s') /\
    cachedSignature s' = Some sig.
Proof.
  intros Hc Hans. unfold Payments.nonceStep. unfold bind at 1.
  cbn [Payments.nonce].
  rewrite (cached_deriveSecret poseidon wallet s sig n amt Hc sig_nonempty).
  cbv zeta. unfold bind at 1. rewrite rpc_run.
  unfold lookup, Client.commitmentPDA, candidateAt, secretAt in Hans.
  rewrite Hans.
  destruct answer; eexists; (split; [reflexivity | exact Hc]).
Qed.

Lemma nonceLoop_stopped (fuel n : nat) (ps pc : option Z) (s : Session) :
  nonceLoop fuel amt (Payments.mkNonceState false n ps pc) s =
  (Js.Ok (Payments.mkNonceState false n ps pc), s).
Proof. destruct fuel; reflexivity. Qed.

Lemma nonceLoop_unroll (fuel n : nat) (ps pc : option Z) (s : Session) :
  (n < Payments.MAX_NONCE_ATTEMPTS)%nat ->
  nonceLoop (S fuel) amt (Payments.mkNonceState true n ps pc) s =
  bind (nonceStep amt (Payments.mkNonceState true n ps pc)) (nonceLoop fuel amt) s.
Proof.
  intros Hn. cbn [Payments.nonceLoop Payments.commitmentExists Payments.nonce andb].
  apply Nat.ltb_lt in Hn. rewrite Hn. reflexivity.
Qed.

(** The loop stops at the first free slot, [k] slots after its start. *)
Lemma nonceLoop_finds (k : nat) : forall fuel n ps pc s,
  cachedSignature s = Some sig ->
  (k < fuel)%nat -> (n + k < Payments.MAX_NONCE_ATTEMPTS)%nat ->
  (forall j, (j < k)%nat -> taken (n + j)%nat = Js.Ok true) ->
  taken (n + k)%nat = Js.Ok false ->
  fst (nonceLoop fuel amt (Payments.mkNonceState true n ps pc) s)
  = Js.Ok (nonceAt poseidon amt sig (n + k)).
Proof.
  induction k as [| k IH]; intros fuel n ps pc s Hc Hfuel Hn Hocc Hfree;
    (destruct fuel as [| fuel]; [lia |]);
    rewrite nonceLoop_unroll by lia; unfold bind.
  - rewrite !Nat.add_0_r in *.
    destruct (nonceStep_run n ps pc s false Hc Hfree) as (s' & E & _).
    rewrite E. now rewrite nonceLoop_stopped.
  - assert (H0 : taken n = Js.Ok true).
    { rewrite <- (Nat.add_0_r n). apply Hocc. lia. }
    destruct (nonceStep_run n ps pc s true Hc H0) as (s' & E & Hc').
    rewrite E.
    replace (n + S k)%nat with (S n + k)%nat by lia.
    apply IH; [exact Hc' | lia | lia | | ].
    + intros j Hj. replace (S n + j)%nat with (n + S j)%nat by lia.
      apply Hocc. lia.
    + replace (S n + k)%nat with (n + S k)%nat by lia. exact Hfree.
Qed.

(** With every slot taken the loop runs up to [MAX_NONCE_ATTEMPTS] and
    leaves [commitmentExists] set. *)
Lemma nonceLoop_exhausts (r : nat) : forall fuel n ps pc s,
  cachedSignature s = Some sig ->
  (r <= fuel)%nat -> (n + r = Payments.MAX_NONCE_ATTEMPTS)%nat ->
  (forall j, (j < r)%nat -> taken (n + j)%nat = Js.Ok true) ->
  exists st,
    fst (nonceLoop fuel amt (Payments.mkNonceState true n ps pc) s) = Js.Ok st /\
    Payments.commitmentExists st = true.
Proof.
  induction r as [| r IH]; intros fuel n ps pc s Hc Hfuel Hn Hocc.
  - rewrite Nat.add_0_r in Hn. subst n.
    exists (Payments.mkNonceState true Payments.MAX_NONCE_ATTEMPTS ps pc).
    split; [| reflexivity].
    destruct fuel; [reflexivity |].
    cbn [Payments.nonceLoop Payments.commitmentExists Payments.nonce andb].
    rewrite Nat.ltb_irrefl. reflexivity.
  - destruct fuel as [| fuel]; [lia |].
    rewrite nonceLoop_unroll by lia. unfold bind.
    assert (H0 : taken n = Js.Ok true).
    { rewrite <- (Nat.add_0_r n). apply Hocc. lia. }
    destruct (nonceStep_run n ps pc s true Hc H0) as (s' & E & Hc').
    rewrite E.
    apply IH; [exact Hc' | lia | lia |].
    intros j Hj. replace (S n + j)%nat with (n + S j)%nat by lia.
    apply Hocc. lia.
Qed.

End TransferFacts.

(** X22. With the signature cached, [privacyTransfer] takes the least slot,
    counted from 0, whose commitment has no account on the ledger, and
    commits to the secret of that slot; when the slots 0 to 999 are all
    taken it fails with "Could not find unused commitment nonce. Please
    try again later.". *)
Theorem privacyTransfer_least_free_nonce (poseidon : list Z -> Z)
    (findProgramAddress : string -> list Byte.byte -> string)
    (connection : Client.Connection) (wallet : Secrets.WalletAdapter)
    (amt : Z) (sig : list Byte.byte) (s : Session) :
  sig <> [] -> cachedSignature s = Some sig ->
  (forall k,
     (k < Payments.MAX_NONCE_ATTEMPTS)%nat ->
     (forall j, (j < k)%nat ->
        lookup findProgramAddress connection (candidateAt poseidon amt sig j)
        = Js.Ok true) ->
     lookup findProgramAddress connection (candidateAt poseidon amt sig k)
     = Js.Ok false ->
     fst (Payments.chooseNonce poseidon findProgramAddress connection wallet amt s)
     = Js.Ok (nonceAt poseidon amt sig k)) /\
  ((forall j, (j < Payments.MAX_NONCE_ATTEMPTS)%nat ->
      lookup findProgramAddress connection (candidateAt poseidon amt sig j)
      = Js.Ok true) ->
   fst (Payments.chooseNonce poseidon findProgramAddress connection wallet amt s)
   = Js.Err nonceExhausted).
Proof.
  intros Hne Hc. split.
  - intros k Hk Hocc Hfree. unfold Payments.chooseNonce, bind.
    pose proof (nonceLoop_finds poseidon findProgramAddress connection wallet amt sig
                  Hne k (S Payments.MAX_NONCE_ATTEMPTS) 0 None None s Hc
                  ltac:(lia) ltac:(lia) Hocc Hfree) as H.
    destruct (Payments.nonceLoop _ _ _ _ _ _ _ s) as [r s'].
    cbn [fst] in H. subst r. reflexivity.
  - intros Hocc. unfold Payments.chooseNonce, bind.
    destruct (nonceLoop_exhausts poseidon findProgramAddress connection wallet amt sig
                Hne Payments.MAX_NONCE_ATTEMPTS (S Payments.MAX_NONCE_ATTEMPTS) 0
                None None s Hc ltac:(lia) eq_refl Hocc) as (st & H & Hex).
    destruct (Payments.nonceLoop _ _ _ _ _ _ _ s) as [r s'].
    cbn [fst] in H. subst r. now rewrite Hex.
Qed.

Lemma privacyTransfer_least_free_nonce_witness :
  fst (Payments.chooseNonce Demo.toyPoseidon Demo.pda
         (Demo.ledger [("A"%string, Demo.candidate 10000000 0, 5)])
         Demo.wallet 10000000 Demo.session)
  = Js.Ok (nonceAt Demo.toyPoseidon 10000000 Demo.signature 1).
Proof.
  apply (proj1 (privacyTransfer_least_free_nonce Demo.toyPoseidon Demo.pda
                  (Demo.ledger [("A"%string, Demo.candidate 10000000 0, 5)])
                  Demo.wallet 10000000 Demo.signature Demo.session
                  ltac:(discriminate) eq_refl) 1%nat).
  - unfold Payments.MAX_NONCE_ATTEMPTS. lia.
  - intros j Hj. assert (j = 0)%nat as -> by lia. vm_compute. reflexivity.
  - vm_compute. reflexivity.
Defined.



(** ** The metadata of a payment request *)

(** X24. The [metadataHash] of a payment request is no digest: for
    non-empty metadata it is the first 32 bytes, zero-padded to 32 bytes, so
    two metadata that agree on their first 32 bytes get the same value. *)
Theorem metadataHash_truncates (bytes : list Byte.byte) :
  bytes <> [] ->
  exists hash,
    Payments.metadataHash (Some bytes) = Some hash /\
    List.length hash = 32%nat /\
    firstn (List.length bytes) hash = firstn 32 bytes /\
    forall other,
      other <> [] -> firstn 32 other = firstn 32 bytes ->
      Payments.metadataHash (Some other) = Some hash.
Proof.
  intros Hne.
  exists (firstn 32 bytes ++ repeat Byte.x00 (32 - List.length (firstn 32 bytes))).
  split; [destruct bytes; [contradiction | reflexivity] |].
  split; [| split].
  - rewrite length_app, repeat_length, length_firstn. lia.
  - rewrite firstn_app, length_firstn.
    destruct (Nat.le_gt_cases (List.length bytes) 32) as [Hle | Hgt].
    + rewrite Nat.min_r by exact Hle.
      rewrite Nat.sub_diag, firstn_O, app_nil_r.
      rewrite (firstn_all2 (n := 32)) by exact Hle.
      now rewrite firstn_all.
    + rewrite Nat.min_l by lia.
      rewrite firstn_firstn, Nat.min_r by lia.
      replace (32 - 32)%nat with 0%nat by lia. cbn [repeat].
      rewrite firstn_nil. apply app_nil_r.
  - intros other Hother Heq.
    destruct other as [| b rest]; [contradiction |].
    unfold Payments.metadataHash. cbv zeta. now rewrite Heq.
Qed.

Lemma metadataHash_truncates_witness :
  exists hash,
    Payments.metadataHash (Some (repeat Byte.x41 40)) = Some hash /\
    List.length hash = 32%nat /\
    firstn 40 hash = firstn 32 (repeat Byte.x41 40) /\
    forall other,
      other <> [] -> firstn 32 other = firstn 32 (repeat Byte.x41 40) ->
      Payments.metadataHash (Some other) = Some hash.
Proof.
  apply (metadataHash_truncates (repeat Byte.x41 40)). discriminate.
Defined.

(** ** Conservation of value (claim C3) *)

Section ConservationFacts.

Variable poseidon : list Z -> Z.

Lemma circuit_on_inputs (inputs : Proofs.WithdrawWithChangeProofInputs) :
  Circuits.withdrawWithChange poseidon (Proofs.withdrawWithChangeCircuitInputs inputs)
  = Circuits.withdrawWithChangeConstraints poseidon
      (Proofs.oldCommitment inputs) (Proofs.oldNullifier inputs)
      (Proofs.newCommitment inputs) (Proofs.withdrawAmount inputs)
      (Proofs.oldAmount inputs) (Proofs.oldSecret inputs)
      (Proofs.newAmount inputs) (Proofs.newSecret inputs).
Proof. reflexivity. Qed.

Variable fullProve :
  Proofs.CircuitInputs -> string -> string -> Js.Result Proofs.ProofResult.
Hypothesis fullProve_proves :
  proves (Circuits.withdrawWithChange poseidon)
         Proofs.withdrawWithChangeWasm Proofs.withdrawWithChangeZkey fullProve.

(** A proof comes back only for inputs that satisfy the circuit. *)
Lemma proof_generated (inputs : Proofs.WithdrawWithChangeProofInputs)
    (s s' : Session) (result : Proofs.ProofResult) :
  Proofs.generateWithdrawWithChangeProof fullProve inputs s = (Js.Ok result, s') ->
  Proofs.withdrawAmount inputs + Proofs.newAmount inputs = Proofs.oldAmount inputs /\
  Proofs.oldNullifier inputs =
    Proofs.computeNullifier poseidon (Proofs.oldSecret inputs)
      (Proofs.oldCommitment inputs) /\
  Proofs.newCommitment inputs =
    Proofs.computeCommitment poseidon (Proofs.newAmount inputs) (Proofs.newSecret inputs).
Proof.
  unfold Proofs.generateWithdrawWithChangeProof. intros H.
  apply bind_ok in H as ([] & s0 & _ & H).
  destruct (fullProve _ _ _) as [r | e] eqn:E; [| discriminate].
  apply fullProve_proves in E. rewrite circuit_on_inputs in E.
  unfold Circuits.withdrawWithChangeConstraints in E.
  apply andb_prop in E as [E Hnew]. apply andb_prop in E as [Hsum Hnull].
  apply Z.eqb_eq in Hsum, Hnull, Hnew.
  split; [lia |]. split; assumption.
Qed.

Variable randomBytes : nat -> list Byte.byte.
Variable findProgramAddress : string -> list Byte.byte -> string.
Variable associatedTokenAddress : string -> string -> string.
Variable connection : Client.Connection.
Variable wallet : Secrets.WalletAdapter.

(** The amounts of a successful [withdraw]. *)
Lemma withdraw_conserves (params : Client.V3WithdrawParams) (s s' : Session)
    (txsig : string) :
  Client.withdraw poseidon randomBytes findProgramAddress associatedTokenAddress
    connection wallet params s = (Js.Ok txsig, s') ->
  exists view selected requested oldAmount,
    fst (Client.getBalance poseidon findProgramAddress connection wallet
           (Client.wp_token params) s) = Js.Ok view /\
    find (Client.sufficient requested) (Client.commitments view) = Some selected /\
    In oldAmount Secrets.COMMON_AMOUNTS /\
    Client.amount selected = Client.toSOL oldAmount /\
    requested <= oldAmount /\
    (requested < oldAmount ->
     exists oldNullifier newAmount newSecret tokenMint rta tail,
       requested + newAmount = oldAmount /\
       trace s' =
       EvRpc "confirmTransaction"
         :: EvSend (changeTx poseidon findProgramAddress associatedTokenAddress
                      oldNullifier requested newAmount newSecret tokenMint rta)
         :: tail) /\
    (forall lamports,
       In lamports Secrets.COMMON_AMOUNTS ->
       (Client.wp_amount params == Client.toSOL lamports)%Q -> requested = lamports).
Proof.
  intros H.
  destruct (withdraw_run poseidon randomBytes findProgramAddress associatedTokenAddress
              connection wallet params s s' txsig H)
    as (view & s1 & selected & oldAmount & sig & tx & tail
        & Hb & Hfind & _ & Hold & Hamt & Hle & _ & _ & Htrace & _ & Hchange).
  exists view, selected, (Client.toLamports (Client.wp_amount params)), oldAmount.
  rewrite Hb. cbn [fst].
  split; [reflexivity |]. split; [exact Hfind |]. split; [exact Hold |].
  split; [exact Hamt |]. split; [exact Hle |]. split.
  - intros Hlt. destruct (Hchange Hlt) as (oldNullifier & newSecret & mint & rta & ->).
    exists oldNullifier, (oldAmount - Client.toLamports (Client.wp_amount params)),
           newSecret, mint, rta, tail.
    split; [lia | exact Htrace].
  - intros lamports _ Heq. now apply toLamports_exact.
Qed.

End ConservationFacts.


Lemma checkingProver_proves (poseidon : list Z -> Z) :
  proves (Circuits.withdrawWithChange poseidon)
         Proofs.withdrawWithChangeWasm Proofs.withdrawWithChangeZkey
         (checkingProver poseidon).
Proof.
  intros inputs result. unfold checkingProver.
  destruct (Circuits.withdrawWithChange poseidon inputs);
    [reflexivity | discriminate].
Defined.

